(** * asoubot: the RSS polling core ([rss.js]) and its wiring ([index.js])

    A shallow embedding of the feed-polling, new-item detection and fan-out
    code of asoubot, with the properties of its specification stated and
    proved (or refuted) against it.

    Conventions of the embedding.
    - A JavaScript string is a Rocq [string]; each character stands for one
      UTF-16 code unit in the range U+0000..U+00FF.
    - [g_lastSeenTweetIdByUser], a [Map<string, string|null>], is a
      [gmap string (option string)]: an absent key reads [undefined], a
      key bound to [None] reads [null].
    - Effects (the seen-state map, the console, exceptions) are threaded by a
      small state-and-exception monad [M]; everything outside the process
      (the feed parser, the DeepL client, the guild snapshot, the delivery
      callback) is a field of the environment record [Env]. *)

From Stdlib Require Import ZArith Lia Bool Ascii String List.
From Stdlib Require Floats.SpecFloat.
From stdpp Require Import base option list strings gmap sorting.

Local Open Scope Z_scope.

(** ** JavaScript string primitives *)

Module Js.

(** Code units that [String.prototype.trim] strips and that the regular
    expression class [\s] matches, within U+0000..U+00FF: TAB, LF, VT, FF,
    CR, SPACE and NO-BREAK SPACE. *)
Definition isWhiteSpace (c : ascii) : bool :=
  let n := nat_of_ascii c in
  ((9 <=? n)%nat && (n <=? 13)%nat) || (n =? 32)%nat || (n =? 160)%nat.

(** The class [\d] (no [u] flag): the ten ASCII digits. *)
Definition isDigit (c : ascii) : bool :=
  let n := nat_of_ascii c in (48 <=? n)%nat && (n <=? 57)%nat.

Fixpoint trimStart (s : string) : string :=
  match s with
  | String c s' => if isWhiteSpace c then trimStart s' else s
  | EmptyString => EmptyString
  end.

(** [trimEnd] keeps a character when it is not white space or when something
    that survives follows it. *)
Fixpoint trimEnd (s : string) : string :=
  match s with
  | String c s' =>
      match trimEnd s' with
      | EmptyString => if isWhiteSpace c then EmptyString else String c EmptyString
      | r => String c r
      end
  | EmptyString => EmptyString
  end.

Definition trim (s : string) : string := trimEnd (trimStart s).

(** [startsWith s p]: [p] is a prefix of [s]. *)
Fixpoint startsWith (s p : string) {struct p} : bool :=
  match p, s with
  | EmptyString, _ => true
  | String a p', String b s' => if Ascii.eqb a b then startsWith s' p' else false
  | String _ _, EmptyString => false
  end.

(** [s.indexOf(p)] counted from position [i] of the enclosing string; [-1]
    when [p] does not occur. *)
Fixpoint indexOfFrom (p s : string) (i : Z) : Z :=
  if startsWith s p then i
  else match s with
       | String _ s' => indexOfFrom p s' (i + 1)
       | EmptyString => -1
       end.

Definition indexOf (s p : string) : Z := indexOfFrom p s 0.

Fixpoint drop (n : nat) (s : string) : string :=
  match n, s with
  | O, _ => s
  | S n', String _ s' => drop n' s'
  | S _, EmptyString => EmptyString
  end.

(** [s.slice(start)]: a negative [start] counts from the end. *)
Definition slice (s : string) (start : Z) : string :=
  let len := Z.of_nat (String.length s) in
  let from := if start <? 0 then Z.max (len + start) 0 else Z.min start len in
  drop (Z.to_nat from) s.

(** [BigInt(s)] for a string of decimal digits: its value, of any size.
    The program applies [BigInt] only to captures of [\d+]. *)
Definition digitValue (c : ascii) : Z := Z.of_nat (nat_of_ascii c) - 48.

Fixpoint bigIntFrom (acc : Z) (s : string) : Z :=
  match s with
  | String c s' => bigIntFrom (10 * acc + digitValue c) s'
  | EmptyString => acc
  end.

Definition BigInt (s : string) : Z := bigIntFrom 0 s.

Fixpoint allDigits (s : string) : bool :=
  match s with
  | String c s' => isDigit c && allDigits s'
  | EmptyString => true
  end.

(** Truthiness of a string: non-empty. *)
Definition truthy (s : string) : bool :=
  match s with EmptyString => false | _ => true end.

End Js.

(** ** Feed items and the pure helpers of [rss.js] *)

(** An item of the parsed feed. A field is [None] when the property is
    absent or is not a string. *)
Record Item := {
  link : option string;
  title : option string;
  isoDate : option string;
  pubDate : option string;
}.

(** [extractOriginalText(item)], rss.js:59-70. *)
Definition extractOriginalText (item : Item) : string :=
  let title := match title item with Some t => Js.trim t | None => "" end in
  if negb (Js.truthy title) then ""
  else
    let idx := Js.indexOf title "): " in
    if negb (idx =? -1) then Js.trim (Js.slice title (idx + 3))
    else
      let idx2 := Js.indexOf title ": " in
      if negb (idx2 =? -1) then Js.trim (Js.slice title (idx2 + 2))
      else title.

(** The longest run of digits at the head of [s]: the greedy capture [(\d+)]. *)
Fixpoint takeDigits (s : string) : string :=
  match s with
  | String c s' => if Js.isDigit c then String c (takeDigits s') else EmptyString
  | EmptyString => EmptyString
  end.

(** [link.match(/\/status\/(\d+)/)]: the leftmost position at which
    ["/status/"] is followed by at least one digit; the capture is the
    whole run of digits there. *)
Fixpoint matchStatus (s : string) : option string :=
  let here :=
    if Js.startsWith s "/status/"
    then match takeDigits (Js.drop 8 s) with
         | EmptyString => None
         | d => Some d
         end
    else None in
  match here with
  | Some d => Some d
  | None => match s with
            | String _ s' => matchStatus s'
            | EmptyString => None
            end
  end.

(** [extractTweetIdFromLink(link)], rss.js:78-82. *)
Definition extractTweetIdFromLink (link : option string) : option string :=
  match link with
  | None => None
  | Some l => if negb (Js.truthy l) then None else matchStatus l
  end.

(** The body of the loop of [pickLatestByStatusId], rss.js:95-101, on the
    pair [(bestItem, bestId)]. *)
Definition pickStep (best : option (Item * string)) (it : Item)
  : option (Item * string) :=
  match extractTweetIdFromLink (link it) with
  | None => best
  | Some id =>
      if negb (Js.truthy id) then best
      else match best with
           | None => Some (it, id)
           | Some (_, bestId) =>
               if Js.BigInt id >? Js.BigInt bestId then Some (it, id) else best
           end
  end.

(** [pickLatestByStatusId(items)], rss.js:90-106. [bestItem] and [bestId]
    are assigned together: [None] is both [null]. *)
Definition pickLatestByStatusId (items : list Item) : option (Item * string) :=
  match fold_left pickStep items None with
  | Some (bestItem, bestId) =>
      if negb (Js.truthy bestId) then None else Some (bestItem, bestId)
  | None => None
  end.

(** [/^https?:\/\/\S+$/i.test(text)], rss.js:118. With the [i] flag the
    letters of [http] and [s] match in either case. *)
Definition lower (c : ascii) : ascii :=
  let n := nat_of_ascii c in
  if (65 <=? n)%nat && (n <=? 90)%nat then ascii_of_nat (n + 32) else c.

Fixpoint startsWithCI (s p : string) {struct p} : bool :=
  match p, s with
  | EmptyString, _ => true
  | String a p', String b s' =>
      if Ascii.eqb a (lower b) then startsWithCI s' p' else false
  | String _ _, EmptyString => false
  end.

Fixpoint noWhiteSpace (s : string) : bool :=
  match s with
  | String c s' => negb (Js.isWhiteSpace c) && noWhiteSpace s'
  | EmptyString => true
  end.

Definition isBareUrl (text : string) : bool :=
  let tail (r : string) := Js.truthy r && noWhiteSpace r in
  (startsWithCI text "https://" && tail (Js.drop 8 text))
  || (startsWithCI text "http://" && tail (Js.drop 7 text)).

(** [base.replace(/\/+$/, '')], rss.js:46. *)
Fixpoint stripTrailingSlashes (s : string) : string :=
  match s with
  | String c s' =>
      match stripTrailingSlashes s' with
      | EmptyString => if Ascii.eqb c "/" then EmptyString else String c EmptyString
      | r => String c r
      end
  | EmptyString => EmptyString
  end.

(** ** The world: seen-state, observable events, exceptions *)

(** A thrown value, by its message. *)
Definition Exn := string.

Inductive Outcome (A : Type) : Type :=
  | Returned (a : A)
  | Threw (e : Exn).
Arguments Returned {A} a.
Arguments Threw {A} e.

(** What [fetchLatestTweet] resolves to, rss.js:160-166. [publishedAt] is
    the time value of the [Date], [None] for [null]. *)
Module Latest.
Record t := mk {
  username : string;
  id : string;
  url : string;
  originalText : string;
  publishedAt : option Z;
}.
End Latest.

(** What [pollOnce] resolves to, rss.js:222-229 (the typedef [RssTweet]
    with the identifier). *)
Module Tweet.
Record t := mk {
  username : string;
  id : string;
  url : string;
  originalText : string;
  englishText : string;
  publishedAt : option Z;
}.
End Tweet.

(** The snapshot that [getGuildState] resolves to, index.js:475-497.
    [guildMap] is a [Map] read by iteration: its entries in insertion order. *)
Record GuildState := {
  guildMap : list (string * list string);
  allUsernames : list string;
}.

(** What the program does to the outside, in order: lines given to [log] and
    [error] of logger.js, and calls of the collaborators. *)
Inductive Event :=
  | Log (message : string)
  | Error (message : string)
  | ParseURL (url : string)
  | TranslateText (text : string)
  | NotifyGuild (guildId : string) (tweet : Tweet.t).

Record World := {
  g_lastSeenTweetIdByUser : gmap string (option string);
  trace : list Event;
}.

(** What the outside answers while the function under study runs. *)
Record Env := {
  (** [process.env.NITTER_BASE] *)
  NITTER_BASE : option string;
  encodeURIComponent : string -> string;
  (** [parser.parseURL(url)]: [feed?.items] when it is an array, [None]
      otherwise; or the rejection. *)
  parseURL : string -> Outcome (option (list Item));
  (** [new Date(raw).getTime()], [None] when it is [NaN]. *)
  dateTime : string -> option Z;
  (** [deeplTranslator], [None] when [DEEPL_AUTH_KEY] is missing; a call
      [translateText(text, null, 'en-US')] resolves to [result?.text]
      ([None] when absent) or rejects. *)
  deeplTranslator : option (string -> Outcome (option string));
  getGuildState : Outcome GuildState;
  notifyGuild : string -> Tweet.t -> Outcome unit;
}.

Definition M (A : Type) : Type := World -> Outcome A * World.

#[export] Instance M_ret : MRet M := fun A a w => (Returned a, w).
#[export] Instance M_bind : MBind M := fun A B f m w =>
  match m w with
  | (Returned a, w') => f a w'
  | (Threw e, w') => (Threw e, w')
  end.

(** [await] of a collaborator's answer. *)
Definition await {A} (o : Outcome A) : M A := fun w => (o, w).

(** [try { m } catch (err) { h err }]. *)
Definition tryCatch {A} (m : M A) (h : Exn -> M A) : M A := fun w =>
  match m w with
  | (Returned a, w') => (Returned a, w')
  | (Threw e, w') => h e w'
  end.

(** The outcome of [m] reified, for a [try] whose [catch] leaves the
    enclosing iteration. *)
Definition attempt {A} (m : M A) : M (Outcome A) := fun w =>
  let '(r, w') := m w in (Returned r, w').

Definition emit (e : Event) : M unit := fun w =>
  (Returned (), {| g_lastSeenTweetIdByUser := g_lastSeenTweetIdByUser w;
                   trace := trace w ++ [e] |}).

(** [log(message)] and [error(message)] of logger.js. [error] has one
    parameter: the [err] its callers pass second is dropped. *)
Definition log (message : string) : M unit := emit (Log message).
Definition error (message : string) : M unit := emit (Error message).

(** [g_lastSeenTweetIdByUser.set(u, v)]. *)
Definition setLastSeen (u : string) (v : option string) : M unit := fun w =>
  (Returned (), {| g_lastSeenTweetIdByUser := <[u := v]> (g_lastSeenTweetIdByUser w);
                   trace := trace w |}).

(** [g_lastSeenTweetIdByUser.get(u) || null], rss.js:208: [undefined],
    [null] and the empty string all read [null]. *)
Definition lastIdOf (seen : gmap string (option string)) (u : string)
  : option string :=
  match seen !! u with
  | Some (Some s) => if Js.truthy s then Some s else None
  | _ => None
  end.

Definition getLastId (u : string) : M (option string) := fun w =>
  (Returned (lastIdOf (g_lastSeenTweetIdByUser w) u), w).

(** The guard of rss.js:209, [latest.id === lastId], negated: the test an
    item passes to be recorded and considered for delivery. *)
Definition isNew (seen : gmap string (option string)) (u id : string) : bool :=
  negb (bool_decide (Some id = lastIdOf seen u)).

(** [for (const x of xs) body], with the variables the body assigns as
    the accumulator. *)
Fixpoint forOf {A S} (xs : list A) (body : A -> S -> M S) (s : S) : M S :=
  match xs with
  | [] => mret s
  | x :: xs' => s' ← body x s; forOf xs' body s'
  end.

(** ** The effectful functions of [rss.js] *)

(** [buildNitterRssUrl(username)], rss.js:45-48. *)
Definition buildNitterRssUrl (E : Env) (username : string) : string :=
  let base := stripTrailingSlashes (default "" (NITTER_BASE E)) in
  base +:+ "/" +:+ encodeURIComponent E username +:+ "/rss".

(** [a || b] on optional strings. *)
Definition orElse (a b : option string) : option string :=
  match a with
  | Some s => if Js.truthy s then a else b
  | None => b
  end.

(** [translateToEnglish(originalText)], rss.js:114-132. *)
Definition translateToEnglish (E : Env) (originalText : string) : M string :=
  let text := Js.trim originalText in
  if negb (Js.truthy text) then mret ""
  else if isBareUrl text then mret text
  else match deeplTranslator E with
       | None =>
           log "[DEEPL] DEEPL_AUTH_KEY missing; returning original text without translation.";;
           mret text
       | Some translateText =>
           tryCatch
             (emit (TranslateText text);;
              result ← await (translateText text);
              mret (match result with
                    | Some t => if Js.truthy t then t else ""
                    | None => ""
                    end))
             (fun err =>
                error "[DEEPL] translateText failed; returning original text:";;
                mret text)
       end.

(** [fetchLatestTweet(username)], rss.js:140-167. *)
Definition fetchLatestTweet (E : Env) (username : string) : M (option Latest.t) :=
  let url := buildNitterRssUrl E username in
  log ("[RSS] fetching @" +:+ username +:+ " url=" +:+ url);;
  emit (ParseURL url);;
  feed ← await (parseURL E url);
  let items := default [] feed in
  if (length items =? 0)%nat then mret None
  else match pickLatestByStatusId items with
       | None => mret None
       | Some (item, id) =>
           let originalText := extractOriginalText item in
           let rawDate := orElse (orElse (isoDate item) (pubDate item)) None in
           let publishedAt := rawDate ≫= dateTime E in
           mret (Some {| Latest.username := username;
                         Latest.id := id;
                         Latest.url := "https://x.com/" +:+ username +:+ "/status/" +:+ id;
                         Latest.originalText := originalText;
                         Latest.publishedAt := publishedAt |})
       end.

(** [primeLastSeen(usernames)], rss.js:175-185. *)
Definition primeLastSeen (E : Env) (usernames : list string) : M unit :=
  forOf usernames (fun u (_ : unit) =>
    tryCatch
      (latest ← fetchLatestTweet E u;
       setLastSeen u (Latest.id <$> latest))
      (fun err =>
         error ("[RSS] prime failed for @" +:+ u +:+ ":");;
         setLastSeen u None)) ().

(** The comparison of rss.js:213 on the variable [best]. *)
Definition better (best : option Latest.t) (latest : Latest.t) : option Latest.t :=
  match best with
  | None => Some latest
  | Some b =>
      if Js.BigInt (Latest.id latest) >? Js.BigInt (Latest.id b)
      then Some latest else best
  end.

(** One iteration of the loop of [pollOnce], rss.js:196-216; a [continue]
    leaves [best] as it is. *)
Definition pollBody (E : Env) (u : string) (best : option Latest.t)
  : M (option Latest.t) :=
  r ← attempt (fetchLatestTweet E u);
  match r with
  | Threw err =>
      error ("[RSS] fetchLatestTweet failed for @" +:+ u +:+ ":");;
      mret best
  | Returned None => mret best
  | Returned (Some latest) =>
      if negb (Js.truthy (Latest.originalText latest)) then mret best
      else
        lastId ← getLastId u;
        if bool_decide (Some (Latest.id latest) = lastId) then mret best
        else
          setLastSeen u (Some (Latest.id latest));;
          mret (better best latest)
  end.

(** [pollOnce(usernames)], rss.js:193-230. *)
Definition pollOnce (E : Env) (usernames : list string) : M (option Tweet.t) :=
  best ← forOf usernames (pollBody E) None;
  match best with
  | None => mret None
  | Some best =>
      englishText ← translateToEnglish E (Latest.originalText best);
      mret (Some {| Tweet.username := Latest.username best;
                    Tweet.id := Latest.id best;
                    Tweet.url := Latest.url best;
                    Tweet.originalText := Latest.originalText best;
                    Tweet.englishText := englishText;
                    Tweet.publishedAt := Latest.publishedAt best |})
  end.

(** [list.includes(username)]. *)
Definition includes (l : list string) (u : string) : bool :=
  bool_decide (u ∈ l).

(** The start-up block of [startRssLoop], rss.js:251-258. *)
Definition priming (E : Env) : M unit :=
  tryCatch
    (state ← await (getGuildState E);
     primeLastSeen E (allUsernames state))
    (fun err => error "[RSS] initial primeLastSeen failed:").

(** The body of the fan-out loop, rss.js:266-270, for one entry of
    [state.guildMap]. *)
Definition deliver (E : Env) (tweet : Tweet.t) (entry : string * list string)
    (_ : unit) : M unit :=
  let '(guildId, list) := entry in
  if includes list (Tweet.username tweet)
  then emit (NotifyGuild guildId tweet);;
       await (notifyGuild E guildId tweet)
  else mret ().

(** The callback given to [setInterval], rss.js:260-274. *)
Definition tick (E : Env) : M unit :=
  tryCatch
    (state ← await (getGuildState E);
     tweet ← pollOnce E (allUsernames state);
     match tweet with
     | None => mret ()
     | Some tweet => forOf (guildMap state) (deliver E tweet) ()
     end)
    (fun err => error "[RSS] polling tick failed:").

(** Firings of the timer that follow one another, each against what the
    outside answers at that time, a callback having settled when the
    next one starts. *)
Fixpoint ticks (Es : list Env) : M unit :=
  match Es with
  | [] => mret ()
  | E :: Es' => tick E;; ticks Es'
  end.

(** ** The interval: [Number(process.env.RSS_INTERVAL_MS || 60_000)] *)

(** A JavaScript number is an IEEE 754 binary64 value: the Standard
    Library's [spec_float], read at precision 53 and maximal exponent 1024.
    A finite value other than zero is [S754_finite s m e], the double
    [(-1)^s * m * 2^e] with [m] of 53 bits (fewer for a subnormal); the
    two zeros are [S754_zero s]. *)
Definition JsNumber : Set := SpecFloat.spec_float.

Definition NaN : JsNumber := SpecFloat.S754_nan.
Definition Infinite (negative : bool) : JsNumber := SpecFloat.S754_infinity negative.

Module Num.

Definition prec : Z := 53.
Definition emax : Z := 1024.

(** The Number value for the integer [z]: the double nearest to it, ties
    to the even mantissa, an infinity beyond the largest double. *)
Definition ofZ (z : Z) : JsNumber := SpecFloat.binary_normalize prec emax z 0 false.

(** The Number value for [d / q] with the sign [neg], for [0 <= d] and
    [0 < q]: the quotient is taken to enough bits, the remainder tells on
    which side of the midpoint it lies, and the result is rounded to
    nearest, ties to even. *)
Definition ofRatio (neg : bool) (d q : Z) : JsNumber :=
  if d =? 0 then SpecFloat.S754_zero neg
  else
    let '(m, e, l) := SpecFloat.SFdiv_core_binary prec emax d 0 q 0 in
    SpecFloat.binary_round_aux prec emax neg m e l.

(** The Number value for [d * 10^e10] with the sign [neg], for [0 <= d]. *)
Definition ofDecimal (neg : bool) (d e10 : Z) : JsNumber :=
  if 0 <=? e10
  then SpecFloat.binary_normalize prec emax
         ((if neg then -1 else 1) * (d * 10 ^ e10)) 0 neg
  else ofRatio neg d (10 ^ (- e10)).

(** The integer a number is, when it is one. *)
Definition integerValue (n : JsNumber) : option Z :=
  match n with
  | SpecFloat.S754_zero _ => Some 0
  | SpecFloat.S754_finite s m e =>
      let z := if s then Z.neg m else Z.pos m in
      if 0 <=? e then Some (z * 2 ^ e)
      else if Z.pos m mod 2 ^ (- e) =? 0 then Some (z / 2 ^ (- e))
      else None
  | _ => None
  end.

Definition isHexDigit (c : ascii) : bool :=
  let n := nat_of_ascii c in
  Js.isDigit c || ((65 <=? n)%nat && (n <=? 70)%nat)
               || ((97 <=? n)%nat && (n <=? 102)%nat).

Definition hexValue (c : ascii) : Z :=
  let n := Z.of_nat (nat_of_ascii c) in
  if Js.isDigit c then n - 48 else if n <? 97 then n - 55 else n - 87.

(** The value of a non-empty run of digits of [radix], [None] when a
    character is not such a digit. *)
Fixpoint radixFrom (radix acc : Z) (s : string) : option Z :=
  match s with
  | EmptyString => Some acc
  | String c s' =>
      if isHexDigit c && (hexValue c <? radix)
      then radixFrom radix (radix * acc + hexValue c) s'
      else None
  end.

Definition radixLiteral (radix : Z) (s : string) : option Z :=
  if Js.truthy s then radixFrom radix 0 s else None.

Fixpoint dropDigits (s : string) : string :=
  match s with
  | String c s' => if Js.isDigit c then dropDigits s' else s
  | EmptyString => EmptyString
  end.

(** [SignedInteger], to the end of the string. *)
Definition signedInteger (s : string) : option Z :=
  let '(neg, ds) :=
    match s with
    | String "+" r => (false, r)
    | String "-" r => (true, r)
    | _ => (false, s)
    end in
  if Js.truthy ds && Js.allDigits ds
  then Some (if neg then - Js.BigInt ds else Js.BigInt ds)
  else None.

(** [ExponentPart_opt], to the end of the string. *)
Definition exponentPart (s : string) : option Z :=
  match s with
  | EmptyString => Some 0
  | String "e" r | String "E" r => signedInteger r
  | _ => None
  end.

(** [StrUnsignedDecimalLiteral] other than [Infinity], with the sign that
    precedes it: [digits . digits_opt exp_opt], [. digits exp_opt] or
    [digits exp_opt]. Its mathematical value is the integer its digits
    spell, scaled by the power of ten of the exponent less the number of
    fraction digits; the result is the double nearest to it, whatever the
    number of digits (as V8 rounds). *)
Definition unsignedDecimal (neg : bool) (s : string) : option JsNumber :=
  let ip := takeDigits s in
  let r1 := dropDigits s in
  let '(fp, r2) :=
    match r1 with
    | String "." r => (takeDigits r, dropDigits r)
    | _ => (EmptyString, r1)
    end in
  if negb (Js.truthy ip) && negb (Js.truthy fp) then None
  else match exponentPart r2 with
       | None => None
       | Some e =>
           Some (ofDecimal neg (Js.BigInt (ip +:+ fp))
                   (e - Z.of_nat (String.length fp)))
       end.

(** The sign that may precede a decimal literal, and what follows it. *)
Definition sign (s : string) : bool * string :=
  if Js.startsWith s "+" then (false, Js.drop 1 s)
  else if Js.startsWith s "-" then (true, Js.drop 1 s)
  else (false, s).

Definition strDecimalLiteral (s : string) : JsNumber :=
  let '(neg, u) := sign s in
  if String.eqb u "Infinity" then Infinite neg
  else match unsignedDecimal neg u with
       | Some n => n
       | None => NaN
       end.

(** [StringToNumber(s)]: white space around the literal is dropped, the
    empty literal is zero, a string outside the grammar is [NaN]. *)
Definition StringToNumber (s : string) : JsNumber :=
  let t := Js.trim s in
  let int (o : option Z) :=
    match o with Some z => ofZ z | None => NaN end in
  let prefixed (p : string) := Js.startsWith t p in
  if negb (Js.truthy t) then ofZ 0
  else if prefixed "0x" || prefixed "0X" then int (radixLiteral 16 (Js.drop 2 t))
  else if prefixed "0o" || prefixed "0O" then int (radixLiteral 8 (Js.drop 2 t))
  else if prefixed "0b" || prefixed "0B" then int (radixLiteral 2 (Js.drop 2 t))
  else strDecimalLiteral t.

End Num.

(** The values the interval expression handles. *)
Inductive JsValue :=
  | VUndefined
  | VString (s : string)
  | VNumber (n : JsNumber).

Definition envValue (v : option string) : JsValue :=
  match v with Some s => VString s | None => VUndefined end.

Definition isTruthy (v : JsValue) : bool :=
  match v with
  | VUndefined => false
  | VString s => Js.truthy s
  | VNumber SpecFloat.S754_nan => false
  | VNumber (SpecFloat.S754_zero _) => false
  | VNumber _ => true
  end.

(** [a || b]. *)
Definition jsOr (a b : JsValue) : JsValue := if isTruthy a then a else b.

(** [Number(v)]. *)
Definition Number (v : JsValue) : JsNumber :=
  match v with
  | VUndefined => NaN
  | VString s => Num.StringToNumber s
  | VNumber n => n
  end.

(** The options object given to [startRssLoop]; a collaborator is [true]
    when it is given. *)
Record Opts := {
  client : bool;
  intervalMs : option JsNumber;
  hasGetGuildState : bool;
  hasNotifyGuild : bool;
}.

(** [startRssLoop(opts)], rss.js:242-249 and 274: the delay it hands to
    [setInterval], or the error it throws. *)
Definition startRssLoop (opts : Opts) : Outcome JsNumber :=
  let intervalMs := default (Num.ofZ 60000) (intervalMs opts) in
  if negb (client opts) then Threw "startRssLoop: opts.client is required"
  else if negb (hasGetGuildState opts)
       then Threw "startRssLoop: opts.getGuildState is required"
  else if negb (hasNotifyGuild opts)
       then Threw "startRssLoop: opts.notifyGuild is required"
  else Returned intervalMs.

(** The [clientReady] handler of index.js:545-554, by the value of
    [process.env.RSS_INTERVAL_MS]. *)
Definition clientReady (RSS_INTERVAL_MS : option string) : Outcome JsNumber :=
  startRssLoop
    {| client := true;
       intervalMs := Some (Number (jsOr (envValue RSS_INTERVAL_MS)
                                        (VNumber (Num.ofZ 60000))));
       hasGetGuildState := true;
       hasNotifyGuild := true |}.

(** ** Notions used to state the properties *)

(** [p] does not occur in [s]. *)
Definition Absent (p s : string) : Prop :=
  forall pre rest, s <> pre +:+ p +:+ rest.

(** [s] is [pre], then its first occurrence of [p], then [rest]. *)
Definition FirstOcc (p s pre rest : string) : Prop :=
  s = pre +:+ p +:+ rest /\
  forall pre' rest', s = pre' +:+ p +:+ rest' ->
    (String.length pre <= String.length pre')%nat.

(** An item with the given title. *)
Definition titled (t : string) : Item :=
  {| link := None; title := Some t; isoDate := None; pubDate := None |}.

(** An item with the given link. *)
Definition linked (l : string) : Item :=
  {| link := Some l; title := None; isoDate := None; pubDate := None |}.

(** The identifier of an item, when its link yields one. *)
Definition idOf (it : Item) : option string := extractTweetIdFromLink (link it).

(** An item paired with its identifier, when it has one. *)
Definition withId (it : Item) : option (Item * string) :=
  match idOf it with
  | Some i => Some (it, i)
  | None => None
  end.

(** Keeping the first element of greatest key: the shape shared by the loop
    of [pickLatestByStatusId] and the variable [best] of [pollOnce]. *)
Definition keep {A} (key : A -> Z) (best : option A) (x : A) : option A :=
  match best with
  | None => Some x
  | Some b => if key x >? key b then Some x else best
  end.

Definition world0 : World :=
  {| g_lastSeenTweetIdByUser := ∅; trace := [] |}.

(** The world with further events. *)
Definition extend (w : World) (tr : list Event) : World :=
  {| g_lastSeenTweetIdByUser := g_lastSeenTweetIdByUser w;
     trace := trace w ++ tr |}.

(** The world with another seen-state. *)
Definition withSeen (w : World) (seen : gmap string (option string)) : World :=
  {| g_lastSeenTweetIdByUser := seen; trace := trace w |}.

(** What [fetchLatestTweet] resolves to in [E]. *)
Definition fetched (E : Env) (u : string) : Outcome (option Latest.t) :=
  fst (fetchLatestTweet E u world0).

(** What [translateToEnglish] resolves to in [E]. *)
Definition translated (E : Env) (text : string) : Outcome string :=
  fst (translateToEnglish E text world0).

(** The latest item of [u] when it passes the gates of rss.js:206-209
    against the seen-state [seen]: fetched, with text, and new. *)
Definition candidate (E : Env) (seen : gmap string (option string)) (u : string)
  : option Latest.t :=
  match fetched E u with
  | Returned (Some l) =>
      if Js.truthy (Latest.originalText l) && isNew seen u (Latest.id l)
      then Some l else None
  | _ => None
  end.

Definition record (seen : gmap string (option string)) (u : string)
    (c : option Latest.t) : gmap string (option string) :=
  match c with
  | Some l => <[u := Some (Latest.id l)]> seen
  | None => seen
  end.

(** The seen-state after the loop of [pollOnce] over [us]. *)
Fixpoint pollSeen (E : Env) (us : list string) (seen : gmap string (option string))
  : gmap string (option string) :=
  match us with
  | [] => seen
  | u :: us' => pollSeen E us' (record seen u (candidate E seen u))
  end.

(** The items that pass the gates during the loop of [pollOnce], in order. *)
Fixpoint pollNew (E : Env) (us : list string) (seen : gmap string (option string))
  : list Latest.t :=
  match us with
  | [] => []
  | u :: us' =>
      let c := candidate E seen u in
      match c with
      | Some l => l :: pollNew E us' (record seen u c)
      | None => pollNew E us' seen
      end
  end.

(** The events [translateToEnglish] adds in [E]. *)
Definition translateEvents (E : Env) (text : string) : list Event :=
  trace (snd (translateToEnglish E text world0)).

(** The text [translateToEnglish] resolves to in [E]. *)
Definition english (E : Env) (text : string) : string :=
  match translated E text with
  | Returned s => s
  | Threw _ => text
  end.

(** The events of one iteration of the loop of [pollOnce]. *)
Definition fetchEvents (E : Env) (u : string) : list Event :=
  [Log ("[RSS] fetching @" +:+ u +:+ " url=" +:+ buildNitterRssUrl E u);
   ParseURL (buildNitterRssUrl E u)]
  ++ match fetched E u with
     | Threw _ => [Error ("[RSS] fetchLatestTweet failed for @" +:+ u +:+ ":")]
     | Returned _ => []
     end.

Definition toTweet (l : Latest.t) (englishText : string) : Tweet.t :=
  {| Tweet.username := Latest.username l;
     Tweet.id := Latest.id l;
     Tweet.url := Latest.url l;
     Tweet.originalText := Latest.originalText l;
     Tweet.englishText := englishText;
     Tweet.publishedAt := Latest.publishedAt l |}.

(** The tenants of the snapshot whose list contains [u], in map order. *)
Definition subscribers (gm : list (string * list string)) (u : string)
  : list string :=
  (filter (fun e => includes (snd e) u = true) gm).*1.

(** The tenants among [gs] that are reached: all up to and including the
    first whose delivery throws. *)
Fixpoint reached (E : Env) (tweet : Tweet.t) (gs : list string) : list string :=
  match gs with
  | [] => []
  | g :: gs' =>
      g :: match notifyGuild E g tweet with
           | Returned _ => reached E tweet gs'
           | Threw _ => []
           end
  end.

(** How the fan-out over the tenants [gs] ends: normally, or with the first
    error a delivery throws. *)
Fixpoint fanOutcome (E : Env) (tweet : Tweet.t) (gs : list string) : Outcome unit :=
  match gs with
  | [] => Returned ()
  | g :: gs' =>
      match notifyGuild E g tweet with
      | Returned _ => fanOutcome E tweet gs'
      | Threw e => Threw e
      end
  end.

(** The item the loop of [pollOnce] ends with in [best]. *)
Definition selected (E : Env) (us : list string) (seen : gmap string (option string))
  : option Latest.t :=
  fold_left better (pollNew E us seen) None.

(** The notification [pollOnce] builds from the selected item. *)
Definition notified (E : Env) (b : Latest.t) : Tweet.t :=
  toTweet b (english E (Latest.originalText b)).

(** The events of one iteration of the loop of [primeLastSeen]. *)
Definition primeEvents (E : Env) (u : string) : list Event :=
  [Log ("[RSS] fetching @" +:+ u +:+ " url=" +:+ buildNitterRssUrl E u);
   ParseURL (buildNitterRssUrl E u)]
  ++ match fetched E u with
     | Threw _ => [Error ("[RSS] prime failed for @" +:+ u +:+ ":")]
     | Returned _ => []
     end.

(** The events of a tick whose snapshot is [gs], from the seen-state [seen]. *)
Definition tickEvents (E : Env) (gs : GuildState) (seen : gmap string (option string))
  : list Event :=
  concat (map (fetchEvents E) (allUsernames gs))
  ++ match selected E (allUsernames gs) seen with
     | None => []
     | Some b =>
         let tweet := notified E b in
         let tenants := subscribers (guildMap gs) (Latest.username b) in
         translateEvents E (Latest.originalText b)
         ++ map (fun g => NotifyGuild g tweet) (reached E tweet tenants)
         ++ match fanOutcome E tweet tenants with
            | Returned _ => []
            | Threw _ => [Error "[RSS] polling tick failed:"]
            end
     end.

(** The calls of the delivery callback in a trace. *)
Definition notifications (tr : list Event) : list (string * Tweet.t) :=
  omap (fun e => match e with
                 | NotifyGuild g t => Some (g, t)
                 | _ => None
                 end) tr.

(** The texts sent to the translation provider in a trace. *)
Definition providerCalls (tr : list Event) : list string :=
  omap (fun e => match e with
                 | TranslateText t => Some t
                 | _ => None
                 end) tr.

(** The feed addresses requested in a trace. *)
Definition requests (tr : list Event) : list string :=
  omap (fun e => match e with
                 | ParseURL u => Some u
                 | _ => None
                 end) tr.

(** The environment [E] with another snapshot of the subscriptions. *)
Definition withSnapshot (E : Env) (gs : GuildState) : Env :=
  {| NITTER_BASE := NITTER_BASE E;
     encodeURIComponent := encodeURIComponent E;
     parseURL := parseURL E;
     dateTime := dateTime E;
     deeplTranslator := deeplTranslator E;
     getGuildState := Returned gs;
     notifyGuild := notifyGuild E |}.

(** The snapshot [gs] without the identity [u] among the identities polled. *)
Definition without (u : string) (gs : GuildState) : GuildState :=
  {| guildMap := guildMap gs;
     allUsernames := filter (fun x => x <> u) (allUsernames gs) |}.

(** The seen-state after [primeLastSeen] over [us]. *)
Fixpoint primeSeen (E : Env) (us : list string) (seen : gmap string (option string))
  : gmap string (option string) :=
  match us with
  | [] => seen
  | u :: us' =>
      primeSeen E us'
        (<[u := match fetched E u with
                | Returned latest => Latest.id <$> latest
                | Threw _ => None
                end]> seen)
  end.

(** ** Scenarios

    Concrete environments on which the functions are run: a Nitter
    instance at [https://nitter.example], feeds given per username, and a
    delivery callback that throws for the tenants listed in [failing]. *)

Module Scenario.

Definition feedUrl (u : string) : string :=
  "https://nitter.example/" +:+ u +:+ "/rss".

(** A feed item as Nitter renders it. *)
Definition post (user id text : string) : Item :=
  {| link := Some ("https://nitter.example/" +:+ user +:+ "/status/" +:+ id +:+ "#m");
     title := Some ("Name (@" +:+ user +:+ "): " +:+ text);
     isoDate := None;
     pubDate := None |}.

Fixpoint answer (feeds : list (string * Outcome (option (list Item)))) (url : string)
  : Outcome (option (list Item)) :=
  match feeds with
  | [] => Threw "Status code 404"
  | (u, o) :: feeds' => if String.eqb url (feedUrl u) then o else answer feeds' url
  end.

Definition env (feeds : list (string * Outcome (option (list Item))))
    (translator : option (string -> Outcome (option string)))
    (guilds : Outcome GuildState) (failing : list string) : Env :=
  {| NITTER_BASE := Some "https://nitter.example/";
     encodeURIComponent := fun s => s;
     parseURL := answer feeds;
     dateTime := fun _ => None;
     deeplTranslator := translator;
     getGuildState := guilds;
     notifyGuild := fun g _ =>
       if bool_decide (g ∈ failing) then Threw "Missing Access" else Returned () |}.

Definition feed (user id text : string) : string * Outcome (option (list Item)) :=
  (user, Returned (Some [post user id text])).

Definition started (seen : list (string * option string)) : World :=
  {| g_lastSeenTweetIdByUser := list_to_map seen; trace := [] |}.

(** Two tenants that both follow [A]; [B] is followed by the second only. *)
Definition guilds : GuildState :=
  {| guildMap := [("g1", ["A"]); ("g2", ["A"; "B"])];
     allUsernames := ["A"; "B"] |}.

(** The cross-identity scenario of the specification: [A] has item 5
    (3 recorded), [B] has item 10 (1 recorded). *)
Definition crossFeeds := [feed "A" "5" "five"; feed "B" "10" "ten"].
Definition crossSeen := [("A", Some "3"); ("B", Some "1")].
Definition crossEnv : Env := env crossFeeds None (Returned guilds) [].

(** At start-up the feed of [A] holds items 10 and 5; at the next tick it
    holds item 5 only (item 10 is gone). *)
Definition primeEnv : Env :=
  env [("A", Returned (Some [post "A" "10" "ten"; post "A" "5" "five"]))]
      None (Returned guilds) [].
Definition laterEnv : Env := env [feed "A" "5" "five"] None (Returned guilds) [].


(** The feed of [A] cannot be fetched; [B] and [C] have items. *)
Definition outageFeeds :=
  [("A", Threw "ECONNRESET"); feed "B" "10" "ten"; feed "C" "7" "seven"].
Definition outageEnv : Env :=
  env outageFeeds None
    (Returned {| guildMap := [("g1", ["A"; "B"; "C"])];
                 allUsernames := ["A"; "B"; "C"] |}) [].

(** A provider whose result carries no text. *)
Definition muteEnv : Env :=
  env [] (Some (fun _ => Returned None)) (Returned guilds) [].

End Scenario.

(** ** The store ([db.js])

    The two tables with their keys: [guild_config], keyed by [guild_id],
    and [tracked_account], whose rows are pairs [(guild_id, username)] and
    refer to [guild_config] with [ON DELETE CASCADE]; foreign keys are
    enforced ([foreign_keys = ON]). A statement that fails throws and
    leaves the tables as they were. *)

Module Db.

(** A row of [guild_config], without its key. *)
Record Config := {
  post_channel_id : string;
  ping_role : string;
}.

Record t := {
  guild_config : gmap string Config;
  tracked_account : gset (string * string);
}.

Definition empty : t := {| guild_config := ∅; tracked_account := ∅ |}.

(** [setGuildNewsChannel(guildId, channelId)], db.js:51-59: an upsert;
    a new row takes the default [ping_role], ['everyone']. *)
Definition setGuildNewsChannel (guildId channelId : string) (db : t) : t :=
  let row :=
    match guild_config db !! guildId with
    | Some old => {| post_channel_id := channelId; ping_role := ping_role old |}
    | None => {| post_channel_id := channelId; ping_role := "everyone" |}
    end in
  {| guild_config := <[guildId := row]> (guild_config db);
     tracked_account := tracked_account db |}.

(** [setGuildPingRole(guildId, pingRole)], db.js:69-77: an upsert; a new
    row has the empty string for [post_channel_id]. *)
Definition setGuildPingRole (guildId pingRole : string) (db : t) : t :=
  let row :=
    match guild_config db !! guildId with
    | Some old => {| post_channel_id := post_channel_id old; ping_role := pingRole |}
    | None => {| post_channel_id := ""; ping_role := pingRole |}
    end in
  {| guild_config := <[guildId := row]> (guild_config db);
     tracked_account := tracked_account db |}.

(** [addTrackedAccount(guildId, username)], db.js:91-98. [INSERT OR IGNORE]
    skips a row whose key is taken ([changes] is 0); the clause does not
    cover the foreign key: a row for a guild without configuration fails. *)
Definition addTrackedAccount (guildId username : string) (db : t)
  : Outcome (bool * t) :=
  if bool_decide ((guildId, username) ∈ tracked_account db)
  then Returned (false, db)
  else match guild_config db !! guildId with
       | None => Threw "FOREIGN KEY constraint failed"
       | Some _ =>
           Returned (true,
                     {| guild_config := guild_config db;
                        tracked_account := {[(guildId, username)]} ∪ tracked_account db |})
       end.

(** [removeTrackedAccount(guildId, username)], db.js:108-115. *)
Definition removeTrackedAccount (guildId username : string) (db : t) : bool * t :=
  if bool_decide ((guildId, username) ∈ tracked_account db)
  then (true,
        {| guild_config := guild_config db;
           tracked_account := tracked_account db ∖ {[(guildId, username)]} |})
  else (false, db).

(** Comparison of two strings code unit by code unit on the weight [key]
    of each, a proper prefix coming first. *)
Fixpoint lexLeb (key : ascii -> nat) (a b : string) : bool :=
  match a, b with
  | EmptyString, _ => true
  | String _ _, EmptyString => false
  | String x a', String y b' =>
      if (key x <? key y)%nat then true
      else if (key x =? key y)%nat then lexLeb key a' b'
      else false
  end.

(** The order of [COLLATE NOCASE]: the 26 upper-case ASCII letters weigh
    as their lower-case ones. *)
Definition nocaseLeb : string -> string -> bool :=
  lexLeb (fun c => nat_of_ascii (lower c)).

(** The order of the [BINARY] collation, that of the primary-key index. *)
Definition binaryLeb : string -> string -> bool := lexLeb nat_of_ascii.

(** The order in which the rows of [listTrackedAccounts] come: that of
    [COLLATE NOCASE]; names that it does not tell apart keep the order in
    which the scan of the primary-key index delivers them to the sort, the
    binary one. *)
Definition rowLeb (a b : string) : bool :=
  if nocaseLeb a b then (if nocaseLeb b a then binaryLeb a b else true)
  else false.

Definition rowLe (a b : string) : Prop := rowLeb a b = true.

#[export] Instance rowLe_dec (a b : string) : Decision (rowLe a b).
Proof. unfold rowLe. apply _. Defined.

(** [listTrackedAccounts(guildId)], db.js:124-131. *)
Definition listTrackedAccounts (guildId : string) (db : t) : list string :=
  merge_sort rowLe
    (snd <$> filter (fun r => fst r = guildId) (elements (tracked_account db))).

(** [getGuildConfig(guildId)], db.js:141-144: the row, [None] for
    [undefined]. *)
Definition getGuildConfig (guildId : string) (db : t) : option Config :=
  guild_config db !! guildId.

(** [getGuildNewsChannel(guildId)], db.js:152-155. *)
Definition getGuildNewsChannel (guildId : string) (db : t) : option string :=
  match getGuildConfig guildId db with
  | Some row => Some (post_channel_id row)
  | None => None
  end.

(** [getGuildPingRole(guildId)], db.js:163-166. *)
Definition getGuildPingRole (guildId : string) (db : t) : option string :=
  match getGuildConfig guildId db with
  | Some row => Some (ping_role row)
  | None => None
  end.

(** [deleteGuildData(guildId)], db.js:173-179. The rows of
    [tracked_account] go with the configuration row they refer to; [changes]
    counts the row deleted directly. *)
Definition deleteGuildData (guildId : string) (db : t) : Z * t :=
  match guild_config db !! guildId with
  | Some _ =>
      (0 + 1,
       {| guild_config := delete guildId (guild_config db);
          tracked_account :=
            filter (fun r => fst r <> guildId) (tracked_account db) |})
  | None => (0 + 0, db)
  end.

(** Every tracked row refers to a configured guild: what the foreign key
    enforces. *)
Definition consistent (db : t) : Prop :=
  forall g u, (g, u) ∈ tracked_account db -> is_Some (guild_config db !! g).

End Db.

(** ** The wiring of [index.js] *)

Module Index.

(** The field values and description of the embed [notifyGuild] sends; its
    constant parts (colour, title, field names, disclaimer) are left out. *)
Record Embed := {
  description : string;
  originalValue : string;
  translatedValue : string;
}.

(** What is given to [channel.send]: [{ content }] or [{ embeds: [embed] }]. *)
Inductive Message :=
  | Content (content : string)
  | Embeds (embed : Embed).

Record Channel := {
  isTextBased : bool;
  send : Message -> Outcome unit;
}.

(** The Discord client, as far as [index.js] uses it: [guilds.fetch()]
    resolves to the guild references, each given by what its own [fetch()]
    resolves to (the [id] of the guild); [channels.fetch(id)] resolves to a
    channel or to [null]. *)
Record Client := {
  guildsFetch : Outcome (list (Outcome string));
  channelsFetch : string -> Outcome (option Channel);
}.

(** [guildMap.set(k, v)], on the entries in insertion order. *)
Fixpoint mapSet (k : string) (v : list string) (m : list (string * list string))
  : list (string * list string) :=
  match m with
  | [] => [(k, v)]
  | (k', v') :: m' =>
      if String.eqb k' k then (k, v) :: m' else (k', v') :: mapSet k v m'
  end.

(** [all.add(u)], on the elements in insertion order. *)
Definition setAdd (all : list string) (u : string) : list string :=
  if bool_decide (u ∈ all) then all else all ++ [u].

(** The loop of [getGuildState], index.js:480-490, over the remaining
    guild references. *)
Fixpoint getGuildStateLoop (refs : list (Outcome string)) (db : Db.t)
    (guildMap : list (string * list string)) (all : list string)
  : Outcome GuildState :=
  match refs with
  | [] => Returned {| guildMap := guildMap; allUsernames := all |}
  | guildRef :: refs' =>
      match guildRef with
      | Threw e => Threw e
      | Returned guildId =>
          let accounts := Db.listTrackedAccounts guildId db in
          getGuildStateLoop refs' db (mapSet guildId accounts guildMap)
            (fold_left setAdd accounts all)
      end
  end.

(** [getGuildState()], index.js:475-496. *)
Definition getGuildState (client : Client) (db : Db.t) : Outcome GuildState :=
  match guildsFetch client with
  | Threw e => Threw e
  | Returned guilds => getGuildStateLoop guilds db [] []
  end.

(** [formatPing(pingRole)], index.js:498-502. *)
Definition formatPing (pingRole : option string) : string :=
  match pingRole with
  | None => ""
  | Some r =>
      if negb (Js.truthy r) then ""
      else if String.eqb r "everyone" then "@everyone"
      else "<@&" +:+ r +:+ ">"
  end.

(** One [await channel.send(m)]: its outcome and the message given. *)
Definition send1 (channel : Channel) (m : Message) : Outcome unit * list Message :=
  (send channel m, [m]).

(** Sequencing of statements that send: the second runs when the first
    returned. *)
Definition andThen (first second : Outcome unit * list Message)
  : Outcome unit * list Message :=
  match first with
  | (Returned _, sent) => (fst second, sent ++ snd second)
  | (Threw e, sent) => (Threw e, sent)
  end.

Definition skip : Outcome unit * list Message := (Returned (), []).

(** [notifyGuild(guildId, tweet)], index.js:504-543: its outcome and the
    messages given to [channel.send], in order. *)
Definition notifyGuild (client : Client) (db : Db.t) (guildId : string)
    (tweet : Tweet.t) : Outcome unit * list Message :=
  match Db.getGuildNewsChannel guildId db with
  | None => skip
  | Some channelId =>
      if negb (Js.truthy channelId) then skip
      else
        let channel :=
          match channelsFetch client channelId with
          | Returned c => c
          | Threw _ => None
          end in
        match channel with
        | None => skip
        | Some channel =>
            if negb (isTextBased channel) then skip
            else
              let pingRole := Db.getGuildPingRole guildId db in
              let ping := formatPing pingRole in
              let embed :=
                {| description := "@" +:+ Tweet.username tweet +:+ " posted!";
                   originalValue :=
                     if Js.truthy (Tweet.originalText tweet)
                     then Tweet.originalText tweet else "(empty)";
                   translatedValue :=
                     if Js.truthy (Tweet.englishText tweet)
                     then Tweet.englishText tweet else "(empty)" |} in
              andThen (if Js.truthy ping then send1 channel (Content ping) else skip)
                (andThen (send1 channel (Embeds embed))
                   (if Js.truthy (Tweet.url tweet)
                    then send1 channel (Content (Tweet.url tweet)) else skip))
        end
  end.

End Index.

(** The environment of the loop as [index.js] sets it up: the two
    collaborators given to [startRssLoop] are [getGuildState] and
    [notifyGuild] over the client and the store. *)
Definition wired (E : Env) (client : Index.Client) (db : Db.t) : Env :=
  {| NITTER_BASE := NITTER_BASE E;
     encodeURIComponent := encodeURIComponent E;
     parseURL := parseURL E;
     dateTime := dateTime E;
     deeplTranslator := deeplTranslator E;
     getGuildState := Index.getGuildState client db;
     notifyGuild := fun g tweet => fst (Index.notifyGuild client db g tweet) |}.

(** ** The slash commands ([commands.js]) *)

Module Commands.

(** [normalizeUsername(username)], commands.js:25-28. *)
Definition normalizeUsername (username : string) : string :=
  let trimmed := Js.trim username in
  if Js.startsWith trimmed "@" then Js.slice trimmed 1 else trimmed.

(** [roleToPingRole(interaction, role)], commands.js:37-40, by the
    identifiers of the guild and of the role. *)
Definition roleToPingRole (guildId roleId : string) : string :=
  if String.eqb roleId guildId then "everyone" else roleId.

(** [formatPingRole(pingRole)], commands.js:48-51. *)
Definition formatPingRole (pingRole : string) : string :=
  if String.eqb pingRole "everyone" then "@everyone"
  else "<@&" +:+ pingRole +:+ ">".

(** A command interaction, as far as the handlers read it. The options are
    required ones, so they are present; [channelMention] is what the
    channel prints as in a template string; [reply] is the outcome of
    [interaction.reply] for a content. *)
Record Interaction := {
  inGuild : bool;
  guildId : string;
  channelId : string;
  channelIsTextBased : bool;
  channelMention : string;
  roleId : string;
  usernameOption : string;
  reply : string -> Outcome unit;
}.

(** What a handler did: how it ended, the store it left, the contents it
    replied with. *)
Record Handled := {
  outcome : Outcome unit;
  store : Db.t;
  replies : list string;
}.

(** [await interaction.reply({ content, ephemeral: true })] as the last
    statement of a handler. *)
Definition replyWith (i : Interaction) (content : string) (db : Db.t) : Handled :=
  {| outcome := reply i content; store := db; replies := [content] |}.

(** [handleSetup(interaction)], commands.js:155-186. *)
Definition handleSetup (i : Interaction) (db : Db.t) : Handled :=
  if negb (inGuild i)
  then replyWith i "This command can only be used in a server." db
  else if negb (channelIsTextBased i)
  then replyWith i "That channel is not text-based." db
  else
    let pingRole := roleToPingRole (guildId i) (roleId i) in
    let db1 := Db.setGuildNewsChannel (guildId i) (channelId i) db in
    let db2 := Db.setGuildPingRole (guildId i) pingRole db1 in
    match Db.addTrackedAccount (guildId i) "shu1aso" db2 with
    | Threw e => {| outcome := Threw e; store := db2; replies := [] |}
    | Returned (_, db3) =>
        replyWith i ("Configured news channel to " +:+ channelMention i
                     +:+ " and ping target to " +:+ formatPingRole pingRole +:+ ".") db3
    end.

(** [handleSetChannel(interaction)], commands.js:195-221. *)
Definition handleSetChannel (i : Interaction) (db : Db.t) : Handled :=
  if negb (inGuild i)
  then replyWith i "This command can only be used in a server." db
  else if negb (channelIsTextBased i)
  then replyWith i "That channel is not text-based." db
  else
    replyWith i ("News channel updated to " +:+ channelMention i +:+ ".")
      (Db.setGuildNewsChannel (guildId i) (channelId i) db).

(** [handleSetPingRole(interaction)], commands.js:230-249. *)
Definition handleSetPingRole (i : Interaction) (db : Db.t) : Handled :=
  if negb (inGuild i)
  then replyWith i "This command can only be used in a server." db
  else
    let pingRole := roleToPingRole (guildId i) (roleId i) in
    replyWith i ("Ping target updated to " +:+ formatPingRole pingRole +:+ ".")
      (Db.setGuildPingRole (guildId i) pingRole db).

(** [handleAddAccount(interaction)], commands.js:258-285. *)
Definition handleAddAccount (i : Interaction) (db : Db.t) : Handled :=
  if negb (inGuild i)
  then replyWith i "This command can only be used in a server." db
  else
    let username := normalizeUsername (usernameOption i) in
    match Db.addTrackedAccount (guildId i) username db with
    | Threw e => {| outcome := Threw e; store := db; replies := [] |}
    | Returned (inserted, db') =>
        if negb inserted
        then replyWith i "Error: That account is already being tracked." db'
        else replyWith i ("Added account `" +:+ username +:+ "` to the tracked list.") db'
    end.

(** [handleRemoveAccount(interaction)], commands.js:294-321. *)
Definition handleRemoveAccount (i : Interaction) (db : Db.t) : Handled :=
  if negb (inGuild i)
  then replyWith i "This command can only be used in a server." db
  else
    let username := normalizeUsername (usernameOption i) in
    let '(removed, db') := Db.removeTrackedAccount (guildId i) username db in
    if negb removed
    then replyWith i "Error: Account not found in database" db'
    else replyWith i ("Removed account `" +:+ username +:+ "` from the tracked list.") db'.

End Commands.

(** ** Leaving a guild ([guild_events.js]) *)

Module GuildEvents.

(** [onGuildLeave(guild)], guild_events.js:77-87, by the name and the [id]
    of the guild: the lines logged and the store left. The statements of
    the [try] block do not throw. *)
Definition onGuildLeave (name id : string) (db : Db.t) : list Event * Db.t :=
  let '(_, db') := Db.deleteGuildData id db in
  ([Log ("Removed from guild: " +:+ name +:+ " (" +:+ id +:+ "). Purging DB data...");
    Log ("DB purge complete for guild " +:+ name +:+ ".")],
   db').

End GuildEvents.

(** ** Further scenarios *)

Module Wiring.

(** Tenant [g1] posts to channel [c1] and pings everyone; tenant [g2] posts
    to [c2] and pings role [r2]. [g1] tracks [A]; [g2] tracks [A] and [B]. *)
Definition store : Db.t :=
  {| Db.guild_config :=
       {[ "g1" := {| Db.post_channel_id := "c1"; Db.ping_role := "everyone" |};
          "g2" := {| Db.post_channel_id := "c2"; Db.ping_role := "r2" |} ]};
     Db.tracked_account := {[ ("g1", "A"); ("g2", "A"); ("g2", "B") ]} |}.

(** A text channel whose sends succeed. *)
Definition textChannel : Index.Channel :=
  {| Index.isTextBased := true; Index.send := fun _ => Returned () |}.

(** A client in both guilds, every channel being such a text channel. *)
Definition client : Index.Client :=
  {| Index.guildsFetch := Returned [Returned "g1"; Returned "g2"];
     Index.channelsFetch := fun _ => Returned (Some textChannel) |}.

(** The loop of the cross-identity scenario, wired to this client and store. *)
Definition env : Env := wired Scenario.crossEnv client store.

(** A [/setup] in guild [g1]: channel [c1], the role whose id is the
    guild's (everyone). *)
Definition setup : Commands.Interaction :=
  {| Commands.inGuild := true;
     Commands.guildId := "g1";
     Commands.channelId := "c1";
     Commands.channelIsTextBased := true;
     Commands.channelMention := "<#c1>";
     Commands.roleId := "g1";
     Commands.usernameOption := " @jane ";
     Commands.reply := fun _ => Returned () |}.

(** A [/setup] in guild [g2]: channel [c5], the role [r7]. *)
Definition setupRole : Commands.Interaction :=
  {| Commands.inGuild := true;
     Commands.guildId := "g2";
     Commands.channelId := "c5";
     Commands.channelIsTextBased := true;
     Commands.channelMention := "<#c5>";
     Commands.roleId := "r7";
     Commands.usernameOption := "";
     Commands.reply := fun _ => Returned () |}.

(** Guild [g1] of that store after five names that differ by case only in
    part were added, in this order. *)
Definition cased : Db.t :=
  {| Db.guild_config := Db.guild_config store;
     Db.tracked_account :=
       {[ ("g1", "abc"); ("g1", "b"); ("g1", "ABC"); ("g1", "B"); ("g1", "Abc");
          ("g2", "a") ]} |}.

End Wiring.

(** ** Further notions *)

(** [k] slashes. *)
Fixpoint slashes (k : nat) : string :=
  match k with
  | O => EmptyString
  | S k' => String "/" (slashes k')
  end.

(** No character of [s] is a slash. *)
Fixpoint noSlash (s : string) : bool :=
  match s with
  | String c s' => negb (Ascii.eqb c "/") && noSlash s'
  | EmptyString => true
  end.

(** The match of [/\/status\/(\d+)/] anchored at the head of [s]: what
    [matchStatus] tries at each position. *)
Definition matchHere (s : string) : option string :=
  if Js.startsWith s "/status/"
  then match takeDigits (Js.drop 8 s) with
       | EmptyString => None
       | d => Some d
       end
  else None.

(** [s] does not begin with a digit. *)
Definition headNotDigit (s : string) : bool :=
  match s with
  | String c _ => negb (Js.isDigit c)
  | EmptyString => true
  end.

(** [l] has ["/status/"] followed by a digit after the prefix [pre]. *)
Definition StatusAt (l pre : string) : Prop :=
  exists c r, l = pre +:+ "/status/" +:+ String c r /\ Js.isDigit c = true.

(** What the loop of [getGuildState] keeps true of its two collections. *)
Definition snapshotInv (db : Db.t) (gm : list (string * list string)) (all : list string)
  : Prop :=
  NoDup all /\ NoDup gm.*1 /\
  (forall u, u ∈ all <-> exists g l, (g, l) ∈ gm /\ u ∈ l) /\
  (forall g l, (g, l) ∈ gm -> l = Db.listTrackedAccounts g db).

(** A run of sends on [ch] is as the channel answered: all sent when it
    returned, all but the last sent and the last failing when it threw. *)
Definition sendsWell (ch : Index.Channel) (r : Outcome unit * list Index.Message)
  : Prop :=
  match r with
  | (Returned _, sent) => forall m, m ∈ sent -> Index.send ch m = Returned ()
  | (Threw e, sent) =>
      exists sent' m, sent = sent' ++ [m] /\ Index.send ch m = Threw e /\
        forall m', m' ∈ sent' -> Index.send ch m' = Returned ()
  end.

(** A string with [f] applied to each of its code units. *)
Fixpoint mapChars (f : ascii -> ascii) (s : string) : string :=
  match s with
  | String c s' => String (f c) (mapChars f s')
  | EmptyString => EmptyString
  end.

(** A string with its upper-case ASCII letters made lower-case. *)
Definition foldCase (s : string) : string := mapChars lower s.

(** [x] comes before [y] in a listing by [COLLATE NOCASE]: so do their
    case-folded forms in the order of the code units, or these are equal
    and [x] itself comes before [y] in that order. *)
Definition before (x y : string) : Prop :=
  String.compare (foldCase x) (foldCase y) = Lt \/
  (String.compare (foldCase x) (foldCase y) = Eq /\ String.compare x y = Lt).

(* ================================================================= *)
(** * Properties *)

(** ** Strings *)

Section Strings.

Lemma append_nil_l (s : string) : "" +:+ s = s.
Proof. reflexivity. Qed.

Lemma append_cons (c : ascii) (s t : string) :
  String c s +:+ t = String c (s +:+ t).
Proof. reflexivity. Qed.

Ltac sapp := rewrite ?append_cons, ?append_nil_l in *.

Lemma append_nil_r (s : string) : s +:+ "" = s.
Proof. induction s as [|c s IH]; sapp; [reflexivity | now rewrite IH]. Qed.

Lemma append_assoc (a b c : string) : (a +:+ b) +:+ c = a +:+ b +:+ c.
Proof. induction a as [|x a IH]; sapp; [reflexivity | now rewrite IH]. Qed.

Lemma length_append (a b : string) :
  String.length (a +:+ b) = (String.length a + String.length b)%nat.
Proof. induction a as [|x a IH]; sapp; simpl; [reflexivity | now rewrite IH]. Qed.

Lemma startsWith_iff (s p : string) :
  Js.startsWith s p = true <-> exists r, s = p +:+ r.
Proof.
  revert s; induction p as [|a p IH]; intros s; simpl.
  - split; [intros _; now exists s | reflexivity].
  - destruct s as [|b s].
    + split; [discriminate | intros [r Hr]; discriminate].
    + destruct (Ascii.eqb_spec a b) as [->|Hab].
      * rewrite IH. split; intros [r Hr]; exists r; sapp; congruence.
      * split; [discriminate | intros [r Hr]; sapp; congruence].
Qed.

Lemma drop_append (a b : string) : Js.drop (String.length a) (a +:+ b) = b.
Proof. induction a as [|x a IH]; sapp; simpl; [now destruct b | exact IH]. Qed.

Lemma slice_append (a b : string) :
  Js.slice (a +:+ b) (Z.of_nat (String.length a)) = b.
Proof.
  unfold Js.slice. rewrite length_append.
  destruct (Z.ltb_spec (Z.of_nat (String.length a)) 0) as [H|H]; [lia|].
  rewrite Z.min_l by lia. rewrite Nat2Z.id. apply drop_append.
Qed.

Lemma indexOfFrom_range (p s : string) (i : Z) :
  Js.indexOfFrom p s i = -1 \/ i <= Js.indexOfFrom p s i.
Proof.
  revert i; induction s as [|c s IH]; intros i; simpl.
  - destruct (Js.startsWith "" p); [right; lia | now left].
  - destruct (Js.startsWith (String c s) p); [right; lia|].
    destruct (IH (i + 1)) as [H|H]; [now left | right; lia].
Qed.

Lemma indexOfFrom_first (p s pre rest : string) (i : Z) :
  FirstOcc p s pre rest ->
  Js.indexOfFrom p s i = i + Z.of_nat (String.length pre).
Proof.
  revert s i; induction pre as [|c pre IH]; intros s i [Hs Hmin].
  - sapp. assert (Hp : Js.startsWith s p = true)
      by (apply startsWith_iff; now exists rest).
    destruct s; simpl in *; rewrite Hp; lia.
  - sapp. subst s. cbn [Js.indexOfFrom].
    destruct (Js.startsWith (String c (pre +:+ p +:+ rest)) p) eqn:Hp.
    + apply startsWith_iff in Hp as [r Hr].
      specialize (Hmin "" r Hr). simpl in Hmin. lia.
    + rewrite IH.
      * cbn [String.length]. lia.
      * split; [reflexivity|]. intros pre' rest' Heq.
        specialize (Hmin (String c pre') rest'). sapp.
        rewrite Heq in Hmin. specialize (Hmin eq_refl). simpl in Hmin. lia.
Qed.

Lemma indexOfFrom_absent (p s : string) (i : Z) :
  Js.indexOfFrom p s i = -1 -> 0 <= i -> Absent p s.
Proof.
  revert i; induction s as [|c s IH]; intros i H Hi pre rest Heq.
  - simpl in H. destruct (Js.startsWith "" p) eqn:Hp; [lia|].
    destruct pre; [|discriminate]. sapp.
    assert (Js.startsWith "" p = true) by (apply startsWith_iff; now exists rest).
    congruence.
  - cbn [Js.indexOfFrom] in H.
    destruct (Js.startsWith (String c s) p) eqn:Hp; [lia|].
    destruct pre as [|c' pre].
    + assert (Js.startsWith (String c s) p = true)
        by (apply startsWith_iff; now exists rest).
      congruence.
    + sapp. injection Heq as -> Heq.
      exact (IH (i + 1) H ltac:(lia) pre rest Heq).
Qed.

Lemma absent_indexOfFrom (p s : string) (i : Z) :
  Absent p s -> Js.indexOfFrom p s i = -1.
Proof.
  revert i; induction s as [|c s IH]; intros i H.
  - simpl. destruct (Js.startsWith "" p) eqn:Hp; [|reflexivity].
    apply startsWith_iff in Hp as [r Hr]. now destruct (H "" r).
  - cbn [Js.indexOfFrom].
    destruct (Js.startsWith (String c s) p) eqn:Hp.
    + apply startsWith_iff in Hp as [r Hr]. now destruct (H "" r).
    + apply IH. intros pre rest Heq. apply (H (String c pre) rest).
      sapp. now rewrite Heq.
Qed.

Lemma indexOf_first (p s pre rest : string) :
  FirstOcc p s pre rest -> Js.indexOf s p = Z.of_nat (String.length pre).
Proof. intros H. unfold Js.indexOf. now rewrite (indexOfFrom_first _ _ _ _ _ H). Qed.

Lemma indexOf_absent (p s : string) : Js.indexOf s p = -1 <-> Absent p s.
Proof.
  split; [intros H; now apply (indexOfFrom_absent p s 0) | apply absent_indexOfFrom].
Qed.

End Strings.

(** ** Title extraction ([extractOriginalText]) *)

Section TitleExtraction.

Lemma first_occurrence_nonempty (p pre rest : string) :
  Js.truthy p = true -> ~ FirstOcc p "" pre rest.
Proof.
  intros Hp [H _]. apply (f_equal String.length) in H.
  rewrite !length_append in H. destruct p; [discriminate | simpl in H; lia].
Qed.

Lemma extractOriginalText_no_title (it : Item) :
  title it = None -> extractOriginalText it = "".
Proof. intros H. unfold extractOriginalText. now rewrite H. Qed.

(** C5, as the code has it: the separators are looked for in the title with
    the white space around it removed. The text after the first ["): "] is
    returned when there is one, else the text after the first [": "], in
    both cases with the white space around it removed; with neither
    separator the trimmed title is returned. The three scenarios of the
    specification follow. *)
Theorem extractOriginalText_strips_prefix
    (l : option string) (t : string) (d p : option string) :
  let item := {| link := l; title := Some t; isoDate := d; pubDate := p |} in
  let tt := Js.trim t in
  (forall pre rest, FirstOcc "): " tt pre rest ->
     extractOriginalText item = Js.trim rest) /\
  (Absent "): " tt -> forall pre rest, FirstOcc ": " tt pre rest ->
     extractOriginalText item = Js.trim rest) /\
  (Absent "): " tt -> Absent ": " tt -> extractOriginalText item = tt) /\
  extractOriginalText (titled "Jane (@jane): hello world") = "hello world" /\
  extractOriginalText (titled "Jane: hello world") = "hello world" /\
  extractOriginalText (titled "no delimiter present") = "no delimiter present".
Proof.
  intros item tt. unfold extractOriginalText. cbn [title item]. fold tt.
  repeat split; try reflexivity.
  - intros pre rest H. destruct tt as [|c tt'] eqn:Ett.
    + now destruct (first_occurrence_nonempty "): " pre rest).
    + cbn [Js.truthy negb]. rewrite (indexOf_first _ _ _ _ H).
      destruct (Z.eqb_spec (Z.of_nat (String.length pre)) (-1)) as [E|_]; [lia|].
      cbn [negb]. destruct H as [-> _].
      replace (Z.of_nat (String.length pre) + 3)
        with (Z.of_nat (String.length (pre +:+ "): "))) by (rewrite length_append; simpl; lia).
      rewrite <- append_assoc. now rewrite slice_append.
  - intros Habs pre rest H. destruct tt as [|c tt'] eqn:Ett.
    + now destruct (first_occurrence_nonempty ": " pre rest).
    + cbn [Js.truthy negb]. apply indexOf_absent in Habs. rewrite Habs.
      cbn [Z.eqb negb]. rewrite (indexOf_first _ _ _ _ H).
      destruct (Z.eqb_spec (Z.of_nat (String.length pre)) (-1)) as [E|_]; [lia|].
      cbn [negb]. destruct H as [-> _].
      replace (Z.of_nat (String.length pre) + 2)
        with (Z.of_nat (String.length (pre +:+ ": "))) by (rewrite length_append; simpl; lia).
      rewrite <- append_assoc. now rewrite slice_append.
  - intros Habs Habs2. destruct tt as [|c tt'] eqn:Ett; [reflexivity|].
    cbn [Js.truthy negb]. apply indexOf_absent in Habs, Habs2.
    now rewrite Habs, Habs2.
Qed.

(** C5 as stated fails: a title with neither separator is not always
    returned as it is; white space around it is removed. *)
Lemma extractOriginalText_raw_title_refuted :
  ~ (forall t : string, Absent "): " t -> Absent ": " t ->
       extractOriginalText (titled t) = t).
Proof.
  intros H. specialize (H " x").
  assert (E : extractOriginalText (titled " x") = "x") by reflexivity.
  rewrite E in H. discriminate H; now apply indexOf_absent.
Qed.

End TitleExtraction.

(** ** Selection of the latest item ([pickLatestByStatusId]) *)

Section Selection.

Lemma bigIntFrom_append (a b : string) (acc : Z) :
  Js.bigIntFrom acc (a +:+ b) = Js.bigIntFrom (Js.bigIntFrom acc a) b.
Proof.
  revert acc; induction a as [|c a IH]; intros acc; [reflexivity|].
  rewrite append_cons. simpl. apply IH.
Qed.

Lemma bigIntFrom_shift (b : string) (acc : Z) :
  Js.bigIntFrom acc b = acc * 10 ^ Z.of_nat (String.length b) + Js.BigInt b.
Proof.
  unfold Js.BigInt. revert acc; induction b as [|c b IH]; intros acc.
  - simpl. lia.
  - cbn [Js.bigIntFrom String.length]. rewrite IH, (IH (10 * 0 + _)).
    rewrite Nat2Z.inj_succ, Z.pow_succ_r by lia. lia.
Qed.

(** [BigInt] is positional and unbounded: no width at which it wraps. *)
Lemma BigInt_append (a b : string) :
  Js.BigInt (a +:+ b) = Js.BigInt a * 10 ^ Z.of_nat (String.length b) + Js.BigInt b.
Proof. unfold Js.BigInt at 1. rewrite bigIntFrom_append. apply bigIntFrom_shift. Qed.

Lemma takeDigits_allDigits (s : string) : Js.allDigits (takeDigits s) = true.
Proof.
  induction s as [|c s IH]; [reflexivity|]. simpl.
  destruct (Js.isDigit c) eqn:E; [simpl; now rewrite E | reflexivity].
Qed.

Lemma matchStatus_digits (s d : string) :
  matchStatus s = Some d -> Js.truthy d = true /\ Js.allDigits d = true.
Proof.
  induction s as [|c s IH]; cbn [matchStatus].
  - destruct (Js.startsWith "" "/status/"); [|discriminate].
    destruct (takeDigits (Js.drop 8 "")) eqn:E; [discriminate|].
    intros [= <-]. split; [reflexivity|]. rewrite <- E. apply takeDigits_allDigits.
  - destruct (Js.startsWith (String c s) "/status/"); [|exact IH].
    destruct (takeDigits (Js.drop 8 (String c s))) eqn:E; [exact IH|].
    intros [= <-]. split; [reflexivity|]. rewrite <- E. apply takeDigits_allDigits.
Qed.

(** An extracted identifier is a non-empty string of decimal digits. *)
Lemma idOf_digits (it : Item) (i : string) :
  idOf it = Some i -> Js.truthy i = true /\ Js.allDigits i = true.
Proof.
  unfold idOf, extractTweetIdFromLink. destruct (link it) as [l|]; [|discriminate].
  destruct (negb (Js.truthy l)); [discriminate | apply matchStatus_digits].
Qed.

Lemma fold_keep_from {A} (key : A -> Z) (xs : list A) (a : A) :
  exists b, fold_left (keep key) xs (Some a) = Some b /\
    key a <= key b /\
    (forall x, x ∈ xs -> key x <= key b) /\
    (b = a \/
     exists pre post, xs = pre ++ b :: post /\ key a < key b /\
       forall x, x ∈ pre -> key x < key b).
Proof.
  revert a; induction xs as [|x xs IH]; intros a.
  - exists a. split; [reflexivity|]. split; [lia|]. split; [|now left].
    intros x Hx. inversion Hx.
  - cbn [fold_left keep]. destruct (Z.gtb_spec (key x) (key a)) as [Hgt|Hle].
    + destruct (IH x) as (b & Hb & Hxb & Hall & Hor). exists b.
      split; [exact Hb|]. split; [lia|]. split.
      * intros y Hy. apply elem_of_cons in Hy as [->|Hy]; [exact Hxb | now apply Hall].
      * right. destruct Hor as [->|(pre & post & -> & Hlt & Hpre)].
        -- exists [], xs. split; [reflexivity|]. split; [lia|].
           intros y Hy. inversion Hy.
        -- exists (x :: pre), post. split; [reflexivity|]. split; [lia|].
           intros y Hy. apply elem_of_cons in Hy as [->|Hy]; [lia | now apply Hpre].
    + destruct (IH a) as (b & Hb & Hab & Hall & Hor). exists b.
      split; [exact Hb|]. split; [exact Hab|]. split.
      * intros y Hy. apply elem_of_cons in Hy as [->|Hy]; [lia | now apply Hall].
      * destruct Hor as [->|(pre & post & -> & Hlt & Hpre)]; [now left|].
        right. exists (x :: pre), post. split; [reflexivity|]. split; [exact Hlt|].
        intros y Hy. apply elem_of_cons in Hy as [->|Hy]; [lia | now apply Hpre].
Qed.

(** What keeping the first greatest element computes. *)
Lemma fold_keep_spec {A} (key : A -> Z) (xs : list A) :
  match fold_left (keep key) xs None with
  | None => xs = []
  | Some b =>
      exists pre post, xs = pre ++ b :: post /\
        (forall x, x ∈ pre -> key x < key b) /\
        (forall x, x ∈ post -> key x <= key b)
  end.
Proof.
  destruct xs as [|x xs]; [reflexivity|]. cbn [fold_left keep].
  destruct (fold_keep_from key xs x) as (b & -> & Hxb & Hall & Hor).
  destruct Hor as [->|(pre & post & -> & Hlt & Hpre)].
  - exists [], xs. split; [reflexivity|]. split; [|exact Hall].
    intros y Hy. inversion Hy.
  - exists (x :: pre), post. split; [reflexivity|]. split.
    + intros y Hy. apply elem_of_cons in Hy as [->|Hy]; [lia | now apply Hpre].
    + intros y Hy. apply Hall. apply elem_of_app. right. now apply elem_of_cons; right.
Qed.

Lemma omap_split {A B} (f : A -> option B) (l : list A) (pre' post' : list B) (y : B) :
  omap f l = pre' ++ y :: post' ->
  exists pre x post, l = pre ++ x :: post /\ f x = Some y /\
    omap f pre = pre' /\ omap f post = post'.
Proof.
  revert pre'; induction l as [|a l IH]; intros pre' H.
  - destruct pre'; discriminate.
  - simpl in H. destruct (f a) as [b|] eqn:Efa.
    + destruct pre' as [|b' pre']; simpl in H; injection H as Hb Hl; subst.
      * exists [], a, l. simpl. now rewrite Efa.
      * destruct (IH pre' Hl) as (pre & x & post & -> & Hx & <- & <-).
        exists (a :: pre), x, post. simpl. now rewrite Efa.
    + destruct (IH pre' H) as (pre & x & post & -> & Hx & <- & <-).
      exists (a :: pre), x, post. simpl. now rewrite Efa.
Qed.

Lemma pickStep_keep (best : option (Item * string)) (it : Item) :
  pickStep best it =
  match withId it with
  | Some p => keep (fun p => Js.BigInt (snd p)) best p
  | None => best
  end.
Proof.
  unfold pickStep, withId. fold (idOf it). destruct (idOf it) as [i|] eqn:E; [|reflexivity].
  destruct (idOf_digits _ _ E) as [-> _]. cbn [negb keep]. now destruct best as [[? ?]|].
Qed.

Lemma pickLatest_fold (items : list Item) (acc : option (Item * string)) :
  fold_left pickStep items acc =
  fold_left (keep (fun p => Js.BigInt (snd p))) (omap withId items) acc.
Proof.
  revert acc; induction items as [|it items IH]; intros acc; [reflexivity|].
  simpl. rewrite IH, pickStep_keep.
  now destruct (withId it).
Qed.

Lemma withId_Some (it x : Item) (i : string) :
  withId it = Some (x, i) <-> x = it /\ idOf it = Some i.
Proof.
  unfold withId. destruct (idOf it); split; try discriminate.
  - now intros [= -> ->].
  - now intros [-> [= ->]].
  - now intros [_ ?].
Qed.

(** The closing guard of the selector never fires: the loop ends with an
    item only together with a non-empty identifier. *)
Lemma pickLatest_loop (items : list Item) :
  pickLatestByStatusId items =
  fold_left (keep (fun p => Js.BigInt (snd p))) (omap withId items) None.
Proof.
  unfold pickLatestByStatusId. rewrite pickLatest_fold.
  pose proof (fold_keep_spec (fun p : Item * string => Js.BigInt (snd p))
                (omap withId items)) as Hspec.
  destruct (fold_left _ (omap withId items) None) as [[it i]|]; [|reflexivity].
  destruct Hspec as (pre & post & Hsplit & _).
  assert (Hin : (it, i) ∈ omap withId items)
    by (rewrite Hsplit; apply elem_of_app; right; apply elem_of_cons; now left).
  apply list_elem_of_omap in Hin as (x & _ & Hx). apply withId_Some in Hx as [-> Hx].
  now destruct (idOf_digits _ _ Hx) as [-> _].
Qed.

(** The item the selector returns, among the others of the list. *)
Lemma pickLatestByStatusId_Some (items : list Item) (it : Item) (i : string) :
  pickLatestByStatusId items = Some (it, i) ->
  exists pre post, items = pre ++ it :: post /\ idOf it = Some i /\
    (forall x j, x ∈ pre -> idOf x = Some j -> Js.BigInt j < Js.BigInt i) /\
    (forall x j, x ∈ post -> idOf x = Some j -> Js.BigInt j <= Js.BigInt i).
Proof.
  intros H. rewrite pickLatest_loop in H.
  pose proof (fold_keep_spec (fun p : Item * string => Js.BigInt (snd p))
                (omap withId items)) as Hspec.
  rewrite H in Hspec. destruct Hspec as (pre' & post' & Hsplit & Hpre & Hpost).
  destruct (omap_split _ _ _ _ _ Hsplit) as (pre & x & post & -> & Hx & <- & <-).
  apply withId_Some in Hx as [-> Hx]. exists pre, post.
  split; [reflexivity|]. split; [exact Hx|]. split.
  - intros y j Hy Hj. apply (Hpre (y, j)). apply list_elem_of_omap.
    exists y. split; [exact Hy | now apply withId_Some].
  - intros y j Hy Hj. apply (Hpost (y, j)). apply list_elem_of_omap.
    exists y. split; [exact Hy | now apply withId_Some].
Qed.

Lemma pickLatestByStatusId_None (items : list Item) :
  pickLatestByStatusId items = None <-> forall it, it ∈ items -> idOf it = None.
Proof.
  split.
  - intros H it Hit. rewrite pickLatest_loop in H.
    pose proof (fold_keep_spec (fun p : Item * string => Js.BigInt (snd p))
                  (omap withId items)) as Hspec.
    rewrite H in Hspec. destruct (idOf it) as [i|] eqn:E; [|reflexivity].
    assert (Hin : (it, i) ∈ omap withId items).
    { apply list_elem_of_omap. exists it. split; [exact Hit | now apply withId_Some]. }
    rewrite Hspec in Hin. inversion Hin.
  - intros H. destruct (pickLatestByStatusId items) as [[it i]|] eqn:E; [|reflexivity].
    destruct (pickLatestByStatusId_Some _ _ _ E) as (pre & post & -> & Hi & _).
    rewrite H in Hi; [discriminate|]. apply elem_of_app. right. apply elem_of_cons. now left.
Qed.

(** C4: the selector returns the first item among those whose identifier,
    read as a decimal integer of any size, is greatest; every item before it
    has a strictly smaller identifier, none after it a greater one; and it
    returns none exactly when no item has an identifier. Identifiers past
    64 bits compare by value. *)
Theorem pickLatestByStatusId_greatest (items : list Item) :
  (pickLatestByStatusId items = None <->
     forall it, it ∈ items -> idOf it = None) /\
  (forall it i, pickLatestByStatusId items = Some (it, i) ->
     exists pre post, items = pre ++ it :: post /\ idOf it = Some i /\
       (forall x j, x ∈ pre -> idOf x = Some j -> Js.BigInt j < Js.BigInt i) /\
       (forall x j, x ∈ post -> idOf x = Some j -> Js.BigInt j <= Js.BigInt i)) /\
  2 ^ 64 < Js.BigInt "99999999999999999999" < Js.BigInt "100000000000000000000" /\
  pickLatestByStatusId
    [linked "https://nitter.net/a/status/99999999999999999999#m";
     linked "https://nitter.net/a/status/100000000000000000000#m";
     linked "https://nitter.net/a/status/100000000000000000000?x"]
  = Some (linked "https://nitter.net/a/status/100000000000000000000#m",
          "100000000000000000000").
Proof.
  split; [apply pickLatestByStatusId_None|].
  split; [apply pickLatestByStatusId_Some|].
  split; [split; reflexivity | reflexivity].
Qed.

End Selection.

(** ** Running the effectful functions *)

Section Effects.

Lemma extend_nil (w : World) : extend w [] = w.
Proof. destruct w. unfold extend. simpl. now rewrite app_nil_r. Qed.

Lemma extend_extend (w : World) (a b : list Event) :
  extend (extend w a) b = extend w (a ++ b).
Proof. unfold extend. simpl. now rewrite app_assoc. Qed.

Ltac mrun :=
  cbv [mbind M_bind mret M_ret await tryCatch attempt emit log error
       setLastSeen getLastId]; cbn [fst snd g_lastSeenTweetIdByUser trace].

Lemma fetchLatestTweet_run (E : Env) (u : string) (w : World) :
  fetchLatestTweet E u w =
  (fetched E u,
   extend w [Log ("[RSS] fetching @" +:+ u +:+ " url=" +:+ buildNitterRssUrl E u);
             ParseURL (buildNitterRssUrl E u)]).
Proof.
  unfold fetched, fetchLatestTweet, extend, world0. mrun.
  rewrite <- app_assoc.
  destruct (parseURL E (buildNitterRssUrl E u)) as [feed|e]; [|reflexivity].
  destruct (length (default [] feed) =? 0)%nat; [reflexivity|].
  now destruct (pickLatestByStatusId (default [] feed)) as [[item i]|].
Qed.

(** What a successful fetch is made of. *)
Lemma fetched_Some (E : Env) (u : string) (l : Latest.t) :
  fetched E u = Returned (Some l) ->
  exists items item,
    parseURL E (buildNitterRssUrl E u) = Returned (Some items) /\
    pickLatestByStatusId items = Some (item, Latest.id l) /\
    Latest.username l = u /\
    Latest.url l = "https://x.com/" +:+ u +:+ "/status/" +:+ Latest.id l /\
    Latest.originalText l = extractOriginalText item.
Proof.
  unfold fetched, fetchLatestTweet, world0. mrun.
  destruct (parseURL E (buildNitterRssUrl E u)) as [[items|]|e];
    [|simpl; discriminate..].
  cbn [default from_option id]. remember (pickLatestByStatusId items) as picked eqn:Hp.
  destruct (length items =? 0)%nat; [simpl; discriminate|].
  destruct picked as [[item i]|]; simpl; [|discriminate].
  intros [= <-]. now exists items, item.
Qed.

(** The identifier of a fetched item is a non-empty string of digits: the
    [BigInt] of rss.js:213 is applied within its domain. *)
Lemma fetched_id_digits (E : Env) (u : string) (l : Latest.t) :
  fetched E u = Returned (Some l) ->
  Js.truthy (Latest.id l) = true /\ Js.allDigits (Latest.id l) = true.
Proof.
  intros H. destruct (fetched_Some _ _ _ H) as (items & item & _ & Hp & _).
  destruct (pickLatestByStatusId_Some _ _ _ Hp) as (_ & _ & _ & Hid & _).
  exact (idOf_digits _ _ Hid).
Qed.

Lemma fetched_id_truthy (E : Env) (u : string) (l : Latest.t) :
  fetched E u = Returned (Some l) -> Js.truthy (Latest.id l) = true.
Proof. intros H. exact (proj1 (fetched_id_digits _ _ _ H)). Qed.

Lemma translateToEnglish_run (E : Env) (text : string) (w : World) :
  translateToEnglish E text w =
  (Returned (english E text), extend w (translateEvents E text)).
Proof.
  unfold english, translated, translateEvents, translateToEnglish, extend, world0.
  destruct (negb (Js.truthy (Js.trim text))).
  { mrun. now rewrite app_nil_r; destruct w. }
  destruct (isBareUrl (Js.trim text)).
  { mrun. now rewrite app_nil_r; destruct w. }
  destruct (deeplTranslator E) as [f|]; mrun; [|reflexivity].
  destruct (f (Js.trim text)) as [r|e]; cbn [fst snd trace]; now rewrite <- ?app_assoc.
Qed.

Lemma pollBody_run (E : Env) (u : string) (best : option Latest.t) (w : World) :
  pollBody E u best w =
  (Returned (match candidate E (g_lastSeenTweetIdByUser w) u with
             | Some l => better best l
             | None => best
             end),
   extend (withSeen w (record (g_lastSeenTweetIdByUser w) u
                         (candidate E (g_lastSeenTweetIdByUser w) u)))
          (fetchEvents E u)).
Proof.
  unfold pollBody. unfold mbind at 1, M_bind at 1, attempt.
  rewrite fetchLatestTweet_run. unfold candidate, fetchEvents, isNew.
  destruct (fetched E u) as [[l|]|e]; mrun.
  - destruct (Js.truthy (Latest.originalText l)); cbn [negb andb]; mrun.
    + unfold extend, withSeen, record; cbn.
      destruct (bool_decide (Some (Latest.id l) = lastIdOf (g_lastSeenTweetIdByUser w) u));
        cbn; now rewrite ?app_nil_r.
    + unfold extend, withSeen, record; cbn; now rewrite ?app_nil_r.
  - unfold extend, withSeen, record; cbn; now rewrite ?app_nil_r.
  - unfold extend, withSeen, record; cbn. now rewrite <- app_assoc.
Qed.

Lemma forOf_pollBody_run (E : Env) (us : list string) (best : option Latest.t) (w : World) :
  forOf us (pollBody E) best w =
  (Returned (fold_left better (pollNew E us (g_lastSeenTweetIdByUser w)) best),
   extend (withSeen w (pollSeen E us (g_lastSeenTweetIdByUser w)))
          (concat (map (fetchEvents E) us))).
Proof.
  revert best w; induction us as [|u us IH]; intros best w.
  - cbn. unfold extend, withSeen. cbn. rewrite app_nil_r. now destruct w.
  - cbn [forOf]. unfold mbind at 1, M_bind at 1. rewrite pollBody_run, IH.
    cbn [pollNew pollSeen map concat g_lastSeenTweetIdByUser extend withSeen trace].
    destruct (candidate E (g_lastSeenTweetIdByUser w) u) as [l|];
      cbn [record fold_left]; unfold extend, withSeen; cbn; now rewrite <- app_assoc.
Qed.

Lemma pollOnce_run (E : Env) (us : list string) (w : World) :
  let w1 := extend (withSeen w (pollSeen E us (g_lastSeenTweetIdByUser w)))
                   (concat (map (fetchEvents E) us)) in
  pollOnce E us w =
  match fold_left better (pollNew E us (g_lastSeenTweetIdByUser w)) None with
  | None => (Returned None, w1)
  | Some b =>
      (Returned (Some (toTweet b (english E (Latest.originalText b)))),
       extend w1 (translateEvents E (Latest.originalText b)))
  end.
Proof.
  intros w1. unfold pollOnce. unfold mbind at 1, M_bind at 1.
  rewrite forOf_pollBody_run. fold w1.
  destruct (fold_left better _ None) as [b|]; [|reflexivity].
  unfold mbind, M_bind. now rewrite translateToEnglish_run.
Qed.

(** *** The gates against a seen-state that changes during the loop *)

Lemma lastIdOf_insert_ne (seen : gmap string (option string)) (u u0 : string)
    (v : option string) :
  u <> u0 -> lastIdOf (<[u0 := v]> seen) u = lastIdOf seen u.
Proof. intros H. unfold lastIdOf. now rewrite lookup_insert_ne. Qed.

Lemma lastIdOf_insert_eq (seen : gmap string (option string)) (u i : string) :
  Js.truthy i = true -> lastIdOf (<[u := Some i]> seen) u = Some i.
Proof. intros H. unfold lastIdOf. rewrite lookup_insert_eq. now rewrite H. Qed.

Lemma candidate_record_ne (E : Env) (seen : gmap string (option string))
    (u u0 : string) (c : option Latest.t) :
  u <> u0 -> candidate E (record seen u0 c) u = candidate E seen u.
Proof.
  intros H. destruct c as [l0|]; [|reflexivity]. unfold candidate, record, isNew.
  now rewrite lastIdOf_insert_ne.
Qed.

Lemma candidate_record_eq (E : Env) (seen : gmap string (option string))
    (u : string) (l : Latest.t) :
  candidate E seen u = Some l -> candidate E (record seen u (Some l)) u = None.
Proof.
  unfold candidate, record, isNew. destruct (fetched E u) as [[l'|]|e] eqn:Hf;
    try discriminate.
  destruct (Js.truthy (Latest.originalText l') && _); [|discriminate].
  intros [= ->]. rewrite lastIdOf_insert_eq by exact (fetched_id_truthy _ _ _ Hf).
  rewrite bool_decide_eq_true_2 by reflexivity. cbn. now rewrite andb_false_r.
Qed.

Lemma candidate_Some (E : Env) (seen : gmap string (option string))
    (u : string) (l : Latest.t) :
  candidate E seen u = Some l <->
  fetched E u = Returned (Some l) /\
  Js.truthy (Latest.originalText l) = true /\
  isNew seen u (Latest.id l) = true.
Proof.
  unfold candidate. destruct (fetched E u) as [[l'|]|e].
  - destruct (Js.truthy (Latest.originalText l')) eqn:Ht;
      destruct (isNew seen u (Latest.id l')) eqn:Hn; cbn; split;
      try discriminate; try (intros [[= <-] [? ?]]; congruence).
    intros [= <-]. now rewrite Ht, Hn.
  - split; [discriminate | now intros [? _]].
  - split; [discriminate | now intros [? _]].
Qed.

Lemma pollSeen_lookup (E : Env) (us : list string)
    (seen : gmap string (option string)) (u : string) :
  pollSeen E us seen !! u =
  if decide (u ∈ us)
  then match candidate E seen u with
       | Some l => Some (Some (Latest.id l))
       | None => seen !! u
       end
  else seen !! u.
Proof.
  revert seen; induction us as [|u0 us IH]; intros seen.
  - cbn. destruct (decide (u ∈ [])) as [H|_]; [inversion H | reflexivity].
  - cbn [pollSeen]. rewrite IH. destruct (decide (u = u0)) as [->|Hne].
    + rewrite (decide_True (P := u0 ∈ u0 :: us)) by (apply elem_of_cons; now left).
      destruct (candidate E seen u0) as [l0|] eqn:Hc.
      * rewrite (candidate_record_eq _ _ _ _ Hc). unfold record.
        rewrite lookup_insert_eq. now destruct (decide (u0 ∈ us)).
      * cbn [record]. rewrite Hc. now destruct (decide (u0 ∈ us)).
    + rewrite candidate_record_ne by exact Hne.
      assert (Hl : record seen u0 (candidate E seen u0) !! u = seen !! u).
      { destruct (candidate E seen u0); [|reflexivity]. cbn.
        now rewrite lookup_insert_ne. }
      rewrite Hl. destruct (decide (u ∈ us)) as [Hin|Hnin].
      * now rewrite (decide_True (P := u ∈ u0 :: us)) by (apply elem_of_cons; now right).
      * rewrite (decide_False (P := u ∈ u0 :: us)); [reflexivity|].
        intros [?|?]%elem_of_cons; contradiction.
Qed.

Lemma pollNew_elem (E : Env) (us : list string)
    (seen : gmap string (option string)) (l : Latest.t) :
  l ∈ pollNew E us seen <-> exists u, u ∈ us /\ candidate E seen u = Some l.
Proof.
  revert seen; induction us as [|u0 us IH]; intros seen.
  - cbn. split; [intros H; inversion H | intros (u & H & _); inversion H].
  - cbn [pollNew]. destruct (candidate E seen u0) as [l0|] eqn:Hc.
    + rewrite elem_of_cons, IH. split.
      * intros [->|(u & Hu & Hcu)].
        -- exists u0. split; [apply elem_of_cons; now left | exact Hc].
        -- destruct (decide (u = u0)) as [->|Hne].
           ++ rewrite (candidate_record_eq _ _ _ _ Hc) in Hcu. discriminate.
           ++ rewrite candidate_record_ne in Hcu by exact Hne.
              exists u. split; [apply elem_of_cons; now right | exact Hcu].
      * intros (u & Hu & Hcu). destruct (decide (u = u0)) as [->|Hne].
        -- left. congruence.
        -- right. exists u. apply elem_of_cons in Hu as [?|Hu]; [contradiction|].
           split; [exact Hu|]. now rewrite candidate_record_ne.
    + rewrite IH. split.
      * intros (u & Hu & Hcu). exists u. split; [apply elem_of_cons; now right | exact Hcu].
      * intros (u & Hu & Hcu). exists u. apply elem_of_cons in Hu as [->|Hu]; [congruence|].
        now split.
Qed.

(** The item [pollOnce] keeps: one that passed the gates, of greatest
    identifier among those that passed. *)
Lemma poll_best_spec (E : Env) (us : list string) (seen : gmap string (option string)) :
  match fold_left better (pollNew E us seen) None with
  | None => forall u, u ∈ us -> candidate E seen u = None
  | Some b =>
      (exists ub, ub ∈ us /\ candidate E seen ub = Some b) /\
      forall u l, u ∈ us -> candidate E seen u = Some l ->
        Js.BigInt (Latest.id l) <= Js.BigInt (Latest.id b)
  end.
Proof.
  pose proof (fold_keep_spec (fun l => Js.BigInt (Latest.id l)) (pollNew E us seen)) as H.
  change (keep (fun l => Js.BigInt (Latest.id l))) with better in H.
  destruct (fold_left better (pollNew E us seen) None) as [b|].
  - destruct H as (pre & post & Heq & Hpre & Hpost).
    assert (Hb : b ∈ pollNew E us seen)
      by (rewrite Heq; apply elem_of_app; right; apply elem_of_cons; now left).
    split; [now apply pollNew_elem|].
    intros u l Hu Hc.
    assert (Hl : l ∈ pollNew E us seen) by (apply pollNew_elem; eauto).
    rewrite Heq in Hl. apply elem_of_app in Hl as [Hl|Hl].
    + specialize (Hpre _ Hl). cbn in Hpre. lia.
    + apply elem_of_cons in Hl as [->|Hl]; [lia | exact (Hpost _ Hl)].
  - intros u Hu. destruct (candidate E seen u) as [l|] eqn:Hc; [|reflexivity].
    assert (Hl : l ∈ pollNew E us seen) by (apply pollNew_elem; eauto).
    rewrite H in Hl. inversion Hl.
Qed.

End Effects.

(** ** The tick and the priming block *)

Section Tick.

Lemma subscribers_cons (g : string) (l : list string) (gm : list (string * list string))
    (u : string) :
  subscribers ((g, l) :: gm) u =
  if includes l u then g :: subscribers gm u else subscribers gm u.
Proof.
  unfold subscribers. rewrite filter_cons. cbn [snd].
  destruct (includes l u); [rewrite decide_True by reflexivity | rewrite decide_False by discriminate];
    reflexivity.
Qed.

Lemma subscribers_elem (gm : list (string * list string)) (u g : string) :
  g ∈ subscribers gm u <-> exists l, (g, l) ∈ gm /\ u ∈ l.
Proof.
  induction gm as [|[g0 l0] gm IH].
  - cbn. split; [intros H; inversion H | intros (l & H & _); inversion H].
  - rewrite subscribers_cons. unfold includes at 1.
    destruct (bool_decide_reflect (u ∈ l0)) as [Hin|Hnin].
    + rewrite elem_of_cons, IH. split.
      * intros [->|(l & Hl & Hu)].
        -- exists l0. split; [apply elem_of_cons; now left | exact Hin].
        -- exists l. split; [apply elem_of_cons; now right | exact Hu].
      * intros (l & Hl & Hu). apply elem_of_cons in Hl as [[= -> ->]|Hl]; [now left|].
        right. now exists l.
    + rewrite IH. split.
      * intros (l & Hl & Hu). exists l. split; [apply elem_of_cons; now right | exact Hu].
      * intros (l & Hl & Hu). apply elem_of_cons in Hl as [[= -> ->]|Hl]; [contradiction|].
        now exists l.
Qed.



Lemma fanout_run (E : Env) (tweet : Tweet.t) (gm : list (string * list string))
    (w : World) :
  forOf gm (deliver E tweet) () w =
  (fanOutcome E tweet (subscribers gm (Tweet.username tweet)),
   extend w (map (fun g => NotifyGuild g tweet)
               (reached E tweet (subscribers gm (Tweet.username tweet))))).
Proof.
  revert w; induction gm as [|[g l] gm IH]; intros w.
  - cbn. now rewrite extend_nil.
  - cbn [forOf]. rewrite subscribers_cons. unfold mbind at 1, M_bind at 1.
    unfold deliver at 1. destruct (includes l (Tweet.username tweet)).
    + cbv [mbind M_bind emit await]. cbn [reached fanOutcome map].
      destruct (notifyGuild E g tweet) as [[]|e].
      * rewrite IH. fold (extend w [NotifyGuild g tweet]).
        now rewrite extend_extend.
      * reflexivity.
    + cbv [mret M_ret]. apply IH.
Qed.

Lemma tick_run (E : Env) (w : World) :
  tick E w =
  (Returned (),
   match getGuildState E with
   | Returned gs =>
       extend (withSeen w (pollSeen E (allUsernames gs) (g_lastSeenTweetIdByUser w)))
              (tickEvents E gs (g_lastSeenTweetIdByUser w))
   | Threw _ => extend w [Error "[RSS] polling tick failed:"]
   end).
Proof.
  unfold tick, tryCatch. unfold mbind at 1, M_bind at 1, await.
  destruct (getGuildState E) as [gs|e]; [|reflexivity].
  unfold mbind at 1, M_bind at 1. rewrite pollOnce_run. unfold tickEvents.
  fold (selected E (allUsernames gs) (g_lastSeenTweetIdByUser w)).
  destruct (selected E (allUsernames gs) (g_lastSeenTweetIdByUser w)) as [b|].
  - rewrite fanout_run. fold (notified E b). cbn [toTweet Tweet.username notified].
    destruct (fanOutcome E (notified E b) _) as [[]|e].
    + now rewrite !extend_extend, app_nil_r.
    + unfold error, emit. rewrite !extend_extend. unfold extend. cbn.
      now rewrite <- !app_assoc.
  - cbv [mret M_ret]. now rewrite app_nil_r.
Qed.

Lemma primeLastSeen_run (E : Env) (us : list string) (w : World) :
  primeLastSeen E us w =
  (Returned (),
   extend (withSeen w (primeSeen E us (g_lastSeenTweetIdByUser w)))
          (concat (map (primeEvents E) us))).
Proof.
  unfold primeLastSeen. revert w; induction us as [|u us IH]; intros w.
  - cbn. unfold withSeen. rewrite extend_nil. now destruct w.
  - cbn [forOf]. unfold mbind at 1, M_bind at 1. unfold tryCatch at 1.
    unfold mbind at 1, M_bind at 1. rewrite fetchLatestTweet_run.
    cbn [primeSeen map concat]. unfold primeEvents at 1.
    destruct (fetched E u) as [latest|e].
    + unfold setLastSeen at 1. rewrite IH. unfold extend, withSeen. cbn.
      now rewrite <- !app_assoc.
    + cbv [error emit mbind M_bind setLastSeen]. rewrite IH.
      unfold extend, withSeen. cbn. now rewrite <- !app_assoc.
Qed.

Lemma priming_run (E : Env) (w : World) :
  priming E w =
  (Returned (),
   match getGuildState E with
   | Returned gs =>
       extend (withSeen w (primeSeen E (allUsernames gs) (g_lastSeenTweetIdByUser w)))
              (concat (map (primeEvents E) (allUsernames gs)))
   | Threw _ => extend w [Error "[RSS] initial primeLastSeen failed:"]
   end).
Proof.
  unfold priming, tryCatch. unfold mbind at 1, M_bind at 1, await.
  destruct (getGuildState E) as [gs|e]; [|reflexivity].
  now rewrite primeLastSeen_run.
Qed.

Lemma ticks_return (Es : list Env) (w : World) :
  exists w', ticks Es w = (Returned (), w').
Proof.
  revert w; induction Es as [|E Es IH]; intros w.
  - now exists w.
  - cbn [ticks]. unfold mbind, M_bind. rewrite tick_run. apply IH.
Qed.

(** *** What the events of a tick contain *)

Lemma notifications_app (a b : list Event) :
  notifications (a ++ b) = notifications a ++ notifications b.
Proof. apply omap_app. Qed.

Lemma requests_app (a b : list Event) : requests (a ++ b) = requests a ++ requests b.
Proof. apply omap_app. Qed.

Lemma translateEvents_cases (E : Env) (text : string) :
  let t := Js.trim text in
  translateEvents E text =
  if negb (Js.truthy t) then []
  else if isBareUrl t then []
  else match deeplTranslator E with
       | None => [Log "[DEEPL] DEEPL_AUTH_KEY missing; returning original text without translation."]
       | Some f =>
           TranslateText t ::
           match f t with
           | Returned _ => []
           | Threw _ => [Error "[DEEPL] translateText failed; returning original text:"]
           end
       end.
Proof.
  intros t. unfold translateEvents, translateToEnglish. fold t.
  destruct (negb (Js.truthy t)); [reflexivity|].
  destruct (isBareUrl t); [reflexivity|].
  destruct (deeplTranslator E) as [f|]; [|reflexivity].
  cbv [tryCatch mbind M_bind emit await mret M_ret error]. cbn.
  now destruct (f t).
Qed.

Lemma english_cases (E : Env) (text : string) :
  let t := Js.trim text in
  english E text =
  if negb (Js.truthy t) then ""
  else if isBareUrl t then t
  else match deeplTranslator E with
       | None => t
       | Some f =>
           match f t with
           | Returned (Some r) => if Js.truthy r then r else ""
           | Returned None => ""
           | Threw _ => t
           end
       end.
Proof.
  intros t. unfold english, translated, translateToEnglish. fold t.
  destruct (negb (Js.truthy t)); [reflexivity|].
  destruct (isBareUrl t); [reflexivity|].
  destruct (deeplTranslator E) as [f|]; [|reflexivity].
  cbv [tryCatch mbind M_bind emit await mret M_ret error]. cbn.
  now destruct (f t) as [[r|]|e].
Qed.

Lemma notifications_translate (E : Env) (text : string) :
  notifications (translateEvents E text) = [].
Proof.
  rewrite translateEvents_cases. cbv zeta.
  destruct (negb _); [reflexivity|]. destruct (isBareUrl _); [reflexivity|].
  destruct (deeplTranslator E) as [f|]; [|reflexivity].
  now destruct (f _).
Qed.

Lemma requests_translate (E : Env) (text : string) :
  requests (translateEvents E text) = [].
Proof.
  rewrite translateEvents_cases. cbv zeta.
  destruct (negb _); [reflexivity|]. destruct (isBareUrl _); [reflexivity|].
  destruct (deeplTranslator E) as [f|]; [|reflexivity].
  now destruct (f _).
Qed.

Lemma notifications_fetch (E : Env) (us : list string) :
  notifications (concat (map (fetchEvents E) us)) = [].
Proof.
  induction us as [|u us IH]; [reflexivity|]. cbn [map concat].
  rewrite notifications_app, IH. unfold fetchEvents. now destruct (fetched E u).
Qed.

Lemma requests_fetch (E : Env) (us : list string) :
  requests (concat (map (fetchEvents E) us)) = map (buildNitterRssUrl E) us.
Proof.
  induction us as [|u us IH]; [reflexivity|]. cbn [map concat].
  rewrite requests_app, IH. unfold fetchEvents. now destruct (fetched E u).
Qed.

Lemma notifications_deliveries (tweet : Tweet.t) (gs : list string) :
  notifications (map (fun g => NotifyGuild g tweet) gs) = map (fun g => (g, tweet)) gs.
Proof. induction gs as [|g gs IH]; [reflexivity|]. cbn. now f_equal. Qed.

Lemma notifications_tick (E : Env) (gs : GuildState) (seen : gmap string (option string)) :
  notifications (tickEvents E gs seen) =
  match selected E (allUsernames gs) seen with
  | None => []
  | Some b =>
      map (fun g => (g, notified E b))
          (reached E (notified E b) (subscribers (guildMap gs) (Latest.username b)))
  end.
Proof.
  unfold tickEvents. rewrite notifications_app, notifications_fetch.
  destruct (selected E (allUsernames gs) seen) as [b|]; [|reflexivity].
  cbv zeta. rewrite !notifications_app, notifications_translate, notifications_deliveries.
  destruct (fanOutcome E _ _); cbn; now rewrite app_nil_r.
Qed.

End Tick.

(** ** New-item detection and the seen-state *)

Section SeenState.

Lemma isNew_true (seen : gmap string (option string)) (u i : string) :
  isNew seen u i = true <-> lastIdOf seen u <> Some i.
Proof.
  unfold isNew. rewrite negb_true_iff, bool_decide_eq_false. split; congruence.
Qed.

Lemma lastIdOf_None (seen : gmap string (option string)) (u : string) :
  lastIdOf seen u = None <->
  seen !! u = None \/ seen !! u = Some None \/ seen !! u = Some (Some "").
Proof.
  unfold lastIdOf. destruct (seen !! u) as [[s|]|].
  - destruct s; cbn; split; try discriminate; auto.
    intros [H|[H|H]]; discriminate.
  - split; auto.
  - split; auto.
Qed.

Lemma candidate_username (E : Env) (seen : gmap string (option string))
    (u : string) (l : Latest.t) :
  candidate E seen u = Some l -> Latest.username l = u.
Proof.
  intros (Hf & _)%candidate_Some.
  now destruct (fetched_Some _ _ _ Hf) as (? & ? & _ & _ & ? & _).
Qed.

Lemma candidate_recorded (E : Env) (seen : gmap string (option string))
    (u : string) (l : Latest.t) :
  fetched E u = Returned (Some l) ->
  seen !! u = Some (Some (Latest.id l)) ->
  candidate E seen u = None.
Proof.
  intros Hf Hs. unfold candidate, isNew, lastIdOf. rewrite Hf, Hs.
  rewrite (fetched_id_truthy _ _ _ Hf).
  rewrite bool_decide_eq_true_2 by reflexivity. cbn. now rewrite andb_false_r.
Qed.

Lemma primeSeen_notin (E : Env) (us : list string)
    (seen : gmap string (option string)) (u : string) :
  u ∉ us -> primeSeen E us seen !! u = seen !! u.
Proof.
  revert seen; induction us as [|u0 us IH]; intros seen H; [reflexivity|].
  cbn [primeSeen]. apply not_elem_of_cons in H as [Hne Hnin].
  rewrite IH by exact Hnin. now rewrite lookup_insert_ne.
Qed.

Lemma primeSeen_in (E : Env) (us : list string)
    (seen : gmap string (option string)) (u : string) :
  u ∈ us ->
  primeSeen E us seen !! u =
  Some match fetched E u with
       | Returned latest => Latest.id <$> latest
       | Threw _ => None
       end.
Proof.
  revert seen; induction us as [|u0 us IH]; intros seen H; [inversion H|].
  cbn [primeSeen]. destruct (decide (u ∈ us)) as [Hin|Hnin]; [now apply IH|].
  apply elem_of_cons in H as [->|H]; [|contradiction].
  rewrite primeSeen_notin by exact Hnin. apply lookup_insert_eq.
Qed.

Lemma lastIdOf_Some (seen : gmap string (option string)) (u i : string) :
  lastIdOf seen u = Some i <-> seen !! u = Some (Some i) /\ i <> "".
Proof.
  unfold lastIdOf. destruct (seen !! u) as [[s|]|].
  - destruct s as [|c s]; cbn.
    + split; [discriminate|]. intros [[= <-] H]. now contradiction H.
    + split; [intros [= <-]; split; [reflexivity | discriminate]|].
      now intros [[= <-] _].
  - split; [discriminate | intros [H _]; discriminate H].
  - split; [discriminate | intros [H _]; discriminate H].
Qed.

(** The test of rss.js:208-209 read on the map itself. *)
Lemma isNew_entry (seen : gmap string (option string)) (u i : string) :
  isNew seen u i = true <->
  seen !! u = None \/ seen !! u = Some None \/ seen !! u = Some (Some "") \/
  exists last, seen !! u = Some (Some last) /\ last <> i.
Proof.
  rewrite isNew_true. split.
  - intros Hn. destruct (seen !! u) as [[s|]|] eqn:Hs; [|auto|auto].
    destruct (String.eqb_spec s ""); [subst; auto|].
    right; right; right. exists s. split; [reflexivity|].
    intros ->. apply Hn. apply lastIdOf_Some. now rewrite Hs.
  - intros H [Hs Hne]%lastIdOf_Some. rewrite Hs in H.
    destruct H as [H|[H|[H|(last & H & Hd)]]]; try discriminate H.
    + injection H as ->. now contradiction Hne.
    + injection H as ->. now contradiction Hd.
Qed.

Lemma isNew_recorded (seen : gmap string (option string)) (u i : string) :
  Js.truthy i = true ->
  isNew seen u i = negb (bool_decide (seen !! u = Some (Some i))).
Proof.
  intros Hi. unfold isNew. f_equal. apply bool_decide_ext.
  split.
  - intros H. symmetry in H. now apply lastIdOf_Some in H as [H _].
  - intros H. symmetry. apply lastIdOf_Some. split; [exact H|].
    intros ->. discriminate Hi.
Qed.

(** C2, as the code has it. The test of [pollOnce] on an identity and a
    candidate identifier passes exactly when the entry of the identity in
    the seen-state map is absent, [null] or the empty string, or holds a
    different string. For an identity whose fetch gave an item with text,
    the iteration of [pollOnce] records the identifier of the item and lets
    the item compete for delivery unless the map holds that very identifier
    for the identity; then it changes nothing. *)
Theorem pollBody_newness (E : Env) (u : string) (best : option Latest.t)
    (w : World) (l : Latest.t) :
  fetched E u = Returned (Some l) ->
  Js.truthy (Latest.originalText l) = true ->
  let seen := g_lastSeenTweetIdByUser w in
  let recorded := bool_decide (seen !! u = Some (Some (Latest.id l))) in
  (forall (s : gmap string (option string)) (v i : string),
     isNew s v i = true <->
     s !! v = None \/ s !! v = Some None \/ s !! v = Some (Some "") \/
     exists last, s !! v = Some (Some last) /\ last <> i) /\
  isNew seen u (Latest.id l) = negb recorded /\
  pollBody E u best w =
    (Returned (if recorded then best else better best l),
     extend (withSeen w (if recorded then seen
                         else <[u := Some (Latest.id l)]> seen))
            (fetchEvents E u)).
Proof.
  intros Hf Ht seen recorded.
  assert (Hnew : isNew seen u (Latest.id l) = negb recorded)
    by (apply isNew_recorded; exact (fetched_id_truthy E u l Hf)).
  split; [exact isNew_entry|]. split; [exact Hnew|].
  rewrite pollBody_run. fold seen. unfold candidate. rewrite Hf, Ht, Hnew. cbn [andb].
  now destruct recorded.
Qed.

Lemma pollBody_newness_witness :
  fetched Scenario.crossEnv "A"
    = Returned (Some (Latest.mk "A" "5" "https://x.com/A/status/5" "five" None)) /\
  isNew (list_to_map Scenario.crossSeen) "A" "5" = true /\
  g_lastSeenTweetIdByUser
    (snd (pollBody Scenario.crossEnv "A" None (Scenario.started Scenario.crossSeen)))
    !! "A" = Some (Some "5").
Proof.
  assert (Hf : fetched Scenario.crossEnv "A"
    = Returned (Some (Latest.mk "A" "5" "https://x.com/A/status/5" "five" None)))
    by reflexivity.
  split; [exact Hf|]. split; [reflexivity|].
  destruct (pollBody_newness Scenario.crossEnv "A" None
              (Scenario.started Scenario.crossSeen) _ Hf eq_refl) as (_ & _ & ->).
  reflexivity.
Defined.

(** C2 as stated fails: the test is not a comparison of magnitudes. With 10
    recorded in the map, the identifier 5 passes it. *)
Lemma newness_by_magnitude_refuted :
  ~ (forall (seen : gmap string (option string)) (u i : string),
       isNew seen u i = true <->
       seen !! u = None \/ seen !! u = Some None \/ seen !! u = Some (Some "") \/
       exists last, seen !! u = Some (Some last) /\ Js.BigInt i > Js.BigInt last).
Proof.
  intros H.
  destruct (H {["A" := Some "10"]} "A" "5") as [H1 _].
  destruct (H1 eq_refl) as [Hn|[Hn|[Hn|(last & Hl & Hgt)]]]; try discriminate Hn.
  injection Hl as <-. vm_compute in Hgt. discriminate Hgt.
Qed.

(** C1, as the code has it. During a tick the entry of an identity in the
    seen-state map either stays or becomes the identifier of the latest
    item just fetched for it, an item with text, and then the map did not
    hold that identifier for the identity; for an identity of the snapshot
    it does become that identifier in every such case. An item whose
    identifier is the one the map holds leaves the entry alone and is not
    among the notifications of the tick; every notification carries an
    identifier other than the one the map held for its identity. Priming
    sets the entry of every identity of the snapshot to its latest
    identifier, or to [null] when the feed has none or cannot be fetched,
    and leaves the other entries (all of them, when there is no snapshot).
    No order between the old and the new identifier is involved. *)
Theorem seen_state_follows_feed (E : Env) (w : World) :
  let seen := g_lastSeenTweetIdByUser w in
  let seen' := g_lastSeenTweetIdByUser (snd (tick E w)) in
  let primed := g_lastSeenTweetIdByUser (snd (priming E w)) in
  (forall u, seen' !! u = seen !! u \/
     exists l, fetched E u = Returned (Some l) /\
       Js.truthy (Latest.originalText l) = true /\
       seen !! u <> Some (Some (Latest.id l)) /\
       seen' !! u = Some (Some (Latest.id l))) /\
  (forall gs u l, getGuildState E = Returned gs -> u ∈ allUsernames gs ->
     fetched E u = Returned (Some l) ->
     Js.truthy (Latest.originalText l) = true ->
     seen !! u <> Some (Some (Latest.id l)) ->
     seen' !! u = Some (Some (Latest.id l))) /\
  (exists tr, trace (snd (tick E w)) = trace w ++ tr /\
     (forall g tw, (g, tw) ∈ notifications tr ->
        seen !! Tweet.username tw <> Some (Some (Tweet.id tw)) /\
        seen' !! Tweet.username tw = Some (Some (Tweet.id tw))) /\
     (forall u l, fetched E u = Returned (Some l) ->
        seen !! u = Some (Some (Latest.id l)) ->
        seen' !! u = seen !! u /\
        forall g tw, (g, tw) ∈ notifications tr -> Tweet.username tw <> u)) /\
  (forall gs, getGuildState E = Returned gs ->
     (forall u, u ∈ allUsernames gs ->
        primed !! u =
        Some match fetched E u with
             | Returned latest => Latest.id <$> latest
             | Threw _ => None
             end) /\
     (forall u, u ∉ allUsernames gs -> primed !! u = seen !! u)) /\
  (forall e, getGuildState E = Threw e -> primed = seen).
Proof.
  intros seen seen' primed. subst seen' primed.
  rewrite tick_run, priming_run. cbn [snd]. fold seen.
  assert (Hrec : forall u l, fetched E u = Returned (Some l) ->
            (isNew seen u (Latest.id l) = true <->
             seen !! u <> Some (Some (Latest.id l)))).
  { intros u l Hf. rewrite (isNew_recorded _ _ _ (fetched_id_truthy E u l Hf)).
    rewrite negb_true_iff, bool_decide_eq_false. reflexivity. }
  destruct (getGuildState E) as [gs|e]; cbn [g_lastSeenTweetIdByUser trace extend withSeen].
  2:{ split; [now left|]. split; [intros gs u l H; discriminate H|]. split.
      - exists [Error "[RSS] polling tick failed:"]. split; [reflexivity|].
        split; [intros g tw H; inversion H|]. intros u l _ _. split; [reflexivity|].
        intros g tw H; inversion H.
      - split; [intros gs H; discriminate H | reflexivity]. }
  assert (Hnote : forall g tw,
    (g, tw) ∈ notifications (tickEvents E gs seen) ->
    exists b, tw = notified E b /\ Latest.username b ∈ allUsernames gs /\
              candidate E seen (Latest.username b) = Some b).
  { intros g tw. rewrite notifications_tick. unfold selected.
    pose proof (poll_best_spec E (allUsernames gs) seen) as Hb.
    destruct (fold_left better _ None) as [b|]; [|intros H; inversion H].
    destruct Hb as [(ub & Hub & Hc) _].
    intros (g' & [= _ ->] & _)%list_elem_of_fmap. exists b.
    rewrite (candidate_username _ _ _ _ Hc). auto. }
  split; [|split; [|split; [|split]]].
  - intros u. rewrite pollSeen_lookup.
    destruct (decide (u ∈ allUsernames gs)); [|now left].
    destruct (candidate E seen u) as [l|] eqn:Hc; [|now left].
    right. exists l. apply candidate_Some in Hc as (Hf & Ht & Hn).
    apply (Hrec u l Hf) in Hn. auto.
  - intros gs' u l [= <-] Hin Hf Ht Hn. rewrite pollSeen_lookup, decide_True by exact Hin.
    assert (Hc : candidate E seen u = Some l).
    { apply candidate_Some. split; [exact Hf|]. split; [exact Ht|]. now apply (Hrec u l Hf). }
    now rewrite Hc.
  - exists (tickEvents E gs seen). split; [reflexivity|]. split.
    + intros g tw (b & -> & Hin & Hc)%Hnote. cbn [notified toTweet Tweet.username Tweet.id].
      rewrite pollSeen_lookup, decide_True, Hc by exact Hin.
      apply candidate_Some in Hc as (Hf & _ & Hn). apply (Hrec _ _ Hf) in Hn. auto.
    + intros u l Hf Hlast.
      assert (Hnc : candidate E seen u = None) by exact (candidate_recorded E seen u l Hf Hlast).
      split.
      * rewrite pollSeen_lookup, Hnc. now destruct (decide (u ∈ allUsernames gs)).
      * intros g tw (b & -> & _ & Hc)%Hnote. cbn [notified toTweet Tweet.username].
        intros <-. congruence.
  - intros gs' [= <-]. split.
    + intros u Hu. now apply primeSeen_in.
    + intros u Hu. now apply primeSeen_notin.
  - intros e H; discriminate H.
Qed.

(** C1 as stated fails. At start-up the feed of [A] holds items 10 and 5,
    and priming records 10; at a tick that follows, item 10 is gone and
    item 5 is the latest: 5 replaces 10 in the seen-state and item 5,
    present at start-up, is notified to both tenants. *)
Lemma seen_state_decrease :
  let w1 := snd (priming Scenario.primeEnv world0) in
  let w2 := snd (tick Scenario.laterEnv w1) in
  let tweet := Tweet.mk "A" "5" "https://x.com/A/status/5" "five" "five" None in
  g_lastSeenTweetIdByUser w1 !! "A" = Some (Some "10") /\
  g_lastSeenTweetIdByUser w2 !! "A" = Some (Some "5") /\
  Js.BigInt "5" < Js.BigInt "10" /\
  notifications (trace w2) = [("g1", tweet); ("g2", tweet)].
Proof. vm_compute. repeat split. Qed.

End SeenState.

(** ** One tick: selection across identities and fan-out *)

Section CrossIdentity.




End CrossIdentity.

(** ** A failing fetch *)

Section FetchFailure.

Lemma candidate_thrown (E : Env) (seen : gmap string (option string))
    (u : string) (e : Exn) :
  fetched E u = Threw e -> candidate E seen u = None.
Proof. intros H. unfold candidate. now rewrite H. Qed.

Lemma poll_without (E : Env) (u : string) (us : list string)
    (seen : gmap string (option string)) :
  (forall s, candidate E s u = None) ->
  pollNew E (filter (fun x => x <> u) us) seen = pollNew E us seen /\
  pollSeen E (filter (fun x => x <> u) us) seen = pollSeen E us seen.
Proof.
  intros Hu. revert seen; induction us as [|u0 us IH]; intros seen; [now split|].
  rewrite filter_cons. destruct (decide (u0 <> u)) as [Hne|Heq].
  - cbn [pollNew pollSeen]. destruct (candidate E seen u0) as [l0|].
    + destruct (IH (record seen u0 (Some l0))) as [-> ->]. now split.
    + apply IH.
  - apply dec_stable in Heq as ->. cbn [pollNew pollSeen]. rewrite Hu. cbn [record].
    apply IH.
Qed.

Lemma withSnapshot_poll (E : Env) (gs : GuildState) (us : list string)
    (seen : gmap string (option string)) :
  pollSeen (withSnapshot E gs) us seen = pollSeen E us seen /\
  pollNew (withSnapshot E gs) us seen = pollNew E us seen.
Proof.
  revert seen; induction us as [|u us IH]; intros seen; [now split|].
  cbn [pollSeen pollNew].
  change (candidate (withSnapshot E gs) seen u) with (candidate E seen u).
  destruct (candidate E seen u) as [l|]; [|apply IH].
  destruct (IH (record seen u (Some l))) as [-> ->]. now split.
Qed.

Lemma withSnapshot_reached (E : Env) (gs : GuildState) (tw : Tweet.t) (l : list string) :
  reached (withSnapshot E gs) tw l = reached E tw l.
Proof. induction l as [|g l IH]; [reflexivity|]. cbn. now rewrite IH. Qed.

Lemma requests_tick (E : Env) (gs : GuildState) (seen : gmap string (option string)) :
  requests (tickEvents E gs seen) = map (buildNitterRssUrl E) (allUsernames gs).
Proof.
  unfold tickEvents. rewrite requests_app, requests_fetch.
  destruct (selected E (allUsernames gs) seen) as [b|]; [|now rewrite app_nil_r].
  rewrite !requests_app, requests_translate. cbn [app].
  assert (Hd : forall tw l, requests (map (fun g => NotifyGuild g tw) l) = [])
    by (intros tw l; induction l as [|g l IH]; [reflexivity | exact IH]).
  rewrite Hd. cbn [app].
  destruct (fanOutcome E _ _); cbn; now rewrite app_nil_r.
Qed.

(** C7. In a tick whose snapshot lists [u], with the fetch of [u]
    throwing: the callback returns and the ticks that follow run from the
    world it leaves; the feed of every identity of the snapshot is
    requested, once, in order, and the failure of [u] is logged; the entry
    of [u] in the seen-state is untouched and no notification is about
    [u]; the seen-state and the notifications are those of the same tick
    over the snapshot without [u]: each other identity is compared with the
    seen-state and recorded as if [u] were not there, and when one of them
    passes the gates, the item of greatest identifier among them is the one
    notified. *)
Theorem fetch_failure_is_skipped (E : Env) (gs : GuildState) (u : string)
    (e : Exn) (w : World) :
  getGuildState E = Returned gs ->
  u ∈ allUsernames gs ->
  fetched E u = Threw e ->
  let seen := g_lastSeenTweetIdByUser w in
  let w1 := snd (tick E w) in
  let w1' := snd (tick (withSnapshot E (without u gs)) w) in
  fst (tick E w) = Returned () /\
  (forall Es, ticks (E :: Es) w = ticks Es w1 /\ fst (ticks Es w1) = Returned ()) /\
  g_lastSeenTweetIdByUser w1 !! u = seen !! u /\
  g_lastSeenTweetIdByUser w1 = g_lastSeenTweetIdByUser w1' /\
  (forall u', u' ∈ allUsernames gs ->
     g_lastSeenTweetIdByUser w1 !! u' =
     match candidate E seen u' with
     | Some l => Some (Some (Latest.id l))
     | None => seen !! u'
     end) /\
  exists tr tr',
    trace w1 = trace w ++ tr /\ trace w1' = trace w ++ tr' /\
    requests tr = map (buildNitterRssUrl E) (allUsernames gs) /\
    Error ("[RSS] fetchLatestTweet failed for @" +:+ u +:+ ":") ∈ tr /\
    notifications tr = notifications tr' /\
    (forall g tw, (g, tw) ∈ notifications tr -> Tweet.username tw <> u) /\
    (forall u' l, u' ∈ allUsernames gs -> candidate E seen u' = Some l ->
       exists b, candidate E seen (Latest.username b) = Some b /\
         Latest.username b ∈ allUsernames gs /\
         Js.BigInt (Latest.id l) <= Js.BigInt (Latest.id b) /\
         notifications tr =
           map (fun g => (g, notified E b))
             (reached E (notified E b)
                (subscribers (guildMap gs) (Latest.username b)))).
Proof.
  intros Hgs Hin Hf seen w1 w1'. subst w1 w1'.
  assert (Hu : forall s, candidate E s u = None)
    by (intros s; exact (candidate_thrown E s u e Hf)).
  assert (Hticks : forall Es, ticks (E :: Es) w = ticks Es (snd (tick E w))).
  { intros Es. cbn [ticks]. unfold mbind, M_bind. now rewrite tick_run. }
  rewrite !tick_run, Hgs. cbn [fst snd getGuildState withSnapshot without allUsernames guildMap].
  cbn [g_lastSeenTweetIdByUser trace extend withSeen]. fold seen.
  destruct (withSnapshot_poll E (without u gs)
              (filter (fun x => x <> u) (allUsernames gs)) seen) as [Hs' Hn'].
  destruct (poll_without E u (allUsernames gs) seen Hu) as [Hnew Hseen].
  assert (Hnote : notifications (tickEvents E gs seen) =
    match selected E (allUsernames gs) seen with
    | None => []
    | Some b =>
        map (fun g => (g, notified E b))
            (reached E (notified E b) (subscribers (guildMap gs) (Latest.username b)))
    end) by apply notifications_tick.
  split; [reflexivity|].
  split.
  { intros Es. split; [now rewrite Hticks, tick_run, Hgs|].
    match goal with |- fst (ticks Es ?w2) = _ => destruct (ticks_return Es w2) as [w3 ->] end.
    reflexivity. }
  split; [|split; [|split]].
  - rewrite pollSeen_lookup, Hu. now destruct (decide (u ∈ allUsernames gs)).
  - now rewrite Hs', Hseen.
  - intros u' Hu'. now rewrite pollSeen_lookup, decide_True by exact Hu'.
  - exists (tickEvents E gs seen),
           (tickEvents (withSnapshot E (without u gs)) (without u gs) seen).
    split; [reflexivity|]. split; [reflexivity|]. split; [|split; [|split; [|split]]].
    + apply requests_tick.
    + unfold tickEvents. apply elem_of_app. left.
      apply list_elem_of_In, in_concat. exists (fetchEvents E u). split.
      * apply in_map. now apply list_elem_of_In.
      * unfold fetchEvents. rewrite Hf. apply in_or_app. right. now left.
    + rewrite Hnote, notifications_tick. unfold selected.
      cbn [allUsernames guildMap without]. rewrite Hn', Hnew.
      destruct (fold_left better (pollNew E (allUsernames gs) seen) None) as [b|];
        [|reflexivity].
      change (notified (withSnapshot E (without u gs)) b) with (notified E b).
      now rewrite withSnapshot_reached.
    + intros g tw. rewrite Hnote. unfold selected.
      pose proof (poll_best_spec E (allUsernames gs) seen) as Hb.
      destruct (fold_left better _ None) as [b|]; [|intros H; inversion H].
      destruct Hb as [(ub & Hub & Hc) _].
      intros (g' & [= _ ->] & _)%list_elem_of_fmap.
      cbn [notified toTweet Tweet.username]. rewrite (candidate_username _ _ _ _ Hc).
      intros ->. now rewrite Hu in Hc.
    + intros u' l Hu' Hc. rewrite Hnote. unfold selected.
      pose proof (poll_best_spec E (allUsernames gs) seen) as Hb.
      destruct (fold_left better _ None) as [b|].
      * destruct Hb as [(ub & Hub & Hcb) Hmax]. exists b.
        rewrite (candidate_username _ _ _ _ Hcb).
        split; [exact Hcb|]. split; [exact Hub|]. split; [|reflexivity].
        exact (Hmax u' l Hu' Hc).
      * rewrite (Hb u' Hu') in Hc. discriminate Hc.
Qed.

(** Of three identities the first cannot be fetched: the other two are
    recorded and the greater of them is notified to the tenant. *)
Lemma fetch_failure_is_skipped_witness :
  fetched Scenario.outageEnv "A" = Threw "ECONNRESET" /\
  let w1 := snd (tick Scenario.outageEnv world0) in
  fst (tick Scenario.outageEnv world0) = Returned () /\
  g_lastSeenTweetIdByUser w1 !! "A" = None /\
  g_lastSeenTweetIdByUser w1 !! "B" = Some (Some "10") /\
  g_lastSeenTweetIdByUser w1 !! "C" = Some (Some "7") /\
  notifications (trace w1)
    = [("g1", Tweet.mk "B" "10" "https://x.com/B/status/10" "ten" "ten" None)].
Proof.
  split; [reflexivity|].
  assert (HA : "A" ∈ ["A"; "B"; "C"]) by (apply list_elem_of_In; cbn; auto).
  destruct (fetch_failure_is_skipped Scenario.outageEnv _ "A" "ECONNRESET" world0
              eq_refl HA eq_refl)
    as (Hret & _ & HAseen & _ & Hothers & _).
  cbv zeta. split; [exact Hret|]. rewrite HAseen.
  rewrite (Hothers "B") by (apply list_elem_of_In; cbn; auto).
  rewrite (Hothers "C") by (apply list_elem_of_In; cbn; auto).
  vm_compute. repeat split.
Defined.

End FetchFailure.

(** ** The translator adapter ([translateToEnglish]) *)

Section Translation.

Lemma trimEnd_noWhiteSpace (r : string) : noWhiteSpace r = true -> Js.trimEnd r = r.
Proof.
  induction r as [|c r IH]; [reflexivity|]. cbn [noWhiteSpace Js.trimEnd].
  intros [Hc Hr]%andb_true_iff. rewrite (IH Hr).
  destruct r; [|reflexivity]. apply negb_true_iff in Hc. now rewrite Hc.
Qed.

Lemma trimEnd_append (p r : string) :
  Js.truthy r = true -> Js.trimEnd r = r -> Js.trimEnd (p +:+ r) = p +:+ r.
Proof.
  intros Hr Hid. induction p as [|c p IH]; [exact Hid|].
  rewrite append_cons. cbn [Js.trimEnd]. rewrite IH.
  destruct (p +:+ r) eqn:E; [|reflexivity].
  destruct p; [|discriminate]. rewrite append_nil_l in E. now subst r.
Qed.

Lemma drop_split (n : nat) (s : string) : exists p, s = p +:+ Js.drop n s.
Proof.
  revert s; induction n as [|n IH]; intros s; [now exists ""|].
  destruct s as [|c s]; [now exists ""|]. destruct (IH s) as [p Hp].
  exists (String c p). rewrite append_cons. cbn [Js.drop]. now rewrite <- Hp.
Qed.

Lemma lower_h_not_space (c : ascii) :
  Ascii.eqb "h" (lower c) = true -> Js.isWhiteSpace c = false.
Proof. destruct c as [[] [] [] [] [] [] [] []]; vm_compute; intros H; congruence. Qed.

(** A text that is wholly a URL has no white space around it. *)
Lemma isBareUrl_trim (text : string) : isBareUrl text = true -> Js.trim text = text.
Proof.
  unfold isBareUrl, Js.trim. intros H.
  assert (Hstart : Js.trimStart text = text).
  { destruct text as [|c text]; [reflexivity|]. cbn [Js.trimStart].
    apply orb_true_iff in H as [H|H]; apply andb_true_iff in H as [H _];
      cbn [startsWithCI] in H;
      destruct (Ascii.eqb "h" (lower c)) eqn:Hc; try discriminate;
      now rewrite (lower_h_not_space c Hc). }
  rewrite Hstart.
  assert (Htail : exists n, Js.truthy (Js.drop n text) = true /\
                            noWhiteSpace (Js.drop n text) = true).
  { apply orb_true_iff in H as [H|H]; apply andb_true_iff in H as [_ H];
      apply andb_true_iff in H; eauto. }
  destruct Htail as (n & Hne & Hws). destruct (drop_split n text) as [p Hp].
  rewrite Hp. apply trimEnd_append; [exact Hne | now apply trimEnd_noWhiteSpace].
Qed.

(** C6, as the code has it. [translateToEnglish] always returns (no
    exception escapes) and leaves the seen-state alone. On the text with the
    white space around it removed: if nothing is left it returns the empty
    string; if it is wholly a URL it returns it, and the provider is not
    called; with no provider configured it returns it after one log line;
    when the provider throws it returns it after one error line. A text
    that is itself wholly a URL is returned unchanged. *)
Theorem translateToEnglish_passes_through (E : Env) (text : string) (w : World) :
  let t := Js.trim text in
  exists s tr,
    translateToEnglish E text w = (Returned s, extend w tr) /\
    (t = "" -> s = "" /\ tr = []) /\
    (isBareUrl t = true -> s = t /\ tr = []) /\
    (t <> "" -> isBareUrl t = false -> deeplTranslator E = None ->
       s = t /\
       tr = [Log "[DEEPL] DEEPL_AUTH_KEY missing; returning original text without translation."]) /\
    (t <> "" -> isBareUrl t = false ->
       forall f e, deeplTranslator E = Some f -> f t = Threw e ->
       s = t /\
       tr = [TranslateText t;
             Error "[DEEPL] translateText failed; returning original text:"]) /\
    (isBareUrl text = true -> t = text /\ s = text /\ tr = []).
Proof.
  intros t. exists (english E text), (translateEvents E text).
  split; [apply translateToEnglish_run|].
  rewrite english_cases, translateEvents_cases. cbv zeta. fold t.
  assert (Hurl : isBareUrl t = true -> Js.truthy t = true).
  { unfold isBareUrl. destruct t as [|c t']; [|reflexivity]. discriminate. }
  split; [|split; [|split; [|split]]].
  - now intros ->.
  - intros H. now rewrite (Hurl H), H.
  - intros Hne Hu Hp. rewrite Hu, Hp. destruct t; [contradiction | now split].
  - intros Hne Hu f e Hp Hf. rewrite Hu, Hp, Hf. destruct t; [contradiction | now split].
  - intros H. assert (Ht : t = text) by (apply isBareUrl_trim; exact H).
    rewrite Ht in *. now rewrite (Hurl H), H.
Qed.

(** C6 as stated fails: with no provider configured the text returned is not
    always the input; white space around it is removed. *)
Lemma translate_unchanged_refuted :
  ~ (forall (E : Env) (text : string) (w : World),
       deeplTranslator E = None ->
       fst (translateToEnglish E text w) = Returned text).
Proof.
  intros H. specialize (H Scenario.crossEnv " hi " world0 eq_refl).
  vm_compute in H. discriminate H.
Qed.

Lemma providerCalls_translate (E : Env) (text : string) :
  providerCalls (translateEvents E text) =
  match deeplTranslator E with
  | Some _ =>
      if Js.truthy (Js.trim text) && negb (isBareUrl (Js.trim text))
      then [Js.trim text] else []
  | None => []
  end.
Proof.
  rewrite translateEvents_cases. cbv zeta.
  destruct (Js.truthy (Js.trim text)); cbn [negb andb];
    [|now destruct (deeplTranslator E)].
  destruct (isBareUrl (Js.trim text)); cbn [negb];
    [now destruct (deeplTranslator E)|].
  destruct (deeplTranslator E) as [f|]; [|reflexivity].
  now destruct (f (Js.trim text)).
Qed.

(** C10. The adapter tests the text with the white space around it
    removed. For every input that is then not empty and not wholly a URL,
    with a provider configured whose call for that text resolves to a
    result with no text, absent or empty: the provider is called, once,
    with the trimmed text, and [translateToEnglish] returns the empty
    string, which is not the input; nothing is logged and the seen-state is
    untouched. *)
Theorem translateToEnglish_empty_result (E : Env) (text : string)
    (f : string -> Outcome (option string)) (r : option string) (w : World) :
  Js.truthy (Js.trim text) = true ->
  isBareUrl (Js.trim text) = false ->
  deeplTranslator E = Some f ->
  f (Js.trim text) = Returned r ->
  r = None \/ r = Some "" ->
  translateToEnglish E text w
    = (Returned "", extend w [TranslateText (Js.trim text)]) /\
  providerCalls (translateEvents E text) = [Js.trim text] /\
  "" <> text.
Proof.
  intros Ht Hu Hp Hf Hr. split; [|split].
  - rewrite translateToEnglish_run.
    rewrite english_cases, translateEvents_cases. cbv zeta.
    rewrite Ht, Hu, Hp, Hf. cbn [negb]. now destruct Hr as [->| ->].
  - now rewrite providerCalls_translate, Hp, Ht, Hu.
  - intros <-. discriminate Ht.
Qed.

Lemma translateToEnglish_empty_result_witness :
  Js.trim " bonjour " = "bonjour" /\
  deeplTranslator Scenario.muteEnv = Some (fun _ => Returned None) /\
  translateToEnglish Scenario.muteEnv " bonjour " world0
    = (Returned "", extend world0 [TranslateText "bonjour"]).
Proof.
  split; [reflexivity|]. split; [reflexivity|].
  exact (proj1 (translateToEnglish_empty_result Scenario.muteEnv " bonjour "
                  (fun _ => Returned None) None world0
                  eq_refl eq_refl eq_refl eq_refl (or_introl eq_refl))).
Defined.

End Translation.

(** ** The address of a fetched item ([fetchLatestTweet]) *)

Section CanonicalUrl.

(** C9: when [fetchLatestTweet] resolves to an item, its [url] is
    ["https://x.com/"], the username, ["/status/"] and the identifier the
    selector extracted, whatever the link of the feed item was. *)
Theorem fetchLatestTweet_url (E : Env) (username : string) (w : World)
    (l : Latest.t) :
  fst (fetchLatestTweet E username w) = Returned (Some l) ->
  Latest.url l = "https://x.com/" +:+ username +:+ "/status/" +:+ Latest.id l /\
  Latest.username l = username /\
  exists items item,
    parseURL E (buildNitterRssUrl E username) = Returned (Some items) /\
    pickLatestByStatusId items = Some (item, Latest.id l).
Proof.
  rewrite fetchLatestTweet_run. cbn [fst]. intros H.
  destruct (fetched_Some _ _ _ H) as (items & item & Hp & Hpick & Hu & Hurl & _).
  split; [exact Hurl|]. split; [exact Hu|]. now exists items, item.
Qed.

Lemma fetchLatestTweet_url_witness :
  let l := Latest.mk "A" "5" "https://x.com/A/status/5" "five" None in
  fst (fetchLatestTweet Scenario.crossEnv "A" world0) = Returned (Some l) /\
  parseURL Scenario.crossEnv "https://nitter.example/A/rss"
    = Returned (Some [Scenario.post "A" "5" "five"]) /\
  link (Scenario.post "A" "5" "five") = Some "https://nitter.example/A/status/5#m" /\
  Latest.url l = "https://x.com/" +:+ "A" +:+ "/status/" +:+ Latest.id l.
Proof.
  cbv zeta. split; [reflexivity|]. split; [reflexivity|]. split; [reflexivity|].
  exact (proj1 (fetchLatestTweet_url Scenario.crossEnv "A" world0 _ eq_refl)).
Defined.

End CanonicalUrl.

(** ** The polling interval *)

Section Interval.

Lemma digits2_pos_iter (p k : positive) :
  SpecFloat.digits2_pos (Pos.iter xO p k) = (SpecFloat.digits2_pos p + k)%positive.
Proof.
  induction k as [|k IH] using Pos.peano_ind.
  - cbn. now rewrite Pos.add_1_r.
  - rewrite Pos.iter_succ. cbn [SpecFloat.digits2_pos]. rewrite IH. lia.
Qed.

Lemma Zpos_iter_xO (p k : positive) :
  Z.pos (Pos.iter xO p k) = Z.pos p * 2 ^ Z.pos k.
Proof.
  induction k as [|k IH] using Pos.peano_ind.
  - cbn. lia.
  - rewrite Pos.iter_succ, (Pos2Z.inj_xO (Pos.iter xO p k)), IH, Pos2Z.inj_succ, Z.pow_succ_r by lia. lia.
Qed.

Lemma digits2_pos_bounds (p : positive) :
  2 ^ (Z.pos (SpecFloat.digits2_pos p) - 1) <= Z.pos p
    < 2 ^ Z.pos (SpecFloat.digits2_pos p).
Proof.
  induction p as [p IH|p IH|]; cbn [SpecFloat.digits2_pos]; [| |cbn; lia].
  - rewrite Pos2Z.inj_succ, (Pos2Z.inj_xI p), Z.pow_succ_r by lia.
    replace (Z.succ (Z.pos (SpecFloat.digits2_pos p)) - 1)
      with (Z.succ (Z.pos (SpecFloat.digits2_pos p) - 1)) by lia.
    rewrite Z.pow_succ_r by lia. lia.
  - rewrite Pos2Z.inj_succ, (Pos2Z.inj_xO p), Z.pow_succ_r by lia.
    replace (Z.succ (Z.pos (SpecFloat.digits2_pos p)) - 1)
      with (Z.succ (Z.pos (SpecFloat.digits2_pos p) - 1)) by lia.
    rewrite Z.pow_succ_r by lia. lia.
Qed.

(** A mantissa of 53 bits at an exponent within the range is kept as it is. *)
Lemma binary_round_aux_canonical (m : positive) (e : Z) :
  SpecFloat.digits2_pos m = 53%positive -> -1074 <= e <= 971 ->
  SpecFloat.binary_round_aux Num.prec Num.emax false (Z.pos m) e SpecFloat.loc_Exact
    = SpecFloat.S754_finite false m e.
Proof.
  intros Hd He. unfold SpecFloat.binary_round_aux, SpecFloat.shr_fexp.
  cbn [SpecFloat.Zdigits2 SpecFloat.shr_record_of_loc]. rewrite Hd.
  assert (Hf : SpecFloat.fexp Num.prec Num.emax (53 + e) - e = 0).
  { unfold SpecFloat.fexp, SpecFloat.emin, Num.prec, Num.emax. lia. }
  rewrite Hf. cbn [SpecFloat.shr SpecFloat.shr_m SpecFloat.loc_of_shr_record
                   SpecFloat.round_nearest_even SpecFloat.Zdigits2
                   SpecFloat.shr_record_of_loc].
  rewrite Hd, Hf. cbn [SpecFloat.shr SpecFloat.shr_m].
  replace (e <=? Num.emax - Num.prec) with true; [reflexivity|].
  symmetry. apply Z.leb_le. unfold Num.emax, Num.prec. lia.
Qed.

(** Up to [2^53] every integer is a double: the conversion is exact. *)
Lemma ofZ_exact (n : Z) : 0 <= n <= 2 ^ 53 -> Num.integerValue (Num.ofZ n) = Some n.
Proof.
  intros [H0 Hn]. destruct (Z.eq_dec n (2 ^ 53)) as [->|Hne]; [reflexivity|].
  destruct n as [|p|p]; [reflexivity| |lia].
  pose proof (digits2_pos_bounds p) as [Hlo Hhi].
  assert (Hd : Z.pos (SpecFloat.digits2_pos p) <= 53).
  { destruct (Z.le_gt_cases (Z.pos (SpecFloat.digits2_pos p)) 53) as [H|H]; [exact H|].
    assert (2 ^ 53 <= 2 ^ (Z.pos (SpecFloat.digits2_pos p) - 1))
      by (apply Z.pow_le_mono_r; lia).
    lia. }
  unfold Num.ofZ, SpecFloat.binary_normalize, SpecFloat.binary_round, SpecFloat.shl_align.
  assert (Hf : SpecFloat.fexp Num.prec Num.emax (Z.pos (SpecFloat.digits2_pos p) + 0) - 0
               = Z.pos (SpecFloat.digits2_pos p) - 53).
  { unfold SpecFloat.fexp, SpecFloat.emin, Num.prec, Num.emax. lia. }
  rewrite Hf.
  destruct (Z.pos (SpecFloat.digits2_pos p) - 53) as [|k|k] eqn:Hk; [|lia|].
  - rewrite binary_round_aux_canonical by lia.
    unfold Num.integerValue. cbn [Z.leb Z.compare].
    now rewrite Z.pow_0_r, Z.mul_1_r.
  - assert (Hfe : SpecFloat.fexp Num.prec Num.emax (Z.pos (SpecFloat.digits2_pos p) + 0)
                  = Z.neg k) by lia.
    rewrite Hfe.
    rewrite binary_round_aux_canonical.
    + unfold Num.integerValue. cbn [Z.leb Z.compare Z.opp].
      rewrite Zpos_iter_xO, Z.mod_mul, Z.eqb_refl by lia.
      now rewrite Z.div_mul by lia.
    + rewrite digits2_pos_iter. lia.
    + lia.
Qed.

Lemma startsWith_two_false (t : string) (a b : ascii) :
  Js.allDigits t = true -> Js.isDigit b = false ->
  Js.startsWith t (String a (String b "")) = false.
Proof.
  intros Ht Hb. destruct t as [|x [|y r]]; [reflexivity| |].
  - cbn. now destruct (Ascii.eqb a x).
  - cbn in *. destruct (Ascii.eqb a x); [|reflexivity].
    destruct (Ascii.eqb b y) eqn:E; [|reflexivity].
    apply Ascii.eqb_eq in E as <-. rewrite Hb in Ht.
    now rewrite andb_false_r in Ht.
Qed.

Lemma startsWith_one_false (t : string) (a : ascii) :
  Js.allDigits t = true -> Js.isDigit a = false ->
  Js.startsWith t (String a "") = false.
Proof.
  intros Ht Ha. destruct t as [|x r]; [reflexivity|].
  cbn in *. destruct (Ascii.eqb a x) eqn:E; [|reflexivity].
  apply Ascii.eqb_eq in E as <-. now rewrite Ha in Ht.
Qed.

Lemma allDigits_takeDigits (t : string) :
  Js.allDigits t = true -> takeDigits t = t /\ Num.dropDigits t = "".
Proof.
  induction t as [|c t IH]; [now split|]. cbn.
  intros [Hc Ht]%andb_true_iff. rewrite Hc. destruct (IH Ht) as [-> ->]. now split.
Qed.

(** [Number] of a run of decimal digits is the double nearest to the
    integer the digits spell. *)
Lemma StringToNumber_digits (s : string) :
  Js.truthy (Js.trim s) = true -> Js.allDigits (Js.trim s) = true ->
  Num.StringToNumber s = Num.ofZ (Js.BigInt (Js.trim s)).
Proof.
  intros Ht Hd. unfold Num.StringToNumber. rewrite Ht. cbn [negb].
  rewrite !(startsWith_two_false _ _ _ Hd) by reflexivity. cbn [orb].
  unfold Num.strDecimalLiteral, Num.sign.
  rewrite !(startsWith_one_false _ _ Hd) by reflexivity.
  replace (String.eqb (Js.trim s) "Infinity") with false.
  2:{ destruct (Js.trim s) as [|c r]; [reflexivity|]. cbn in Hd |- *.
      destruct (Ascii.eqb c "I") eqn:E; [|reflexivity].
      apply Ascii.eqb_eq in E as ->. discriminate Hd. }
  unfold Num.unsignedDecimal. destruct (allDigits_takeDigits _ Hd) as [-> ->].
  rewrite Ht. cbn [negb andb Num.exponentPart String.length].
  rewrite append_nil_r. unfold Num.ofDecimal, Num.ofZ. cbn [Z.leb Z.compare Z.sub Z.opp Z.of_nat Z.add].
  now rewrite Z.pow_0_r, Z.mul_1_r, Z.mul_1_l.
Qed.

(** C8, as the code has it: the delay handed to [setInterval] is 60000 when
    [RSS_INTERVAL_MS] is unset or empty, and otherwise what [Number] makes
    of the string. For a run of decimal digits, with or without white space
    around it, that is the double nearest to the number of milliseconds
    they spell: that number itself up to [2^53], a rounded one beyond
    (and [1e400] is infinite). Other literals are converted likewise. *)
Theorem clientReady_interval (v : option string) :
  clientReady v =
    Returned (match v with
              | Some s => if Js.truthy s then Num.StringToNumber s
                          else Num.ofZ 60000
              | None => Num.ofZ 60000
              end) /\
  Num.integerValue (Num.ofZ 60000) = Some 60000 /\
  (forall s, Js.truthy (Js.trim s) = true -> Js.allDigits (Js.trim s) = true ->
     let ms := Js.BigInt (Js.trim s) in
     clientReady (Some s) = Returned (Num.ofZ ms) /\
     (ms <= 2 ^ 53 -> Num.integerValue (Num.ofZ ms) = Some ms)) /\
  clientReady (Some "1500") = Returned (Num.ofZ 1500) /\
  clientReady (Some "2.5e3") = Returned (Num.ofZ 2500) /\
  clientReady (Some "0x3E8") = Returned (Num.ofZ 1000) /\
  clientReady (Some "9007199254740993") = Returned (Num.ofZ 9007199254740992) /\
  clientReady (Some "1e400") = Returned (Infinite false) /\
  clientReady (Some "1e-400") = Returned (Num.ofZ 0).
Proof.
  assert (Hgen : clientReady v =
    Returned (match v with
              | Some s => if Js.truthy s then Num.StringToNumber s
                          else Num.ofZ 60000
              | None => Num.ofZ 60000
              end)) by (destruct v as [[|c s]|]; reflexivity).
  split; [exact Hgen|]. split; [reflexivity|].
  split; [|repeat split; vm_compute; reflexivity].
  intros s Ht Hd ms. split.
  - assert (Hs : Js.truthy s = true) by (destruct s; [discriminate Ht | reflexivity]).
    unfold clientReady, startRssLoop, jsOr, envValue. cbn [isTruthy]. rewrite Hs.
    cbn. now rewrite StringToNumber_digits.
  - intros Hle. apply ofZ_exact. split; [|exact Hle].
    subst ms.
    assert (H : forall t acc, 0 <= acc -> Js.allDigits t = true -> 0 <= Js.bigIntFrom acc t).
    { clear. induction t as [|c t IH]; intros acc Hacc Hd; [exact Hacc|].
      cbn in *. apply andb_true_iff in Hd as [Hc Hd]. apply IH; [|exact Hd].
      unfold Js.digitValue, Js.isDigit in *. apply andb_true_iff in Hc as [Hc _].
      apply Nat.leb_le in Hc. lia. }
    apply (H (Js.trim s) 0); [lia | exact Hd].
Qed.

(** C8 as stated fails: a string that is not numeric gives [NaN], not
    60000. *)
Lemma interval_default_refuted :
  ~ (forall s : string, Num.StringToNumber s = NaN ->
       clientReady (Some s) = Returned (Num.ofZ 60000)).
Proof.
  intros H. specialize (H "abc" eq_refl). vm_compute in H. discriminate H.
Qed.

End Interval.

(** * Further properties of the code *)

(** ** Feed addresses ([buildNitterRssUrl]) *)

Section FeedAddress.

Lemma stripTrailingSlashes_slash (s : string) :
  stripTrailingSlashes (s +:+ "/") = stripTrailingSlashes s.
Proof.
  induction s as [|c s IH]; [reflexivity|].
  rewrite append_cons. cbn [stripTrailingSlashes]. now rewrite IH.
Qed.

Lemma stripTrailingSlashes_slashes (s : string) (k : nat) :
  stripTrailingSlashes (s +:+ slashes k) = stripTrailingSlashes s.
Proof.
  revert s; induction k as [|k IH]; intros s; cbn [slashes].
  - now rewrite append_nil_r.
  - change (String "/" (slashes k)) with ("/" +:+ slashes k).
    now rewrite <- append_assoc, IH, stripTrailingSlashes_slash.
Qed.

Lemma stripTrailingSlashes_fixed (s : string) :
  (forall p, s <> p +:+ "/") -> stripTrailingSlashes s = s.
Proof.
  induction s as [|c s IH]; intros H; [reflexivity|].
  cbn [stripTrailingSlashes]. rewrite IH.
  - destruct s; [|reflexivity].
    destruct (Ascii.eqb_spec c "/") as [->|_]; [|reflexivity].
    now destruct (H "").
  - intros p Hp. apply (H (String c p)). rewrite append_cons. now rewrite Hp.
Qed.

(** Trailing slashes of [NITTER_BASE] do not show in the feed address: with
    any number of them after a base that does not itself end in a slash,
    the address is the base, one slash, the encoded username and [/rss]. *)
Theorem buildNitterRssUrl_trailing_slashes (E : Env) (base : string) (k : nat)
    (username : string) :
  NITTER_BASE E = Some (base +:+ slashes k) ->
  (forall p, base <> p +:+ "/") ->
  buildNitterRssUrl E username
    = base +:+ "/" +:+ encodeURIComponent E username +:+ "/rss".
Proof.
  intros HE Hbase. unfold buildNitterRssUrl. rewrite HE. cbn [default from_option id].
  now rewrite stripTrailingSlashes_slashes, stripTrailingSlashes_fixed.
Qed.

Lemma stripTrailingSlashes_length (s : string) :
  (String.length (stripTrailingSlashes s) <= String.length s)%nat.
Proof.
  induction s as [|c s IH]; [reflexivity|]. cbn [stripTrailingSlashes].
  destruct (stripTrailingSlashes s) as [|d r].
  - destruct (Ascii.eqb c "/"); cbn; lia.
  - cbn in *. lia.
Qed.

Lemma stripTrailingSlashes_fixed_inv (s : string) :
  stripTrailingSlashes s = s -> forall p, s <> p +:+ "/".
Proof.
  intros H p ->. rewrite stripTrailingSlashes_slash in H.
  pose proof (stripTrailingSlashes_length p) as Hl. rewrite H in Hl.
  rewrite length_append in Hl. cbn in Hl. lia.
Qed.

Lemma buildNitterRssUrl_trailing_slashes_witness :
  NITTER_BASE Scenario.crossEnv = Some ("https://nitter.example" +:+ slashes 1) /\
  buildNitterRssUrl Scenario.crossEnv "A" = "https://nitter.example/A/rss".
Proof.
  split; [reflexivity|].
  exact (buildNitterRssUrl_trailing_slashes Scenario.crossEnv "https://nitter.example"
           1 "A" eq_refl (stripTrailingSlashes_fixed_inv _ eq_refl)).
Defined.

End FeedAddress.

(** ** Identifier extraction ([extractTweetIdFromLink]) *)

Section Extraction.

Lemma takeDigits_dropDigits (s : string) : s = takeDigits s +:+ Num.dropDigits s.
Proof.
  induction s as [|c s IH]; [reflexivity|]. cbn [takeDigits Num.dropDigits].
  destruct (Js.isDigit c); [|reflexivity]. rewrite append_cons. now rewrite <- IH.
Qed.

Lemma dropDigits_head (s : string) : headNotDigit (Num.dropDigits s) = true.
Proof.
  induction s as [|c s IH]; [reflexivity|]. cbn [Num.dropDigits].
  destruct (Js.isDigit c) eqn:E; [exact IH|]. cbn. now rewrite E.
Qed.

Lemma takeDigits_append (d r : string) :
  Js.allDigits d = true -> headNotDigit r = true -> takeDigits (d +:+ r) = d.
Proof.
  intros Hd Hr. induction d as [|c d IH].
  - rewrite append_nil_l. destruct r as [|c r]; [reflexivity|].
    cbn in Hr |- *. apply negb_true_iff in Hr. now rewrite Hr.
  - cbn in Hd. apply andb_true_iff in Hd as [Hc Hd]. rewrite append_cons.
    cbn [takeDigits]. rewrite Hc. now rewrite IH.
Qed.

Lemma matchStatus_unfold (s : string) :
  matchStatus s =
  match matchHere s with
  | Some d => Some d
  | None => match s with
            | String _ s' => matchStatus s'
            | EmptyString => None
            end
  end.
Proof. destruct s; reflexivity. Qed.

Lemma matchHere_Some (s d : string) :
  matchHere s = Some d <->
  exists r, s = "/status/" +:+ d +:+ r /\
    Js.truthy d = true /\ Js.allDigits d = true /\ headNotDigit r = true.
Proof.
  unfold matchHere. split.
  - destruct (Js.startsWith s "/status/") eqn:Hs; [|discriminate].
    apply startsWith_iff in Hs as [r ->].
    change (Js.drop 8 ("/status/" +:+ r)) with r.
    destruct (takeDigits r) as [|c d'] eqn:Ht; [discriminate|].
    intros [= <-]. exists (Num.dropDigits r). rewrite <- Ht.
    rewrite <- takeDigits_dropDigits. split; [reflexivity|].
    split; [now rewrite Ht|]. split; [apply takeDigits_allDigits | apply dropDigits_head].
  - intros (r & -> & Hne & Hd & Hr).
    assert (Hs : Js.startsWith ("/status/" +:+ d +:+ r) "/status/" = true)
      by (apply startsWith_iff; now exists (d +:+ r)).
    rewrite Hs. change (Js.drop 8 ("/status/" +:+ d +:+ r)) with (d +:+ r).
    rewrite takeDigits_append by assumption. now destruct d.
Qed.

Lemma matchHere_None (s : string) : matchHere s = None <-> ~ StatusAt s "".
Proof.
  split.
  - intros H (c & r & -> & Hc). rewrite append_nil_l in H.
    pose proof (takeDigits_dropDigits (String c r)) as Hsplit.
    assert (Hsome : matchHere ("/status/" +:+ String c r) = Some (takeDigits (String c r))).
    { apply matchHere_Some. exists (Num.dropDigits (String c r)).
      rewrite <- Hsplit. split; [reflexivity|].
      split; [cbn; now rewrite Hc|].
      split; [apply takeDigits_allDigits | apply dropDigits_head]. }
    congruence.
  - intros H. destruct (matchHere s) as [d|] eqn:E; [|reflexivity].
    apply matchHere_Some in E as (r & -> & Hne & Hd & _). destruct H.
    destruct d as [|c d]; [discriminate|]. exists c, (d +:+ r).
    rewrite append_nil_l, append_cons. split; [reflexivity|].
    cbn in Hd. now apply andb_true_iff in Hd as [? _].
Qed.

Lemma StatusAt_cons (c : ascii) (l pre : string) :
  StatusAt (String c l) (String c pre) <-> StatusAt l pre.
Proof.
  unfold StatusAt. split; intros (d & r & H & Hd); exists d, r; split; try exact Hd.
  - rewrite append_cons in H. now injection H.
  - rewrite append_cons. now rewrite H.
Qed.

Lemma extract_matchStatus (l : string) :
  extractTweetIdFromLink (Some l) = matchStatus l.
Proof. destruct l; reflexivity. Qed.

(** The identifier extracted from a link is the whole run of digits after
    the leftmost ["/status/"] that a digit follows, and every link of that
    shape gives it back. *)
Theorem extractTweetIdFromLink_leftmost (l i : string) :
  extractTweetIdFromLink (Some l) = Some i <->
  exists pre post,
    l = pre +:+ "/status/" +:+ i +:+ post /\
    Js.truthy i = true /\ Js.allDigits i = true /\ headNotDigit post = true /\
    forall pre', StatusAt l pre' -> (String.length pre <= String.length pre')%nat.
Proof.
  rewrite extract_matchStatus. split.
  - revert i. induction l as [|c l IH]; intros i; rewrite matchStatus_unfold.
    + destruct (matchHere "") as [d|] eqn:E; [|discriminate].
      apply matchHere_Some in E as (r & Hr & _). discriminate Hr.
    + destruct (matchHere (String c l)) as [d|] eqn:E.
      * intros [= ->]. apply matchHere_Some in E as (r & Hr & Hne & Hd & Hh).
        exists "", r. rewrite append_nil_l. repeat (split; [assumption|]).
        intros pre' _. cbn. lia.
      * intros H. destruct (IH _ H) as (pre & post & -> & Hne & Hd & Hh & Hmin).
        exists (String c pre), post. rewrite append_cons.
        repeat (split; [reflexivity || assumption|]).
        intros pre' Hat. destruct pre' as [|c' pre'].
        -- now apply matchHere_None in E.
        -- assert (c' = c) as ->.
           { destruct Hat as (? & ? & Heq & _). rewrite append_cons in Heq. now injection Heq. }
           apply StatusAt_cons in Hat. specialize (Hmin _ Hat). cbn. lia.
  - intros (pre & post & -> & Hne & Hd & Hh & Hmin).
    induction pre as [|c pre IH]; rewrite matchStatus_unfold.
    + rewrite append_nil_l.
      assert (E : matchHere ("/status/" +:+ i +:+ post) = Some i)
        by (apply matchHere_Some; now exists post).
      now rewrite E.
    + rewrite append_cons.
      assert (E : matchHere (String c (pre +:+ "/status/" +:+ i +:+ post)) = None).
      { apply matchHere_None. intros Hat. specialize (Hmin "").
        rewrite append_cons in Hmin. specialize (Hmin Hat). cbn in Hmin. lia. }
      rewrite E. apply IH. intros pre' Hat.
      specialize (Hmin (String c pre')). rewrite append_cons in Hmin.
      specialize (Hmin (proj2 (StatusAt_cons c _ _) Hat)). cbn in Hmin. lia.
Qed.

(** No identifier is extracted exactly when the link is absent (or not a
    string) or has no ["/status/"] that a digit follows. *)
Theorem extractTweetIdFromLink_none (link : option string) :
  extractTweetIdFromLink link = None <->
  forall l, link = Some l -> forall pre, ~ StatusAt l pre.
Proof.
  destruct link as [l|]; [|split; [discriminate | reflexivity]].
  rewrite extract_matchStatus. split.
  - intros H l' [= <-]. induction l as [|c l IH]; intros pre Hat;
      rewrite matchStatus_unfold in H.
    + destruct Hat as (d & r & Heq & _). apply (f_equal String.length) in Heq.
      rewrite !length_append in Heq. cbn in Heq. lia.
    + destruct (matchHere (String c l)) as [d|] eqn:E; [discriminate|].
      destruct pre as [|c' pre]; [now apply matchHere_None in E|].
      assert (c' = c) as ->.
      { destruct Hat as (? & ? & Heq & _). rewrite append_cons in Heq. now injection Heq. }
      apply StatusAt_cons in Hat. exact (IH H pre Hat).
  - intros H. specialize (H l eq_refl). induction l as [|c l IH];
      rewrite matchStatus_unfold.
    + assert (E : matchHere "" = None) by (apply matchHere_None; apply H).
      now rewrite E.
    + assert (E : matchHere (String c l) = None) by (apply matchHere_None; apply H).
      rewrite E. apply IH. intros pre Hat. apply (H (String c pre)).
      now apply StatusAt_cons.
Qed.

End Extraction.

(** ** The address of a fetched item gives back its identifier *)

Section UrlRoundTrip.

Lemma matchStatus_skip_char (c : ascii) (s : string) :
  matchHere (String c s) = None -> matchStatus (String c s) = matchStatus s.
Proof. intros H. rewrite matchStatus_unfold. now rewrite H. Qed.

Lemma matchHere_not_slash (c : ascii) (s : string) :
  Ascii.eqb c "/" = false -> matchHere (String c s) = None.
Proof.
  intros H. unfold matchHere. cbn [Js.startsWith].
  rewrite Ascii.eqb_sym in H. now rewrite H.
Qed.

Lemma matchStatus_skip_noSlash (u t : string) :
  noSlash u = true -> matchStatus (u +:+ t) = matchStatus t.
Proof.
  induction u as [|c u IH]; intros H; [reflexivity|].
  cbn in H. apply andb_true_iff in H as [Hc Hu]. apply negb_true_iff in Hc.
  rewrite append_cons, matchStatus_skip_char by (now apply matchHere_not_slash).
  now apply IH.
Qed.

(** Two strings cut at their first slash agree part by part. *)
Lemma first_slash_unique (a b x y : string) :
  noSlash a = true -> noSlash b = true ->
  a +:+ String "/" x = b +:+ String "/" y -> a = b /\ x = y.
Proof.
  revert b; induction a as [|c a IH]; intros b Ha Hb Heq.
  - destruct b as [|d b]; rewrite ?append_cons, ?append_nil_l in Heq.
    + injection Heq as ->. now split.
    + injection Heq as <- _. discriminate Hb.
  - destruct b as [|d b]; rewrite ?append_cons, ?append_nil_l in Heq.
    + injection Heq as -> _. discriminate Ha.
    + injection Heq as -> Heq. cbn in Ha, Hb.
      apply andb_true_iff in Ha as [_ Ha]. apply andb_true_iff in Hb as [_ Hb].
      destruct (IH b Ha Hb Heq) as [-> ->]. now split.
Qed.

Lemma matchHere_after_slash (u t : string) :
  noSlash u = true -> matchHere (String "/" (u +:+ "/status/" +:+ t)) = None.
Proof.
  intros Hu. apply matchHere_None. intros (c & r & Heq & Hc).
  rewrite append_nil_l in Heq.
  change ("/status/" +:+ String c r) with (String "/" ("status" +:+ String "/" (String c r))) in Heq.
  change ("/status/" +:+ t) with (String "/" ("status/" +:+ t)) in Heq.
  injection Heq as Heq.
  destruct (first_slash_unique u "status" _ _ Hu eq_refl Heq) as [_ Hx].
  change ("status/" +:+ t) with (String "s" ("tatus/" +:+ t)) in Hx.
  injection Hx as <- _. discriminate Hc.
Qed.

(** The address [fetchLatestTweet] builds carries the identifier it was
    built from: for a username without a slash, extracting the identifier
    from the [url] of a fetched item gives its [id]. *)
Theorem fetched_url_gives_id (E : Env) (username : string) (l : Latest.t) :
  fetched E username = Returned (Some l) ->
  noSlash username = true ->
  extractTweetIdFromLink (Some (Latest.url l)) = Some (Latest.id l).
Proof.
  intros Hf Hu. destruct (fetched_id_digits _ _ _ Hf) as [Hne Hd].
  destruct (fetched_Some _ _ _ Hf) as (_ & _ & _ & _ & _ & -> & _).
  rewrite extract_matchStatus.
  set (T := username +:+ "/status/" +:+ Latest.id l).
  change ("https://x.com/" +:+ T)
    with (String "h" (String "t" (String "t" (String "p" (String "s" (String ":"
         (String "/" (String "/" (String "x" (String "." (String "c" (String "o"
         (String "m" (String "/" T)))))))))))))).
  do 13 (rewrite matchStatus_skip_char by reflexivity).
  unfold T. rewrite matchStatus_skip_char by (now apply matchHere_after_slash).
  rewrite matchStatus_skip_noSlash by exact Hu.
  rewrite matchStatus_unfold.
  assert (E' : matchHere ("/status/" +:+ Latest.id l) = Some (Latest.id l)).
  { apply matchHere_Some. exists "". now rewrite append_nil_r. }
  now rewrite E'.
Qed.

Lemma fetched_url_gives_id_witness :
  fetched Scenario.crossEnv "B"
    = Returned (Some (Latest.mk "B" "10" "https://x.com/B/status/10" "ten" None)) /\
  noSlash "B" = true /\
  extractTweetIdFromLink (Some "https://x.com/B/status/10") = Some "10".
Proof.
  assert (Hf : fetched Scenario.crossEnv "B"
    = Returned (Some (Latest.mk "B" "10" "https://x.com/B/status/10" "ten" None)))
    by reflexivity.
  split; [exact Hf|]. split; [reflexivity|].
  exact (fetched_url_gives_id Scenario.crossEnv "B" _ Hf eq_refl).
Defined.

End UrlRoundTrip.

(** ** Priming as a baseline, and ticks on an unchanged feed *)

Section Baseline.

Lemma candidate_lookup (E : Env) (seen seen' : gmap string (option string)) (u : string) :
  seen' !! u = seen !! u -> candidate E seen' u = candidate E seen u.
Proof. intros H. unfold candidate, isNew, lastIdOf. now rewrite H. Qed.

(** A loop of [pollOnce] in which no identity passes the gates changes
    nothing and selects nothing. *)
Lemma poll_silent (E : Env) (us : list string) (seen : gmap string (option string)) :
  (forall u, u ∈ us -> candidate E seen u = None) ->
  pollSeen E us seen = seen /\ pollNew E us seen = [].
Proof.
  induction us as [|u us IH]; intros H; [now split|].
  cbn [pollSeen pollNew]. rewrite (H u) by (apply elem_of_cons; now left).
  cbn [record]. apply IH. intros u' Hu'. apply H. apply elem_of_cons. now right.
Qed.

Lemma providerCalls_fetch (E : Env) (us : list string) :
  providerCalls (concat (map (fetchEvents E) us)) = [].
Proof.
  unfold providerCalls. induction us as [|u us IH]; [reflexivity|].
  cbn [map concat]. rewrite omap_app, IH. unfold fetchEvents.
  now destruct (fetched E u).
Qed.

Lemma tick_silent (E : Env) (gs : GuildState) (w : World) :
  getGuildState E = Returned gs ->
  (forall u, u ∈ allUsernames gs -> candidate E (g_lastSeenTweetIdByUser w) u = None) ->
  g_lastSeenTweetIdByUser (snd (tick E w)) = g_lastSeenTweetIdByUser w /\
  exists tr, trace (snd (tick E w)) = trace w ++ tr /\
    notifications tr = [] /\ providerCalls tr = [].
Proof.
  intros Hgs Hnone. rewrite tick_run, Hgs. cbn [snd].
  destruct (poll_silent E _ _ Hnone) as [Hseen Hnew].
  cbn [g_lastSeenTweetIdByUser trace extend withSeen]. split; [exact Hseen|].
  exists (tickEvents E gs (g_lastSeenTweetIdByUser w)). split; [reflexivity|].
  rewrite notifications_tick. unfold tickEvents, selected. rewrite Hnew. cbn [fold_left].
  split; [reflexivity|]. rewrite app_nil_r. apply providerCalls_fetch.
Qed.

Lemma notifications_prime (E : Env) (us : list string) :
  notifications (concat (map (primeEvents E) us)) = [] /\
  providerCalls (concat (map (primeEvents E) us)) = [] /\
  requests (concat (map (primeEvents E) us)) = map (buildNitterRssUrl E) us.
Proof.
  unfold notifications, providerCalls, requests.
  induction us as [|u us (IH1 & IH2 & IH3)]; [now repeat split|].
  cbn [map concat]. rewrite !omap_app, IH1, IH2, IH3. unfold primeEvents.
  now destruct (fetched E u).
Qed.

Lemma priming_recorded (E : Env) (gs : GuildState) (w : World) (u : string) :
  getGuildState E = Returned gs ->
  u ∈ allUsernames gs ->
  g_lastSeenTweetIdByUser (snd (priming E w)) !! u =
  Some match fetched E u with
       | Returned latest => Latest.id <$> latest
       | Threw _ => None
       end.
Proof.
  intros Hgs Hu. rewrite priming_run, Hgs.
  cbn [snd g_lastSeenTweetIdByUser extend withSeen]. now apply primeSeen_in.
Qed.

(** Priming announces nothing: it returns normally, requests the feed of
    every identity of the snapshot once, in order, calls neither the
    delivery callback nor the translation provider, and leaves for each of
    these identities an entry holding its latest identifier, or [null] when
    its feed has no item or cannot be fetched. *)
Theorem priming_records_without_notifying (E : Env) (gs : GuildState) (w : World) :
  getGuildState E = Returned gs ->
  fst (priming E w) = Returned () /\
  (exists tr, trace (snd (priming E w)) = trace w ++ tr /\
     notifications tr = [] /\ providerCalls tr = [] /\
     requests tr = map (buildNitterRssUrl E) (allUsernames gs)) /\
  (forall u, u ∈ allUsernames gs ->
     g_lastSeenTweetIdByUser (snd (priming E w)) !! u =
     Some match fetched E u with
          | Returned latest => Latest.id <$> latest
          | Threw _ => None
          end) /\
  (forall u, u ∉ allUsernames gs ->
     g_lastSeenTweetIdByUser (snd (priming E w)) !! u
       = g_lastSeenTweetIdByUser w !! u).
Proof.
  intros Hgs. rewrite priming_run, Hgs. cbn [fst snd g_lastSeenTweetIdByUser trace extend withSeen].
  split; [reflexivity|]. split; [|split].
  - exists (concat (map (primeEvents E) (allUsernames gs))). split; [reflexivity|].
    apply notifications_prime.
  - intros u Hu. now apply primeSeen_in.
  - intros u Hu. now apply primeSeen_notin.
Qed.

Lemma priming_records_without_notifying_witness :
  getGuildState Scenario.primeEnv = Returned Scenario.guilds /\
  let w' := snd (priming Scenario.primeEnv world0) in
  g_lastSeenTweetIdByUser w' !! "A" = Some (Some "10") /\
  g_lastSeenTweetIdByUser w' !! "B" = Some None.
Proof.
  split; [reflexivity|].
  destruct (priming_records_without_notifying Scenario.primeEnv Scenario.guilds
              world0 eq_refl) as (_ & _ & Hin & _).
  cbv zeta.
  rewrite (Hin "A") by (apply list_elem_of_In; cbn; auto).
  rewrite (Hin "B") by (apply list_elem_of_In; cbn; auto).
  split; reflexivity.
Defined.

(** After priming, a tick that finds the feeds as priming found them
    announces nothing and leaves the seen-state as it is: the items present
    at start-up are not reported. The identities of the tick are among those
    primed, and each fetch gives what it gave at priming. *)
Theorem tick_after_priming_is_silent (E E' : Env) (gs gs' : GuildState) (w : World) :
  getGuildState E = Returned gs ->
  getGuildState E' = Returned gs' ->
  (forall u, u ∈ allUsernames gs' ->
     u ∈ allUsernames gs /\ fetched E' u = fetched E u) ->
  let w1 := snd (priming E w) in
  let w2 := snd (tick E' w1) in
  g_lastSeenTweetIdByUser w2 = g_lastSeenTweetIdByUser w1 /\
  exists tr, trace w2 = trace w1 ++ tr /\
    notifications tr = [] /\ providerCalls tr = [].
Proof.
  intros Hgs Hgs' Hsame w1 w2. subst w2. apply (tick_silent E' gs' w1 Hgs').
  intros u Hu. destruct (Hsame u Hu) as [Hin Hf].
  pose proof (priming_recorded E gs w u Hgs Hin) as Hrec. fold w1 in Hrec.
  destruct (fetched E u) as [[l|]|e] eqn:HfE.
  - now apply (candidate_recorded E' _ u l).
  - unfold candidate. now rewrite Hf.
  - unfold candidate. now rewrite Hf.
Qed.

Lemma tick_after_priming_is_silent_witness :
  getGuildState Scenario.primeEnv = Returned Scenario.guilds /\
  let w1 := snd (priming Scenario.primeEnv world0) in
  let w2 := snd (tick Scenario.primeEnv w1) in
  g_lastSeenTweetIdByUser w2 = g_lastSeenTweetIdByUser w1.
Proof.
  split; [reflexivity|].
  exact (proj1 (tick_after_priming_is_silent Scenario.primeEnv Scenario.primeEnv
                  Scenario.guilds Scenario.guilds world0 eq_refl eq_refl
                  (fun u Hu => conj Hu eq_refl))).
Defined.

(** A tick repeated against the same answers announces nothing the second
    time and leaves the seen-state as the first tick left it: what a tick
    has recorded is not reported again. *)
Theorem second_tick_is_silent (E : Env) (w : World) :
  let w1 := snd (tick E w) in
  let w2 := snd (tick E w1) in
  g_lastSeenTweetIdByUser w2 = g_lastSeenTweetIdByUser w1 /\
  exists tr, trace w2 = trace w1 ++ tr /\ notifications tr = [].
Proof.
  intros w1 w2. destruct (getGuildState E) as [gs|e] eqn:Hgs.
  - assert (Hnone : forall u, u ∈ allUsernames gs ->
                      candidate E (g_lastSeenTweetIdByUser w1) u = None).
    { intros u Hu. subst w1. rewrite tick_run, Hgs. cbn [snd g_lastSeenTweetIdByUser extend withSeen].
      pose proof (pollSeen_lookup E (allUsernames gs) (g_lastSeenTweetIdByUser w) u) as Hl.
      rewrite decide_True in Hl by exact Hu.
      destruct (candidate E (g_lastSeenTweetIdByUser w) u) as [l|] eqn:Hc.
      - apply candidate_Some in Hc as (Hf & _). now apply (candidate_recorded E _ u l).
      - now rewrite (candidate_lookup E _ _ u Hl). }
    destruct (tick_silent E gs w1 Hgs Hnone) as (Hseen & tr & Htr & Hn & _).
    split; [exact Hseen|]. now exists tr.
  - subst w2. rewrite (tick_run E w1), Hgs. cbn [snd g_lastSeenTweetIdByUser trace extend].
    split; [reflexivity|]. now exists [Error "[RSS] polling tick failed:"].
Qed.

End Baseline.

(** ** What a notification holds *)

Section Notification.

Lemma trimEnd_cons (c : ascii) (s : string) :
  Js.trimEnd (String c s) =
  match Js.trimEnd s with
  | EmptyString => if Js.isWhiteSpace c then EmptyString else String c EmptyString
  | r => String c r
  end.
Proof. reflexivity. Qed.

Lemma trimEnd_idempotent (s : string) : Js.trimEnd (Js.trimEnd s) = Js.trimEnd s.
Proof.
  induction s as [|c s IH]; [reflexivity|]. rewrite trimEnd_cons.
  destruct (Js.trimEnd s) as [|d r] eqn:E.
  - destruct (Js.isWhiteSpace c) eqn:Hc; [reflexivity|]. cbn. now rewrite Hc.
  - rewrite trimEnd_cons. now rewrite IH.
Qed.

Lemma trimStart_head (s : string) :
  match Js.trimStart s with
  | String c _ => Js.isWhiteSpace c = false
  | EmptyString => True
  end.
Proof.
  induction s as [|c s IH]; [exact I|]. cbn [Js.trimStart].
  destruct (Js.isWhiteSpace c) eqn:Hc; [exact IH | exact Hc].
Qed.

Lemma trimEnd_head (c : ascii) (s : string) :
  Js.isWhiteSpace c = false -> exists r, Js.trimEnd (String c s) = String c r.
Proof.
  intros Hc. cbn [Js.trimEnd]. destruct (Js.trimEnd s) as [|d r].
  - rewrite Hc. now exists "".
  - now exists (String d r).
Qed.

(** Trimming a trimmed string changes nothing. *)
Lemma trim_idempotent (s : string) : Js.trim (Js.trim s) = Js.trim s.
Proof.
  unfold Js.trim. pose proof (trimStart_head s) as Hh.
  destruct (Js.trimStart s) as [|c r] eqn:E; [reflexivity|].
  destruct (trimEnd_head c r Hh) as [r' Hr]. rewrite Hr.
  cbn [Js.trimStart]. rewrite Hh. rewrite <- Hr. apply trimEnd_idempotent.
Qed.

Lemma extractOriginalText_trimmed (it : Item) :
  Js.trim (extractOriginalText it) = extractOriginalText it.
Proof.
  unfold extractOriginalText. destruct (title it) as [t|]; [|reflexivity].
  destruct (negb (Js.truthy (Js.trim t))); [reflexivity|].
  destruct (negb (Js.indexOf (Js.trim t) "): " =? -1)); [apply trim_idempotent|].
  destruct (negb (Js.indexOf (Js.trim t) ": " =? -1)); apply trim_idempotent.
Qed.

Lemma pollOnce_notification_aux (E : Env) (us : list string) (w : World) (tw : Tweet.t) :
  fst (pollOnce E us w) = Returned (Some tw) ->
  Js.truthy (Tweet.originalText tw) = true /\
  Js.trim (Tweet.originalText tw) = Tweet.originalText tw /\
  Tweet.englishText tw = english E (Tweet.originalText tw).
Proof.
  rewrite pollOnce_run. cbv zeta.
  pose proof (poll_best_spec E us (g_lastSeenTweetIdByUser w)) as Hb.
  destruct (fold_left better _ None) as [b|]; [|discriminate].
  cbn [fst]. intros [= <-]. cbn [toTweet Tweet.originalText Tweet.englishText].
  destruct Hb as [(ub & Hub & Hc) _].
  apply candidate_Some in Hc as (Hf & Ht & _).
  destruct (fetched_Some _ _ _ Hf) as (items & item & _ & _ & _ & _ & Htext).
  split; [exact Ht|]. split; [|reflexivity].
  rewrite Htext. apply extractOriginalText_trimmed.
Qed.

Lemma pollOnce_result_facts (E : Env) (us : list string) (w : World) (tw : Tweet.t) :
  fst (pollOnce E us w) = Returned (Some tw) ->
  Tweet.username tw ∈ us /\
  Js.truthy (Tweet.originalText tw) = true /\
  Js.trim (Tweet.originalText tw) = Tweet.originalText tw /\
  Js.truthy (Tweet.id tw) = true /\ Js.allDigits (Tweet.id tw) = true /\
  Tweet.url tw = "https://x.com/" +:+ Tweet.username tw +:+ "/status/" +:+ Tweet.id tw /\
  g_lastSeenTweetIdByUser (snd (pollOnce E us w)) !! Tweet.username tw
    = Some (Some (Tweet.id tw)).
Proof.
  rewrite pollOnce_run. cbv zeta.
  pose proof (poll_best_spec E us (g_lastSeenTweetIdByUser w)) as Hb.
  destruct (fold_left better _ None) as [b|]; [|discriminate].
  cbn [fst snd]. intros [= <-]. cbn [toTweet Tweet.username Tweet.originalText
    Tweet.id Tweet.url g_lastSeenTweetIdByUser extend withSeen].
  destruct Hb as [(ub & Hub & Hc) _].
  pose proof (candidate_username _ _ _ _ Hc) as Hu. rewrite Hu.
  pose proof Hc as Hc'. apply candidate_Some in Hc' as (Hf & Ht & _).
  destruct (fetched_Some _ _ _ Hf) as (items & item & _ & _ & _ & Hurl & Htext).
  destruct (fetched_id_digits _ _ _ Hf) as [Hne Hd].
  split; [exact Hub|]. split; [exact Ht|].
  split; [rewrite Htext; apply extractOriginalText_trimmed|].
  split; [exact Hne|]. split; [exact Hd|]. split; [exact Hurl|].
  now rewrite pollSeen_lookup, decide_True, Hc by exact Hub.
Qed.

(** A notification built by [pollOnce] is for an identity of the list it
    polled, has a text that is not empty and has no white space around it,
    an identifier made of digits, the address built from its identity and
    identifier, and its identifier is the one recorded for its identity when
    [pollOnce] returns. *)
Theorem pollOnce_notification (E : Env) (us : list string) (w : World) (tw : Tweet.t) :
  fst (pollOnce E us w) = Returned (Some tw) ->
  Tweet.username tw ∈ us /\
  Js.truthy (Tweet.originalText tw) = true /\
  Js.trim (Tweet.originalText tw) = Tweet.originalText tw /\
  Js.truthy (Tweet.id tw) = true /\ Js.allDigits (Tweet.id tw) = true /\
  Tweet.url tw = "https://x.com/" +:+ Tweet.username tw +:+ "/status/" +:+ Tweet.id tw /\
  g_lastSeenTweetIdByUser (snd (pollOnce E us w)) !! Tweet.username tw
    = Some (Some (Tweet.id tw)).
Proof. exact (pollOnce_result_facts E us w tw). Qed.

Lemma pollOnce_notification_witness :
  let r := pollOnce Scenario.crossEnv ["A"; "B"] (Scenario.started Scenario.crossSeen) in
  fst r = Returned (Some (Tweet.mk "B" "10" "https://x.com/B/status/10" "ten" "ten" None)) /\
  g_lastSeenTweetIdByUser (snd r) !! "B" = Some (Some "10").
Proof.
  assert (H : fst (pollOnce Scenario.crossEnv ["A"; "B"] (Scenario.started Scenario.crossSeen))
    = Returned (Some (Tweet.mk "B" "10" "https://x.com/B/status/10" "ten" "ten" None)))
    by reflexivity.
  split; [exact H|].
  exact (proj2 (proj2 (proj2 (proj2 (proj2 (proj2
    (pollOnce_notification Scenario.crossEnv ["A"; "B"]
       (Scenario.started Scenario.crossSeen) _ H))))))).
Defined.

(** Without a translation provider the English text of a notification is
    its original text, character for character; the same holds when the
    text is wholly a URL, whatever the provider. *)
Theorem pollOnce_untranslated (E : Env) (us : list string) (w : World) (tw : Tweet.t) :
  fst (pollOnce E us w) = Returned (Some tw) ->
  deeplTranslator E = None \/ isBareUrl (Tweet.originalText tw) = true ->
  Tweet.englishText tw = Tweet.originalText tw.
Proof.
  intros H Hp. destruct (pollOnce_notification_aux E us w tw H) as (Ht & Htrim & Heng).
  rewrite Heng, english_cases. cbv zeta. rewrite Htrim, Ht. cbn [negb].
  destruct Hp as [Hp|Hp]; [|now rewrite Hp].
  rewrite Hp. now destruct (isBareUrl _).
Qed.

Lemma pollOnce_untranslated_witness :
  let tw := Tweet.mk "B" "10" "https://x.com/B/status/10" "ten" "ten" None in
  fst (pollOnce Scenario.crossEnv ["A"; "B"] (Scenario.started Scenario.crossSeen))
    = Returned (Some tw) /\
  deeplTranslator Scenario.crossEnv = None /\
  Tweet.englishText tw = Tweet.originalText tw.
Proof.
  cbv zeta.
  assert (H : fst (pollOnce Scenario.crossEnv ["A"; "B"] (Scenario.started Scenario.crossSeen))
    = Returned (Some (Tweet.mk "B" "10" "https://x.com/B/status/10" "ten" "ten" None)))
    by reflexivity.
  split; [exact H|]. split; [reflexivity|].
  exact (pollOnce_untranslated Scenario.crossEnv ["A"; "B"]
           (Scenario.started Scenario.crossSeen) _ H (or_introl eq_refl)).
Defined.

End Notification.

(** ** The store ([db.js]) *)

Section Store.

Lemma lexLeb_total (key : ascii -> nat) (a b : string) :
  Db.lexLeb key a b = true \/ Db.lexLeb key b a = true.
Proof.
  revert b; induction a as [|x a IH]; intros b; [now left|].
  destruct b as [|y b]; [now right|]. cbn [Db.lexLeb].
  destruct (Nat.ltb_spec (key x) (key y)) as [H|H]; [now left|].
  destruct (Nat.ltb_spec (key y) (key x)) as [H'|H']; [now right|].
  assert (E : key x = key y) by lia.
  rewrite E, Nat.eqb_refl. apply IH.
Qed.

Lemma lexLeb_trans (key : ascii -> nat) (a b c : string) :
  Db.lexLeb key a b = true -> Db.lexLeb key b c = true -> Db.lexLeb key a c = true.
Proof.
  revert b c; induction a as [|x a IH]; intros b c Hab Hbc; [reflexivity|].
  destruct b as [|y b]; [discriminate|]. destruct c as [|z c]; [discriminate|].
  cbn [Db.lexLeb] in *.
  destruct (Nat.ltb_spec (key x) (key y)) as [H1|H1];
  destruct (Nat.ltb_spec (key y) (key z)) as [H2|H2];
  destruct (Nat.ltb_spec (key x) (key z)) as [H3|H3];
    try reflexivity; try lia.
  - destruct (Nat.eqb_spec (key y) (key z)); [lia | discriminate].
  - destruct (Nat.eqb_spec (key x) (key y)); [lia | discriminate].
  - destruct (Nat.eqb_spec (key x) (key y)) as [E1|]; [|discriminate].
    destruct (Nat.eqb_spec (key y) (key z)) as [E2|]; [|discriminate].
    rewrite E1, E2, Nat.eqb_refl. now apply (IH b c).
Qed.

#[local] Instance rowLe_total : Total Db.rowLe.
Proof.
  intros a b. unfold Db.rowLe, Db.rowLeb, Db.nocaseLeb, Db.binaryLeb.
  destruct (lexLeb_total (fun c => nat_of_ascii (lower c)) a b) as [H|H]; rewrite H.
  - destruct (Db.lexLeb _ b a); [|now left]. apply lexLeb_total.
  - destruct (Db.lexLeb _ a b); [|now right]. apply lexLeb_total.
Qed.

#[local] Instance rowLe_transitive : Transitive Db.rowLe.
Proof.
  intros a b c. unfold Db.rowLe, Db.rowLeb, Db.nocaseLeb, Db.binaryLeb.
  set (n := Db.lexLeb (fun c => nat_of_ascii (lower c))).
  destruct (n a b) eqn:Hab; [|discriminate].
  destruct (n b c) eqn:Hbc; [|discriminate].
  assert (Hac : n a c = true) by exact (lexLeb_trans _ a b c Hab Hbc).
  rewrite Hac. destruct (n c a) eqn:Hca; [|reflexivity].
  assert (Hba : n b a = true) by exact (lexLeb_trans _ b c a Hbc Hca).
  assert (Hcb : n c b = true) by exact (lexLeb_trans _ c a b Hca Hab).
  rewrite Hba, Hcb. apply lexLeb_trans.
Qed.

(** The weights compared are the code units: the order is the one of
    [String.compare]. *)
Lemma lexLeb_compare (f : ascii -> ascii) (a b : string) :
  Db.lexLeb (fun c => nat_of_ascii (f c)) a b =
  match String.compare (mapChars f a) (mapChars f b) with
  | Gt => false
  | _ => true
  end.
Proof.
  revert b; induction a as [|x a IH]; intros [|y b]; try reflexivity.
  cbn [Db.lexLeb mapChars String.compare]. unfold Ascii.compare.
  rewrite N2Nat.inj_compare. fold (nat_of_ascii (f x)) (nat_of_ascii (f y)).
  destruct (Nat.compare_spec (nat_of_ascii (f x)) (nat_of_ascii (f y))) as [E|L|G].
  - rewrite E, Nat.ltb_irrefl, Nat.eqb_refl. apply IH.
  - apply Nat.ltb_lt in L. now rewrite L.
  - destruct (Nat.ltb_spec (nat_of_ascii (f x)) (nat_of_ascii (f y))); [lia|].
    destruct (Nat.eqb_spec (nat_of_ascii (f x)) (nat_of_ascii (f y))); [lia | reflexivity].
Qed.

Lemma mapChars_id (s : string) : mapChars (fun c => c) s = s.
Proof. induction s as [|c s IH]; [reflexivity|]. cbn. now rewrite IH. Qed.

Lemma rowLe_before (x y : string) : Db.rowLe x y -> x <> y -> before x y.
Proof.
  unfold Db.rowLe, Db.rowLeb, Db.nocaseLeb, Db.binaryLeb, before. intros H Hne.
  rewrite !(lexLeb_compare lower) in H. fold (foldCase x) (foldCase y) in H.
  change nat_of_ascii with (fun c => nat_of_ascii ((fun c => c) c)) in H.
  rewrite (lexLeb_compare (fun c => c)), !mapChars_id in H.
  rewrite (String.compare_antisym (foldCase y) (foldCase x)) in H.
  destruct (String.compare (foldCase x) (foldCase y)); cbn in H; [|now left|discriminate].
  right. split; [reflexivity|].
  destruct (String.compare x y) eqn:E; [|reflexivity|discriminate].
  now apply String.compare_eq_iff in E.
Qed.

Lemma sorted_before (l : list string) :
  StronglySorted Db.rowLe l -> NoDup l -> StronglySorted before l.
Proof.
  induction 1 as [|x l Hs IH Hall]; intros Hnd; [constructor|].
  apply NoDup_cons in Hnd as [Hnin Hnd]. constructor; [now apply IH|].
  apply Forall_forall. intros y Hy. apply rowLe_before.
  - rewrite Forall_forall in Hall. now apply Hall.
  - intros ->. contradiction.
Qed.

Lemma listTrackedAccounts_perm (g : string) (db : Db.t) :
  Db.listTrackedAccounts g db ≡ₚ
  snd <$> filter (fun r => fst r = g) (elements (Db.tracked_account db)).
Proof. apply merge_sort_Permutation. Qed.

Lemma listTrackedAccounts_elem (g u : string) (db : Db.t) :
  u ∈ Db.listTrackedAccounts g db <-> (g, u) ∈ Db.tracked_account db.
Proof.
  rewrite listTrackedAccounts_perm, list_elem_of_fmap. split.
  - intros ([g' u'] & -> & [Hg Hin]%list_elem_of_filter). cbn in Hg. subst g'.
    now apply elem_of_elements in Hin.
  - intros H. exists (g, u). split; [reflexivity|].
    apply list_elem_of_filter. split; [reflexivity | now apply elem_of_elements].
Qed.

Lemma listTrackedAccounts_NoDup (g : string) (db : Db.t) :
  NoDup (Db.listTrackedAccounts g db).
Proof.
  rewrite listTrackedAccounts_perm. apply NoDup_fmap_2_strong.
  - intros [g1 u1] [g2 u2] [H1 _]%list_elem_of_filter [H2 _]%list_elem_of_filter Hs.
    cbn in *. congruence.
  - apply NoDup_filter, NoDup_elements.
Qed.

(** [listTrackedAccounts] lists exactly the usernames tracked for the
    guild, each once, in the order of [COLLATE NOCASE]: of two names
    listed, the one whose case-folded form is smaller in the order of the
    code units comes first, and of two names with the same case-folded
    form the one that is itself smaller. So [ABC], [Abc], [abc] come in
    this order, before [B] and [b], whatever the order of insertion. *)
Theorem listTrackedAccounts_sorted_set (g : string) (db : Db.t) :
  (forall u, u ∈ Db.listTrackedAccounts g db <-> (g, u) ∈ Db.tracked_account db) /\
  NoDup (Db.listTrackedAccounts g db) /\
  StronglySorted before (Db.listTrackedAccounts g db) /\
  Db.listTrackedAccounts "g1" Wiring.cased = ["ABC"; "Abc"; "abc"; "B"; "b"].
Proof.
  split; [intros u; apply listTrackedAccounts_elem|].
  split; [apply listTrackedAccounts_NoDup|]. split.
  - apply sorted_before; [|apply listTrackedAccounts_NoDup].
    apply StronglySorted_merge_sort; apply _.
  - vm_compute. reflexivity.
Qed.

Lemma store_consistent_facts (db : Db.t) (g u c : string) :
  Db.consistent db ->
  Db.consistent Db.empty /\
  Db.consistent (Db.setGuildNewsChannel g c db) /\
  Db.consistent (Db.setGuildPingRole g c db) /\
  (forall r db', Db.addTrackedAccount g u db = Returned (r, db') -> Db.consistent db') /\
  Db.consistent (snd (Db.removeTrackedAccount g u db)) /\
  Db.consistent (snd (Db.deleteGuildData g db)).
Proof.
  intros H. unfold Db.consistent in *. repeat split.
  - intros g' u' Hin. cbn in Hin. set_solver.
  - intros g' u' Hin. cbn in *. destruct (decide (g = g')) as [->|Hne].
    + rewrite lookup_insert_eq. eauto.
    + rewrite lookup_insert_ne by exact Hne. eauto.
  - intros g' u' Hin. cbn in *. destruct (decide (g = g')) as [->|Hne].
    + rewrite lookup_insert_eq. eauto.
    + rewrite lookup_insert_ne by exact Hne. eauto.
  - intros r db'. unfold Db.addTrackedAccount. case_bool_decide.
    + intros [= <- <-]. exact H.
    + destruct (Db.guild_config db !! g) eqn:Hg; [|discriminate].
      intros [= <- <-] g' u' Hin. cbn in *.
      apply elem_of_union in Hin as [Hin|Hin]; [|eauto].
      apply elem_of_singleton in Hin as [= -> ->]. eauto.
  - unfold Db.removeTrackedAccount. case_bool_decide; cbn; [|exact H].
    intros g' u' Hin. apply elem_of_difference in Hin as [Hin _]. eauto.
  - unfold Db.deleteGuildData. destruct (Db.guild_config db !! g) eqn:Hg; cbn; [|exact H].
    intros g' u' Hin. apply elem_of_filter in Hin as [Hne Hin]. cbn in Hne.
    rewrite lookup_delete_ne by congruence. eauto.
Qed.

(** The operations keep every tracked row attached to a configured guild,
    from the empty store on. *)
Theorem store_stays_consistent (db : Db.t) (g u c : string) :
  Db.consistent db ->
  Db.consistent Db.empty /\
  Db.consistent (Db.setGuildNewsChannel g c db) /\
  Db.consistent (Db.setGuildPingRole g c db) /\
  (forall r db', Db.addTrackedAccount g u db = Returned (r, db') -> Db.consistent db') /\
  Db.consistent (snd (Db.removeTrackedAccount g u db)) /\
  Db.consistent (snd (Db.deleteGuildData g db)).
Proof. exact (store_consistent_facts db g u c). Qed.

Lemma store_consistent_channel (db : Db.t) (g v : string) :
  Db.consistent db -> Db.consistent (Db.setGuildNewsChannel g v db).
Proof.
  intros H. now destruct (store_consistent_facts db g "" v H) as (_ & ? & _).
Qed.

Lemma store_consistent_role (db : Db.t) (g v : string) :
  Db.consistent db -> Db.consistent (Db.setGuildPingRole g v db).
Proof.
  intros H. now destruct (store_consistent_facts db g "" v H) as (_ & _ & ? & _).
Qed.

Lemma store_consistent_add (db db' : Db.t) (g u : string) (r : bool) :
  Db.consistent db -> Db.addTrackedAccount g u db = Returned (r, db') ->
  Db.consistent db'.
Proof.
  intros H Hadd. destruct (store_consistent_facts db g u "" H) as (_ & _ & _ & Ha & _).
  exact (Ha _ _ Hadd).
Qed.

Lemma store_consistent_delete (db : Db.t) (g : string) :
  Db.consistent db -> Db.consistent (snd (Db.deleteGuildData g db)).
Proof.
  intros H. now destruct (store_consistent_facts db g "" "" H) as (_ & _ & _ & _ & _ & ?).
Qed.

Lemma consistent_empty : Db.consistent Db.empty.
Proof. intros g u Hin. cbn in Hin. set_solver. Qed.

Lemma consistent_store : Db.consistent Wiring.store.
Proof.
  intros g u Hin. unfold Wiring.store in *. cbn [Db.tracked_account Db.guild_config] in *.
  apply elem_of_union in Hin as [Hin|Hin];
    [apply elem_of_union in Hin as [Hin|Hin]|];
    apply elem_of_singleton in Hin as [= -> ->]; vm_compute; eauto.
Qed.

Lemma store_stays_consistent_witness :
  Db.consistent Wiring.store /\
  Db.consistent (Db.setGuildPingRole "g3" "r3" Wiring.store) /\
  (forall r db', Db.addTrackedAccount "g1" "B" Wiring.store = Returned (r, db') ->
     Db.consistent db') /\
  Db.consistent (snd (Db.removeTrackedAccount "g2" "B" Wiring.store)) /\
  Db.consistent (snd (Db.deleteGuildData "g2" Wiring.store)) /\
  ("g2", "A") ∈ Db.tracked_account (snd (Db.removeTrackedAccount "g2" "B" Wiring.store)) /\
  ("g1", "A") ∈ Db.tracked_account (snd (Db.deleteGuildData "g2" Wiring.store)).
Proof.
  split; [exact consistent_store|].
  destruct (store_stays_consistent Wiring.store "g3" "u" "r3" consistent_store)
    as (_ & _ & Hrole & _).
  destruct (store_stays_consistent Wiring.store "g1" "B" "c" consistent_store)
    as (_ & _ & _ & Hadd & _).
  destruct (store_stays_consistent Wiring.store "g2" "B" "c" consistent_store)
    as (_ & _ & _ & _ & Hrem & Hdel).
  split; [exact Hrole|]. split; [exact Hadd|]. split; [exact Hrem|]. split; [exact Hdel|].
  split; vm_compute; reflexivity.
Defined.

Lemma addTrackedAccount_facts (g u : string) (db : Db.t) :
  is_Some (Db.guild_config db !! g) ->
  exists db',
    Db.addTrackedAccount g u db
      = Returned (negb (bool_decide ((g, u) ∈ Db.tracked_account db)), db') /\
    Db.guild_config db' = Db.guild_config db /\
    (forall r, r ∈ Db.tracked_account db' <-> r = (g, u) \/ r ∈ Db.tracked_account db) /\
    (forall x, x ∈ Db.listTrackedAccounts g db' <->
               x = u \/ x ∈ Db.listTrackedAccounts g db) /\
    Db.addTrackedAccount g u db' = Returned (false, db').
Proof.
  intros [row Hrow]. unfold Db.addTrackedAccount. rewrite Hrow.
  case_bool_decide as Hin; cbn [negb].
  - exists db. split; [reflexivity|]. split; [reflexivity|]. split; [|split].
    + intros r. split; [now right | now intros [->|?]].
    + intros x. rewrite !listTrackedAccounts_elem. split; [now right | now intros [->|?]].
    + now rewrite bool_decide_eq_true_2.
  - eexists. split; [reflexivity|]. cbn. split; [reflexivity|]. split; [|split].
    + intros r. rewrite elem_of_union, elem_of_singleton. reflexivity.
    + intros x. rewrite !listTrackedAccounts_elem. cbn.
      rewrite elem_of_union, elem_of_singleton. split.
      * intros [[= ->]|?]; auto.
      * intros [->|?]; auto.
    + rewrite bool_decide_eq_true_2; [reflexivity|].
      apply elem_of_union. left. now apply elem_of_singleton.
Qed.

(** In a configured guild [addTrackedAccount] returns [true] exactly when
    the username was not tracked yet; afterwards it is tracked, nothing else
    has changed, and adding it again returns [false] and changes nothing. *)
Theorem addTrackedAccount_adds_once (g u : string) (db : Db.t) :
  is_Some (Db.guild_config db !! g) ->
  exists db',
    Db.addTrackedAccount g u db
      = Returned (negb (bool_decide ((g, u) ∈ Db.tracked_account db)), db') /\
    Db.guild_config db' = Db.guild_config db /\
    (forall r, r ∈ Db.tracked_account db' <-> r = (g, u) \/ r ∈ Db.tracked_account db) /\
    (forall x, x ∈ Db.listTrackedAccounts g db' <->
               x = u \/ x ∈ Db.listTrackedAccounts g db) /\
    Db.addTrackedAccount g u db' = Returned (false, db').
Proof. exact (addTrackedAccount_facts g u db). Qed.

Lemma addTrackedAccount_adds_once_witness :
  let db := Db.setGuildNewsChannel "g1" "c1" Db.empty in
  is_Some (Db.guild_config db !! "g1") /\
  exists db', Db.addTrackedAccount "g1" "shu1aso" db = Returned (true, db') /\
              Db.addTrackedAccount "g1" "shu1aso" db' = Returned (false, db').
Proof.
  cbv zeta.
  assert (H : is_Some (Db.guild_config (Db.setGuildNewsChannel "g1" "c1" Db.empty) !! "g1"))
    by (cbn; rewrite lookup_insert_eq; eauto).
  split; [exact H|].
  destruct (addTrackedAccount_adds_once "g1" "shu1aso" _ H) as (db' & Hadd & _ & _ & _ & Hagain).
  exists db'. split; [|exact Hagain]. rewrite Hadd.
  now rewrite bool_decide_eq_false_2 by (cbn; set_solver).
Defined.

(** In a guild that has no configuration row [addTrackedAccount] throws
    (the foreign key fails): an account cannot be added before the guild is
    set up. *)
Theorem addTrackedAccount_unconfigured_throws (g u : string) (db : Db.t) :
  Db.consistent db ->
  Db.guild_config db !! g = None ->
  Db.addTrackedAccount g u db = Threw "FOREIGN KEY constraint failed".
Proof.
  intros Hc Hg. unfold Db.addTrackedAccount. rewrite Hg.
  rewrite bool_decide_eq_false_2; [reflexivity|].
  intros Hin. destruct (Hc g u Hin) as [row Hrow]. congruence.
Qed.

Lemma addTrackedAccount_unconfigured_throws_witness :
  Db.consistent Db.empty /\
  Db.guild_config Db.empty !! "g1" = None /\
  Db.addTrackedAccount "g1" "shu1aso" Db.empty = Threw "FOREIGN KEY constraint failed".
Proof.
  split; [exact consistent_empty|]. split; [reflexivity|].
  exact (addTrackedAccount_unconfigured_throws "g1" "shu1aso" Db.empty
           consistent_empty eq_refl).
Defined.

Lemma store_eq (a b : Db.t) :
  Db.guild_config a = Db.guild_config b ->
  Db.tracked_account a = Db.tracked_account b -> a = b.
Proof. destruct a, b. cbn. now intros -> ->. Qed.

Lemma add_remove_facts (g u : string) (db db' : Db.t) :
  Db.addTrackedAccount g u db = Returned (true, db') ->
  Db.removeTrackedAccount g u db' = (true, db) /\
  Db.removeTrackedAccount g u db = (false, db).
Proof.
  unfold Db.addTrackedAccount. case_bool_decide as Hin; [discriminate|].
  destruct (Db.guild_config db !! g); [|discriminate].
  intros [= <-]. unfold Db.removeTrackedAccount. cbn. split.
  - rewrite bool_decide_eq_true_2
      by (apply elem_of_union; left; now apply elem_of_singleton).
    f_equal. apply store_eq; cbn; [reflexivity|]. apply set_eq. intros r.
    rewrite elem_of_difference, elem_of_union, elem_of_singleton. split.
    + now intros [[->|?] ?].
    + intros Hr. split; [now right | congruence].
  - now rewrite bool_decide_eq_false_2.
Qed.



(** The two configuration upserts each write their own column: setting
    the news channel keeps the ping role (or gives a new row the default
    ['everyone']), setting the ping role keeps the channel (or gives a new
    row the empty channel); neither touches another guild nor the tracked
    accounts. *)
Theorem config_upserts (g g' v : string) (db : Db.t) :
  Db.getGuildNewsChannel g (Db.setGuildNewsChannel g v db) = Some v /\
  Db.getGuildPingRole g (Db.setGuildNewsChannel g v db)
    = Some (default "everyone" (Db.getGuildPingRole g db)) /\
  Db.getGuildPingRole g (Db.setGuildPingRole g v db) = Some v /\
  Db.getGuildNewsChannel g (Db.setGuildPingRole g v db)
    = Some (default "" (Db.getGuildNewsChannel g db)) /\
  (g' <> g ->
     Db.getGuildConfig g' (Db.setGuildNewsChannel g v db) = Db.getGuildConfig g' db /\
     Db.getGuildConfig g' (Db.setGuildPingRole g v db) = Db.getGuildConfig g' db) /\
  Db.tracked_account (Db.setGuildNewsChannel g v db) = Db.tracked_account db /\
  Db.tracked_account (Db.setGuildPingRole g v db) = Db.tracked_account db.
Proof.
  unfold Db.getGuildNewsChannel, Db.getGuildPingRole, Db.getGuildConfig,
    Db.setGuildNewsChannel, Db.setGuildPingRole. cbn.
  rewrite !lookup_insert_eq.
  repeat split; try (now destruct (Db.guild_config db !! g)).
  - now rewrite lookup_insert_ne by congruence.
  - now rewrite lookup_insert_ne by congruence.
Qed.

Lemma deleteGuildData_facts (g : string) (db : Db.t) :
  Db.consistent db ->
  let '(n, db') := Db.deleteGuildData g db in
  n = (if bool_decide (is_Some (Db.getGuildConfig g db)) then 1 else 0) /\
  Db.getGuildConfig g db' = None /\
  Db.listTrackedAccounts g db' = [] /\
  forall g', g' <> g ->
    Db.getGuildConfig g' db' = Db.getGuildConfig g' db /\
    forall u, u ∈ Db.listTrackedAccounts g' db' <-> u ∈ Db.listTrackedAccounts g' db.
Proof.
  intros Hc. unfold Db.deleteGuildData, Db.getGuildConfig.
  assert (Hempty : forall d : Db.t, (forall u, (g, u) ∉ Db.tracked_account d) ->
                                   Db.listTrackedAccounts g d = []).
  { intros d Hd. destruct (Db.listTrackedAccounts g d) as [|x l] eqn:E; [reflexivity|].
    destruct (Hd x). apply listTrackedAccounts_elem. rewrite E. apply elem_of_cons. now left. }
  destruct (Db.guild_config db !! g) as [row|] eqn:Hg.
  - rewrite bool_decide_eq_true_2 by eauto. split; [reflexivity|]. cbn.
    split; [apply lookup_delete_eq|]. split.
    + apply Hempty. intros u Hin. cbn in Hin. apply elem_of_filter in Hin as [Hne _].
      now apply Hne.
    + intros g' Hne. split; [now apply lookup_delete_ne|].
      intros u. rewrite !listTrackedAccounts_elem. cbn. rewrite elem_of_filter. cbn.
      split; [now intros [_ ?] | now split].
  - rewrite bool_decide_eq_false_2 by (intros [? ?]; congruence).
    split; [reflexivity|]. split; [exact Hg|]. split.
    + apply Hempty. intros u Hin. destruct (Hc g u Hin) as [? ?]. congruence.
    + intros g' _. split; reflexivity.
Qed.

(** [deleteGuildData] returns 1 for a configured guild and 0 otherwise;
    afterwards the guild has no configuration and, in a consistent store,
    no tracked account; the other guilds keep their configuration and
    their accounts. *)
Theorem deleteGuildData_cascades (g : string) (db : Db.t) :
  Db.consistent db ->
  let '(n, db') := Db.deleteGuildData g db in
  n = (if bool_decide (is_Some (Db.getGuildConfig g db)) then 1 else 0) /\
  Db.getGuildConfig g db' = None /\
  Db.listTrackedAccounts g db' = [] /\
  forall g', g' <> g ->
    Db.getGuildConfig g' db' = Db.getGuildConfig g' db /\
    forall u, u ∈ Db.listTrackedAccounts g' db' <-> u ∈ Db.listTrackedAccounts g' db.
Proof. exact (deleteGuildData_facts g db). Qed.

Lemma deleteGuildData_cascades_witness :
  Db.consistent Wiring.store /\
  Db.listTrackedAccounts "g2" Wiring.store = ["A"; "B"] /\
  let '(n, db') := Db.deleteGuildData "g2" Wiring.store in
  n = 1 /\
  Db.getGuildConfig "g2" db' = None /\
  Db.listTrackedAccounts "g2" db' = [] /\
  Db.getGuildNewsChannel "g1" db' = Some "c1" /\
  Db.listTrackedAccounts "g1" db' = ["A"].
Proof.
  split; [exact consistent_store|]. split; [vm_compute; reflexivity|].
  pose proof (deleteGuildData_cascades "g2" Wiring.store consistent_store) as H.
  destruct (Db.deleteGuildData "g2" Wiring.store) as [n db'] eqn:E.
  destruct H as (Hn & Hcfg & Hlist & _).
  split; [rewrite Hn; vm_compute; reflexivity|].
  split; [exact Hcfg|]. split; [exact Hlist|].
  vm_compute in E. injection E as _ <-. split; vm_compute; reflexivity.
Defined.

End Store.

(** ** The snapshot of subscriptions ([getGuildState]) *)

Section Snapshot.

Lemma setAdd_elem (all : list string) (u x : string) :
  x ∈ Index.setAdd all u <-> x ∈ all \/ x = u.
Proof.
  unfold Index.setAdd. case_bool_decide as H.
  - split; [now left | now intros [?| ->]].
  - rewrite elem_of_app, list_elem_of_singleton. reflexivity.
Qed.

Lemma setAdd_NoDup (all : list string) (u : string) :
  NoDup all -> NoDup (Index.setAdd all u).
Proof.
  intros H. unfold Index.setAdd. case_bool_decide as Hin; [exact H|].
  apply NoDup_app. split; [exact H|]. split; [|apply NoDup_singleton].
  intros x Hx ->%list_elem_of_singleton. contradiction.
Qed.

Lemma fold_setAdd (accounts all : list string) :
  (NoDup all -> NoDup (fold_left Index.setAdd accounts all)) /\
  forall x, x ∈ fold_left Index.setAdd accounts all <-> x ∈ all \/ x ∈ accounts.
Proof.
  revert all; induction accounts as [|u accounts IH]; intros all.
  - cbn. split; [auto|]. intros x. split; [now left | intros [?|H]; [assumption | inversion H]].
  - cbn [fold_left]. destruct (IH (Index.setAdd all u)) as [IHn IHe]. split.
    + intros H. apply IHn. now apply setAdd_NoDup.
    + intros x. rewrite IHe, setAdd_elem, elem_of_cons. tauto.
Qed.

Lemma mapSet_keys (k : string) (v : list string) (m : list (string * list string))
    (x : string) :
  x ∈ (Index.mapSet k v m).*1 <-> x = k \/ x ∈ m.*1.
Proof.
  induction m as [|[k0 v0] m IH]; cbn [Index.mapSet].
  - cbn. rewrite list_elem_of_singleton. split; [now left | intros [?|H]; [assumption | inversion H]].
  - destruct (String.eqb_spec k0 k) as [->|Hne]; cbn [fmap list_fmap fst].
    + rewrite !elem_of_cons. tauto.
    + rewrite !elem_of_cons. fold (fmap (M := list) (@fst string (list string))). rewrite IH. tauto.
Qed.

Lemma mapSet_NoDup (k : string) (v : list string) (m : list (string * list string)) :
  NoDup m.*1 -> NoDup (Index.mapSet k v m).*1.
Proof.
  induction m as [|[k0 v0] m IH]; cbn [Index.mapSet]; intros H.
  - cbn. apply NoDup_singleton.
  - cbn in H. apply NoDup_cons in H as [Hnin Hnd].
    destruct (String.eqb_spec k0 k) as [->|Hne]; cbn.
    + apply NoDup_cons. now split.
    + apply NoDup_cons. split; [|now apply IH].
      intros [?|?]%mapSet_keys; [congruence | contradiction].
Qed.

Lemma mapSet_elem (k : string) (v : list string) (m : list (string * list string))
    (k' : string) (v' : list string) :
  NoDup m.*1 ->
  (k', v') ∈ Index.mapSet k v m <->
  (k' = k /\ v' = v) \/ (k' <> k /\ (k', v') ∈ m).
Proof.
  induction m as [|[k0 v0] m IH]; cbn [Index.mapSet]; intros H.
  - rewrite list_elem_of_singleton. split.
    + intros [= -> ->]. now left.
    + intros [[-> ->]|[_ Hin]]; [reflexivity | inversion Hin].
  - cbn in H. apply NoDup_cons in H as [Hnin Hnd].
    destruct (String.eqb_spec k0 k) as [->|Hne]; rewrite !elem_of_cons.
    + split.
      * intros [[= -> ->]|Hin]; [now left|]. right. split; [|now right].
        intros ->. apply Hnin. apply list_elem_of_fmap. now exists (k, v').
      * intros [[-> ->]|[Hk [[= -> ->]|Hin]]]; [now left | congruence | now right].
    + rewrite (IH Hnd). split.
      * intros [[= -> ->]|[[-> ->]|[Hk Hin]]]; [right; split; [exact Hne | now left] | now left |].
        right. split; [exact Hk | now right].
      * intros [[-> ->]|[Hk [[= -> ->]|Hin]]]; [right; now left | now left |].
        right. right. now split.
Qed.

Lemma getGuildStateLoop_spec (refs : list (Outcome string)) (db : Db.t)
    (gm : list (string * list string)) (all : list string) (gs : GuildState) :
  snapshotInv db gm all ->
  Index.getGuildStateLoop refs db gm all = Returned gs ->
  snapshotInv db (guildMap gs) (allUsernames gs) /\
  (forall g, g ∈ (guildMap gs).*1 <-> g ∈ gm.*1 \/ Returned g ∈ refs).
Proof.
  revert gm all; induction refs as [|r refs IH]; intros gm all Hinv; cbn [Index.getGuildStateLoop].
  - intros [= <-]. cbn. split; [exact Hinv|]. intros g. split; [now left|].
    intros [?|H]; [assumption | inversion H].
  - destruct r as [g0|e]; [|discriminate]. intros Hloop.
    destruct Hinv as (Hnd & Hkeys & Hall & Hlist).
    set (accounts := Db.listTrackedAccounts g0 db) in *.
    assert (Hinv' : snapshotInv db (Index.mapSet g0 accounts gm)
                      (fold_left Index.setAdd accounts all)).
    { destruct (fold_setAdd accounts all) as [Hn He]. split; [now apply Hn|].
      split; [now apply mapSet_NoDup|]. split.
      - intros u. rewrite He, Hall. split.
        + intros [(g & l & Hin & Hu)|Hu].
          * destruct (decide (g = g0)) as [->|Hne].
            -- exists g0, accounts. rewrite mapSet_elem by exact Hkeys.
               split; [now left|]. rewrite (Hlist _ _ Hin) in Hu. exact Hu.
            -- exists g, l. rewrite mapSet_elem by exact Hkeys. split; [now right | exact Hu].
          * exists g0, accounts. rewrite mapSet_elem by exact Hkeys. split; [now left | exact Hu].
        + intros (g & l & Hin & Hu). apply mapSet_elem in Hin as [[-> ->]|[_ Hin]];
            [now right | left; eauto | exact Hkeys].
      - intros g l Hin. apply mapSet_elem in Hin as [[-> ->]|[_ Hin]];
          [reflexivity | now apply Hlist | exact Hkeys]. }
    destruct (IH _ _ Hinv' Hloop) as [Hfinal Hk]. split; [exact Hfinal|].
    intros g. rewrite Hk, mapSet_keys, elem_of_cons. split.
    + intros [[->|?]|?]; [right; now left | now left | right; now right].
    + intros [?|[[= ->]|?]]; [left; now right | left; now left | now right].
Qed.

Lemma getGuildState_facts (client : Index.Client) (db : Db.t) (gs : GuildState) :
  Index.getGuildState client db = Returned gs ->
  NoDup (allUsernames gs) /\
  NoDup (guildMap gs).*1 /\
  (forall u, u ∈ allUsernames gs <-> exists g l, (g, l) ∈ guildMap gs /\ u ∈ l) /\
  (forall g l, (g, l) ∈ guildMap gs -> l = Db.listTrackedAccounts g db) /\
  (forall u, u ∈ allUsernames gs <->
     exists g, g ∈ (guildMap gs).*1 /\ (g, u) ∈ Db.tracked_account db) /\
  exists guilds, Index.guildsFetch client = Returned guilds /\
    forall g, g ∈ (guildMap gs).*1 <-> Returned g ∈ guilds.
Proof.
  unfold Index.getGuildState. destruct (Index.guildsFetch client) as [guilds|e]; [|discriminate].
  intros Hloop.
  assert (Hinv0 : snapshotInv db [] []).
  { split; [constructor|]. split; [constructor|]. split.
    - intros u. split; [intros H; inversion H | intros (? & ? & H & _); inversion H].
    - intros g l H. inversion H. }
  destruct (getGuildStateLoop_spec _ _ _ _ _ Hinv0 Hloop) as [(Hnd & Hk & Hall & Hlist) Hkeys].
  split; [exact Hnd|]. split; [exact Hk|]. split; [exact Hall|]. split; [exact Hlist|]. split.
  - intros u. rewrite Hall. split.
    + intros (g & l & Hin & Hu). exists g. split.
      * apply list_elem_of_fmap. now exists (g, l).
      * apply listTrackedAccounts_elem. now rewrite <- (Hlist _ _ Hin).
    + intros (g & [[g' l] [Hg Hin]]%list_elem_of_fmap & Ht). cbn in Hg. subst g'.
      exists g, l. split; [exact Hin|]. rewrite (Hlist _ _ Hin).
      now apply listTrackedAccounts_elem.
  - exists guilds. split; [reflexivity|]. intros g. rewrite Hkeys. split.
    + intros [H|?]; [inversion H | assumption].
    + now right.
Qed.

(** The snapshot [getGuildState] resolves to: one entry per guild fetched,
    holding the accounts the store lists for it; the usernames are those of
    the entries, each once. Every identity polled is thus tracked by some
    tenant of the snapshot, and every tracked identity is polled. *)
Theorem getGuildState_snapshot (client : Index.Client) (db : Db.t) (gs : GuildState) :
  Index.getGuildState client db = Returned gs ->
  NoDup (allUsernames gs) /\
  NoDup (guildMap gs).*1 /\
  (forall u, u ∈ allUsernames gs <-> exists g l, (g, l) ∈ guildMap gs /\ u ∈ l) /\
  (forall g l, (g, l) ∈ guildMap gs -> l = Db.listTrackedAccounts g db) /\
  (forall u, u ∈ allUsernames gs <->
     exists g, g ∈ (guildMap gs).*1 /\ (g, u) ∈ Db.tracked_account db) /\
  exists guilds, Index.guildsFetch client = Returned guilds /\
    forall g, g ∈ (guildMap gs).*1 <-> Returned g ∈ guilds.
Proof. exact (getGuildState_facts client db gs). Qed.

End Snapshot.

(** ** Delivery to a tenant ([notifyGuild]) and the wired loop *)

Section Delivery.

Lemma getGuildState_snapshot_witness :
  Index.getGuildState Wiring.client Wiring.store
    = Returned {| guildMap := [("g1", ["A"]); ("g2", ["A"; "B"])];
                  allUsernames := ["A"; "B"] |} /\
  NoDup ["A"; "B"].
Proof.
  assert (H : Index.getGuildState Wiring.client Wiring.store
    = Returned {| guildMap := [("g1", ["A"]); ("g2", ["A"; "B"])];
                  allUsernames := ["A"; "B"] |}) by (vm_compute; reflexivity).
  split; [exact H|].
  exact (proj1 (getGuildState_snapshot Wiring.client Wiring.store _ H)).
Defined.

Lemma sendsWell_skip (ch : Index.Channel) : sendsWell ch Index.skip.
Proof. intros m H. inversion H. Qed.

Lemma sendsWell_send1 (ch : Index.Channel) (m : Index.Message) :
  sendsWell ch (Index.send1 ch m).
Proof.
  unfold Index.send1, sendsWell. destruct (Index.send ch m) as [[]|e] eqn:E.
  - now intros m' ->%list_elem_of_singleton.
  - exists [], m. split; [reflexivity|]. split; [exact E|]. intros m' H. inversion H.
Qed.

Lemma sendsWell_andThen (ch : Index.Channel) (a b : Outcome unit * list Index.Message) :
  sendsWell ch a -> sendsWell ch b -> sendsWell ch (Index.andThen a b).
Proof.
  destruct a as [[[]|ea] sa], b as [[[]|eb] sb]; cbn; intros Ha Hb; try exact Ha.
  - intros m [?|?]%elem_of_app; auto.
  - destruct Hb as (sent' & m & -> & Hm & Hs). exists (sa ++ sent'), m.
    split; [now rewrite app_assoc|]. split; [exact Hm|].
    intros m' [?|?]%elem_of_app; auto.
Qed.

(** [notifyGuild] throws only when a send throws. With no usable channel
    (no row for the guild, an empty channel id, a fetch of the channel that
    fails or gives nothing, a channel that is not text-based) it returns
    without sending, whatever the channel would answer. Otherwise the
    channel id is not empty, the channel was fetched and is text-based;
    when it returns, every message given to the channel was sent, and
    there is one at least; when it throws, every message before the last
    was sent and the error is the one of the last send. *)
Theorem notifyGuild_throws_only_on_send (client : Index.Client) (db : Db.t)
    (g : string) (tweet : Tweet.t) :
  let usable (c : string) (ch : Index.Channel) :=
    Db.getGuildNewsChannel g db = Some c /\ Js.truthy c = true /\
    Index.channelsFetch client c = Returned (Some ch) /\
    Index.isTextBased ch = true in
  ((Db.getGuildNewsChannel g db = None \/
    Db.getGuildNewsChannel g db = Some "" \/
    (exists c, Db.getGuildNewsChannel g db = Some c /\
       ((exists e, Index.channelsFetch client c = Threw e) \/
        Index.channelsFetch client c = Returned None \/
        exists ch, Index.channelsFetch client c = Returned (Some ch) /\
                   Index.isTextBased ch = false))) ->
   Index.notifyGuild client db g tweet = (Returned (), [])) /\
  match Index.notifyGuild client db g tweet with
  | (Returned _, sent) =>
      sent = [] /\ (forall c ch, ~ usable c ch) \/
      exists c ch, usable c ch /\ sent <> [] /\
        forall m, m ∈ sent -> Index.send ch m = Returned ()
  | (Threw e, sent) =>
      exists c ch sent' m, usable c ch /\
        sent = sent' ++ [m] /\ Index.send ch m = Threw e /\
        forall m', m' ∈ sent' -> Index.send ch m' = Returned ()
  end.
Proof.
  intros usable. subst usable. cbv beta. split.
  - unfold Index.notifyGuild.
    intros [H|[H|(c & H & [(e & Hf)|[Hf|(ch & Hf & Ht)]])]]; rewrite H; try reflexivity;
      (destruct (negb (Js.truthy c)); [reflexivity|]); rewrite Hf; try reflexivity.
    now rewrite Ht.
  - unfold Index.notifyGuild.
    destruct (Db.getGuildNewsChannel g db) as [c|]; [|left; split; [reflexivity|]].
    2:{ intros c ch (H & _); discriminate H. }
    destruct (Js.truthy c) eqn:Hc; cbn [negb].
    2:{ left. split; [reflexivity|]. intros c' ch ([= <-] & H & _). congruence. }
    destruct (Index.channelsFetch client c) as [[ch|]|e0] eqn:Hch.
    2:{ left. split; [reflexivity|]. intros c' ch ([= <-] & _ & H & _). congruence. }
    2:{ left. split; [reflexivity|]. intros c' ch ([= <-] & _ & H & _). congruence. }
    destruct (Index.isTextBased ch) eqn:Htext; cbn [negb].
    2:{ left. split; [reflexivity|]. intros c' ch' ([= <-] & _ & H & H'). congruence. }
    match goal with
    | |- match ?r with _ => _ end =>
        assert (Hw : sendsWell ch r);
        [ repeat apply sendsWell_andThen;
          repeat match goal with
                 | |- sendsWell _ (if ?b then _ else _) => destruct b
                 end;
          (apply sendsWell_send1 || apply sendsWell_skip)
        | assert (Hne : snd r <> []);
          [ | destruct r as [[[]|e] sent] ] ]
    end.
    + unfold Index.andThen, Index.send1, Index.skip.
      destruct (Js.truthy (Index.formatPing _)); cbn [fst snd app];
        destruct (Index.send ch (Index.Content _)) as [[]|?]; cbn [fst snd app];
        try discriminate;
        destruct (Index.send ch (Index.Embeds _)) as [[]|?]; cbn [fst snd app];
        try discriminate;
        destruct (Js.truthy (Tweet.url tweet)); cbn [fst snd app]; discriminate.
    + right. exists c, ch. now repeat split.
    + destruct Hw as (sent' & m & -> & Hm & Hsent). exists c, ch, sent', m. now repeat split.
Qed.

Lemma formatPing_formatPingRole (p : string) :
  Js.truthy p = true -> Index.formatPing (Some p) = Commands.formatPingRole p.
Proof. intros H. unfold Index.formatPing, Commands.formatPingRole. now rewrite H. Qed.

(** The messages a notification of [pollOnce] gives rise to in a tenant
    whose channel is usable and accepts them: the ping when a ping role is
    stored, then the embed, whose original text is the text of the item
    (never the placeholder) and whose translated text is the translation or
    the placeholder ["(empty)"], then the address of the item. *)
Theorem notification_messages (E : Env) (us : list string) (w : World) (tw : Tweet.t)
    (client : Index.Client) (db : Db.t) (g c : string) (ch : Index.Channel) :
  fst (pollOnce E us w) = Returned (Some tw) ->
  Db.getGuildNewsChannel g db = Some c ->
  Js.truthy c = true ->
  Index.channelsFetch client c = Returned (Some ch) ->
  Index.isTextBased ch = true ->
  (forall m, Index.send ch m = Returned ()) ->
  let ping := Index.formatPing (Db.getGuildPingRole g db) in
  Index.notifyGuild client db g tw =
    (Returned (),
     (if Js.truthy ping then [Index.Content ping] else [])
     ++ [Index.Embeds
           {| Index.description := "@" +:+ Tweet.username tw +:+ " posted!";
              Index.originalValue := Tweet.originalText tw;
              Index.translatedValue :=
                if Js.truthy (Tweet.englishText tw)
                then Tweet.englishText tw else "(empty)" |};
         Index.Content (Tweet.url tw)]).
Proof.
  intros Hp Hc Hne Hch Htext Hsend ping.
  destruct (pollOnce_result_facts E us w tw Hp) as (_ & Ht & _ & _ & _ & Hurl & _).
  unfold Index.notifyGuild. rewrite Hc, Hne, Hch, Htext. cbn [negb]. fold ping.
  rewrite Ht, Hurl. cbn [Js.truthy]. unfold Index.andThen, Index.send1, Index.skip.
  rewrite !Hsend. destruct (Js.truthy ping); cbn [fst snd]; now rewrite ?Hsend.
Qed.

Lemma notification_messages_witness :
  let tw := Tweet.mk "B" "10" "https://x.com/B/status/10" "ten" "ten" None in
  fst (pollOnce Scenario.crossEnv ["A"; "B"] (Scenario.started Scenario.crossSeen))
    = Returned (Some tw) /\
  Db.getGuildNewsChannel "g2" Wiring.store = Some "c2" /\
  Index.notifyGuild Wiring.client Wiring.store "g2" tw =
    (Returned (),
     [Index.Content "<@&r2>";
      Index.Embeds {| Index.description := "@B posted!";
                      Index.originalValue := "ten";
                      Index.translatedValue := "ten" |};
      Index.Content "https://x.com/B/status/10"]).
Proof.
  cbv zeta.
  assert (Hp : fst (pollOnce Scenario.crossEnv ["A"; "B"] (Scenario.started Scenario.crossSeen))
    = Returned (Some (Tweet.mk "B" "10" "https://x.com/B/status/10" "ten" "ten" None)))
    by reflexivity.
  assert (Hc : Db.getGuildNewsChannel "g2" Wiring.store = Some "c2") by (vm_compute; reflexivity).
  split; [exact Hp|]. split; [exact Hc|].
  rewrite (notification_messages Scenario.crossEnv ["A"; "B"]
             (Scenario.started Scenario.crossSeen) _ Wiring.client Wiring.store
             "g2" "c2" Wiring.textChannel Hp Hc eq_refl eq_refl eq_refl
             (fun _ => eq_refl)).
  vm_compute. reflexivity.
Defined.

Lemma reached_head (E : Env) (tweet : Tweet.t) (gs : list string) :
  match gs with
  | [] => reached E tweet gs = []
  | g :: _ => exists rest, reached E tweet gs = g :: rest
  end.
Proof. destruct gs as [|g gs]; [reflexivity|]. cbn. eauto. Qed.

Lemma reached_subset (E : Env) (tweet : Tweet.t) (gs : list string) (g : string) :
  g ∈ reached E tweet gs -> g ∈ gs.
Proof.
  induction gs as [|g0 gs IH]; [intros H; inversion H|]. cbn [reached].
  intros [->|H]%elem_of_cons; [apply elem_of_cons; now left|].
  apply elem_of_cons. right. destruct (notifyGuild E g0 tweet); [now apply IH | inversion H].
Qed.

(** In the loop as [index.js] wires it, an identity of the snapshot with a
    new item is never polled in vain: the tick hands one notification to at
    least one tenant, and every tenant it is handed to tracks the identity
    of that notification in the store. *)
Theorem new_item_reaches_a_tracking_tenant (E : Env) (client : Index.Client)
    (db : Db.t) (gs : GuildState) (w : World) (u : string) (l : Latest.t) :
  let W := wired E client db in
  Index.getGuildState client db = Returned gs ->
  u ∈ allUsernames gs ->
  candidate W (g_lastSeenTweetIdByUser w) u = Some l ->
  exists tr g tw rest,
    trace (snd (tick W w)) = trace w ++ tr /\
    notifications tr = (g, tw) :: rest /\
    forall g' tw', (g', tw') ∈ notifications tr ->
      tw' = tw /\ (g', Tweet.username tw) ∈ Db.tracked_account db.
Proof.
  intros W Hgs Hu Hc.
  assert (HW : getGuildState W = Returned gs) by exact Hgs.
  rewrite tick_run, HW. cbn [snd trace extend withSeen].
  exists (tickEvents W gs (g_lastSeenTweetIdByUser w)).
  rewrite notifications_tick. unfold selected.
  pose proof (poll_best_spec W (allUsernames gs) (g_lastSeenTweetIdByUser w)) as Hb.
  destruct (fold_left better _ None) as [b|]; [|rewrite (Hb u Hu) in Hc; discriminate].
  destruct Hb as [(ub & Hub & Hcb) _].
  pose proof (candidate_username _ _ _ _ Hcb) as Hname. rewrite Hname.
  destruct (getGuildState_facts client db gs Hgs) as (_ & _ & Hall & Hlist & _).
  destruct (proj1 (Hall ub) Hub) as (g0 & l0 & Hin0 & Hu0).
  assert (Hsub : g0 ∈ subscribers (guildMap gs) ub) by (apply subscribers_elem; eauto).
  pose proof (reached_head W (notified W b) (subscribers (guildMap gs) ub)) as Hhead.
  destruct (subscribers (guildMap gs) ub) as [|g1 tenants] eqn:Htenants; [inversion Hsub|].
  destruct Hhead as [rest Hrest]. rewrite Hrest. cbn [map].
  exists g1, (notified W b), (map (fun g => (g, notified W b)) rest).
  split; [reflexivity|]. split; [reflexivity|].
  intros g' tw' Hin.
  assert (Hin' : (g', tw') ∈ map (fun g => (g, notified W b)) (g1 :: rest)) by exact Hin.
  apply list_elem_of_fmap in Hin' as (g2 & [= -> ->] & Hg2). split; [reflexivity|].
  rewrite <- Hrest in Hg2. apply reached_subset in Hg2. rewrite <- Htenants in Hg2.
  apply subscribers_elem in Hg2 as (l2 & Hin2 & Hu2).
  cbn [notified toTweet Tweet.username]. rewrite Hname.
  apply listTrackedAccounts_elem. now rewrite <- (Hlist _ _ Hin2).
Qed.

Lemma new_item_reaches_a_tracking_tenant_witness :
  Index.getGuildState Wiring.client Wiring.store
    = Returned {| guildMap := [("g1", ["A"]); ("g2", ["A"; "B"])];
                  allUsernames := ["A"; "B"] |} /\
  exists tr g tw rest,
    trace (snd (tick Wiring.env (Scenario.started Scenario.crossSeen)))
      = trace (Scenario.started Scenario.crossSeen) ++ tr /\
    notifications tr = (g, tw) :: rest.
Proof.
  assert (H : Index.getGuildState Wiring.client Wiring.store
    = Returned {| guildMap := [("g1", ["A"]); ("g2", ["A"; "B"])];
                  allUsernames := ["A"; "B"] |}) by (vm_compute; reflexivity).
  split; [exact H|].
  destruct (new_item_reaches_a_tracking_tenant Scenario.crossEnv Wiring.client
              Wiring.store _ (Scenario.started Scenario.crossSeen) "B"
              (Latest.mk "B" "10" "https://x.com/B/status/10" "ten" None) H)
    as (tr & g & tw & rest & Htr & Hn & _).
  - apply elem_of_cons. right. apply elem_of_cons. now left.
  - vm_compute. reflexivity.
  - exists tr, g, tw, rest. now split.
Defined.

End Delivery.

(** ** The slash commands ([commands.js]) *)

Section SlashCommands.

Lemma trim_fixed_trimEnd (h : string) : Js.trim h = h -> Js.trimEnd h = h.
Proof.
  intros H. rewrite <- H at 1. unfold Js.trim. rewrite trimEnd_idempotent. exact H.
Qed.

(** A handle given with or without its leading [@] is stored under the same
    name: for a name with no white space around it and no [@] in front,
    [normalizeUsername] returns the name in both cases. *)
Theorem normalizeUsername_at (h : string) :
  Js.trim h = h ->
  Js.startsWith h "@" = false ->
  Commands.normalizeUsername h = h /\
  Commands.normalizeUsername ("@" +:+ h) = h.
Proof.
  intros Ht Hat. unfold Commands.normalizeUsername. rewrite Ht, Hat. split; [reflexivity|].
  assert (E : Js.trim ("@" +:+ h) = "@" +:+ h).
  { change ("@" +:+ h) with (String "@" h). unfold Js.trim. cbn [Js.trimStart].
    change (Js.isWhiteSpace "@") with false. cbn iota.
    rewrite trimEnd_cons, (trim_fixed_trimEnd h Ht). now destruct h. }
  rewrite E. change ("@" +:+ h) with (String "@" h).
  cbn [Js.startsWith]. unfold Js.slice. cbn [String.length].
  change (1 <? 0) with false. cbn iota.
  rewrite Z.min_l by lia. reflexivity.
Qed.

Lemma normalizeUsername_at_witness :
  Js.trim "jane" = "jane" /\ Js.startsWith "jane" "@" = false /\
  Commands.normalizeUsername "jane" = "jane" /\
  Commands.normalizeUsername ("@" +:+ "jane") = "jane".
Proof.
  split; [reflexivity|]. split; [reflexivity|].
  exact (normalizeUsername_at "jane" eq_refl eq_refl).
Defined.

Lemma roleToPingRole_truthy (g r : string) :
  Js.truthy r = true -> Js.truthy (Commands.roleToPingRole g r) = true.
Proof. intros H. unfold Commands.roleToPingRole. now destruct (String.eqb r g). Qed.

(** [/setup] in a guild with a text channel never fails in the store: it
    leaves the guild with that channel and with the ping target of the
    role, [everyone] when the role is the one of the guild itself (its id
    is the id of the guild) and the id of the role otherwise; [shu1aso] is
    tracked and so is every account tracked before. The reply announces
    the ping target as [@everyone] or as the mention of the role, which is
    how [notifyGuild] will write it. It ends as its reply ends. *)
Theorem handleSetup_configures (i : Commands.Interaction) (db : Db.t) :
  Commands.inGuild i = true ->
  Commands.channelIsTextBased i = true ->
  Js.truthy (Commands.roleId i) = true ->
  let g := Commands.guildId i in
  let pingRole :=
    if String.eqb (Commands.roleId i) g then "everyone" else Commands.roleId i in
  let target :=
    if String.eqb pingRole "everyone" then "@everyone"
    else "<@&" +:+ pingRole +:+ ">" in
  let h := Commands.handleSetup i db in
  let content := "Configured news channel to " +:+ Commands.channelMention i
                 +:+ " and ping target to " +:+ target +:+ "." in
  Commands.replies h = [content] /\
  Commands.outcome h = Commands.reply i content /\
  Db.getGuildNewsChannel g (Commands.store h) = Some (Commands.channelId i) /\
  Db.getGuildPingRole g (Commands.store h) = Some pingRole /\
  Index.formatPing (Db.getGuildPingRole g (Commands.store h)) = target /\
  (forall u, u ∈ Db.listTrackedAccounts g (Commands.store h) <->
             u = "shu1aso" \/ u ∈ Db.listTrackedAccounts g db) /\
  (forall r, r ∈ Db.tracked_account db -> r ∈ Db.tracked_account (Commands.store h)) /\
  (Db.consistent db -> Db.consistent (Commands.store h)).
Proof.
  intros Hg Ht Hr g pingRole target h content. subst h content target.
  unfold Commands.handleSetup. rewrite Hg, Ht. cbn [negb].
  change (Commands.roleToPingRole (Commands.guildId i) (Commands.roleId i)) with pingRole.
  fold g.
  set (db2 := Db.setGuildPingRole g pingRole (Db.setGuildNewsChannel g (Commands.channelId i) db)).
  assert (Hcfg : Db.guild_config db2 !! g
                 = Some {| Db.post_channel_id := Commands.channelId i; Db.ping_role := pingRole |}).
  { unfold db2, Db.setGuildPingRole, Db.setGuildNewsChannel. cbn.
    rewrite !lookup_insert_eq. now destruct (Db.guild_config db !! g). }
  assert (Htr : Db.tracked_account db2 = Db.tracked_account db) by reflexivity.
  destruct (addTrackedAccount_facts g "shu1aso" db2) as (db3 & Hadd & Hsame & Hrows & Hlist & _);
    [rewrite Hcfg; eauto|].
  rewrite Hadd. cbn [Commands.replyWith Commands.store Commands.replies Commands.outcome].
  assert (Hrole : Db.getGuildPingRole g db3 = Some pingRole)
    by (unfold Db.getGuildPingRole, Db.getGuildConfig; now rewrite Hsame, Hcfg).
  assert (Hping : Index.formatPing (Some pingRole) = Commands.formatPingRole pingRole)
    by (apply formatPing_formatPingRole, roleToPingRole_truthy, Hr).
  rewrite Hrole, Hping.
  split; [reflexivity|]. split; [reflexivity|]. split.
  { unfold Db.getGuildNewsChannel, Db.getGuildConfig. now rewrite Hsame, Hcfg. }
  split; [reflexivity|]. split; [reflexivity|]. split.
  { intros u. rewrite Hlist, !listTrackedAccounts_elem, Htr. reflexivity. }
  split.
  { intros r Hin. apply Hrows. right. now rewrite Htr. }
  intros Hc. refine (store_consistent_add db2 db3 g "shu1aso" _ _ Hadd).
  apply store_consistent_role, store_consistent_channel, Hc.
Qed.

(** In guild [g2] of the store, which tracks [A] and [B] and pings [r2]:
    a [/setup] with the role [r7]. *)
Lemma handleSetup_configures_witness :
  let h := Commands.handleSetup Wiring.setupRole Wiring.store in
  Commands.replies h = ["Configured news channel to <#c5> and ping target to <@&r7>."] /\
  Db.getGuildNewsChannel "g2" (Commands.store h) = Some "c5" /\
  Db.getGuildPingRole "g2" (Commands.store h) = Some "r7" /\
  Db.listTrackedAccounts "g2" (Commands.store h) = ["A"; "B"; "shu1aso"] /\
  Db.consistent (Commands.store h).
Proof.
  destruct (handleSetup_configures Wiring.setupRole Wiring.store eq_refl eq_refl eq_refl)
    as (Hrep & _ & Hch & Hrole & _ & _ & _ & Hcons).
  cbv zeta in *. split; [exact Hrep|]. split; [exact Hch|]. split; [exact Hrole|].
  split; [vm_compute; reflexivity | exact (Hcons consistent_store)].
Defined.

(** [/addaccount] in a configured guild tracks the normalized name: it is
    listed afterwards with what was listed before, the reply says whether it
    was new, and asking again answers that it is tracked already and leaves
    the store as it is. *)
Theorem handleAddAccount_tracks (i : Commands.Interaction) (db : Db.t) :
  Commands.inGuild i = true ->
  is_Some (Db.guild_config db !! Commands.guildId i) ->
  let g := Commands.guildId i in
  let u := Commands.normalizeUsername (Commands.usernameOption i) in
  let h := Commands.handleAddAccount i db in
  let again := Commands.handleAddAccount i (Commands.store h) in
  (forall x, x ∈ Db.listTrackedAccounts g (Commands.store h) <->
             x = u \/ x ∈ Db.listTrackedAccounts g db) /\
  Commands.replies h =
    [if bool_decide ((g, u) ∈ Db.tracked_account db)
     then "Error: That account is already being tracked."
     else "Added account `" +:+ u +:+ "` to the tracked list."] /\
  Commands.store again = Commands.store h /\
  Commands.replies again = ["Error: That account is already being tracked."].
Proof.
  intros Hg Hcfg g u h again. subst h again. unfold Commands.handleAddAccount.
  rewrite Hg. cbn [negb]. fold g u.
  destruct (addTrackedAccount_facts g u db Hcfg) as (db' & Hadd & _ & _ & Hlist & Hagain).
  rewrite Hadd. case_bool_decide as Hin; cbn [negb Commands.replyWith Commands.store Commands.replies];
    rewrite Hagain; cbn; auto.
Qed.

Lemma handleAddAccount_tracks_witness :
  is_Some (Db.guild_config Wiring.store !! "g1") /\
  let h := Commands.handleAddAccount Wiring.setup Wiring.store in
  Commands.replies h = ["Added account `jane` to the tracked list."] /\
  Commands.replies (Commands.handleAddAccount Wiring.setup (Commands.store h))
    = ["Error: That account is already being tracked."].
Proof.
  assert (H : is_Some (Db.guild_config Wiring.store !! "g1")) by (vm_compute; eauto).
  split; [exact H|].
  destruct (handleAddAccount_tracks Wiring.setup Wiring.store eq_refl H)
    as (_ & _ & _ & Hagain).
  cbv zeta in *. split; [vm_compute; reflexivity | exact Hagain].
Defined.

(** [/removeaccount] undoes [/addaccount]: after adding a name that was not
    tracked, removing it (given with or without the same decoration) gives
    back the store as it was, and says so. *)
Theorem handleRemoveAccount_undoes_add (i : Commands.Interaction) (db : Db.t) :
  Commands.inGuild i = true ->
  is_Some (Db.guild_config db !! Commands.guildId i) ->
  let u := Commands.normalizeUsername (Commands.usernameOption i) in
  (Commands.guildId i, u) ∉ Db.tracked_account db ->
  let h := Commands.handleRemoveAccount i (Commands.store (Commands.handleAddAccount i db)) in
  Commands.store h = db /\
  Commands.replies h = ["Removed account `" +:+ u +:+ "` from the tracked list."].
Proof.
  intros Hg Hcfg u Hnin h. subst h. unfold Commands.handleAddAccount, Commands.handleRemoveAccount.
  rewrite Hg. cbn [negb]. fold u.
  destruct (addTrackedAccount_facts (Commands.guildId i) u db Hcfg) as (db' & Hadd & _).
  rewrite Hadd. rewrite bool_decide_eq_false_2 in * by exact Hnin.
  cbn [negb Commands.replyWith Commands.store].
  destruct (add_remove_facts _ _ _ _ Hadd) as [-> _]. now cbn.
Qed.

Lemma handleRemoveAccount_undoes_add_witness :
  is_Some (Db.guild_config Wiring.store !! "g1") /\
  (("g1", "jane") ∉ Db.tracked_account Wiring.store) /\
  Commands.store (Commands.handleRemoveAccount Wiring.setup
    (Commands.store (Commands.handleAddAccount Wiring.setup Wiring.store))) = Wiring.store.
Proof.
  assert (H : is_Some (Db.guild_config Wiring.store !! "g1")) by (vm_compute; eauto).
  assert (Hn : ("g1", "jane") ∉ Db.tracked_account Wiring.store).
  { apply not_elem_of_union. split; [apply not_elem_of_union; split|];
      apply not_elem_of_singleton; discriminate. }
  split; [exact H|]. split; [exact Hn|].
  exact (proj1 (handleRemoveAccount_undoes_add Wiring.setup Wiring.store eq_refl H Hn)).
Defined.

End SlashCommands.

(** ** Leaving a guild ([onGuildLeave]) *)

Section Leaving.

(** After [onGuildLeave] the guild is gone from a consistent store: no
    configuration, no tracked account, so [notifyGuild] sends it nothing
    and a snapshot lists no account for it; the other guilds keep theirs.
    Two lines are logged. *)
Theorem onGuildLeave_purges (name id : string) (db : Db.t) :
  Db.consistent db ->
  let '(logs, db') := GuildEvents.onGuildLeave name id db in
  length logs = 2%nat /\
  Db.getGuildConfig id db' = None /\
  Db.listTrackedAccounts id db' = [] /\
  Db.consistent db' /\
  (forall client tweet, Index.notifyGuild client db' id tweet = (Returned (), [])) /\
  (forall client gs l, Index.getGuildState client db' = Returned gs ->
     (id, l) ∈ guildMap gs -> l = []) /\
  forall g, g <> id ->
    Db.getGuildConfig g db' = Db.getGuildConfig g db /\
    forall u, u ∈ Db.listTrackedAccounts g db' <-> u ∈ Db.listTrackedAccounts g db.
Proof.
  intros Hc. unfold GuildEvents.onGuildLeave.
  pose proof (deleteGuildData_facts id db Hc) as H.
  pose proof (store_consistent_delete db id Hc) as Hc'.
  destruct (Db.deleteGuildData id db) as [n db']. cbn [snd] in Hc'.
  destruct H as (_ & Hcfg & Hlist & Hothers).
  split; [reflexivity|]. split; [exact Hcfg|]. split; [exact Hlist|].
  split; [exact Hc'|]. split; [|split; [|exact Hothers]].
  - intros client tweet. unfold Index.notifyGuild, Db.getGuildNewsChannel. now rewrite Hcfg.
  - intros client gs l Hgs Hin.
    destruct (getGuildState_facts client db' gs Hgs) as (_ & _ & _ & Hl & _).
    now rewrite (Hl _ _ Hin).
Qed.

Lemma onGuildLeave_purges_witness :
  Db.consistent Wiring.store /\
  Db.getGuildNewsChannel "g2" Wiring.store = Some "c2" /\
  Db.listTrackedAccounts "g2" Wiring.store = ["A"; "B"] /\
  let '(logs, db') := GuildEvents.onGuildLeave "Guild" "g2" Wiring.store in
  logs = [Log "Removed from guild: Guild (g2). Purging DB data...";
          Log "DB purge complete for guild Guild."] /\
  Db.getGuildConfig "g2" db' = None /\
  Db.listTrackedAccounts "g2" db' = [] /\
  (forall tweet, Index.notifyGuild Wiring.client db' "g2" tweet = (Returned (), [])) /\
  Db.listTrackedAccounts "g1" db' = ["A"].
Proof.
  split; [exact consistent_store|]. split; [vm_compute; reflexivity|].
  split; [vm_compute; reflexivity|].
  pose proof (onGuildLeave_purges "Guild" "g2" Wiring.store consistent_store) as H.
  destruct (GuildEvents.onGuildLeave "Guild" "g2" Wiring.store) as [logs db'] eqn:E.
  destruct H as (_ & Hcfg & Hlist & _ & Hmute & _).
  assert (E' := E). vm_compute in E'. injection E' as <- <-.
  split; [reflexivity|]. split; [exact Hcfg|]. split; [exact Hlist|].
  split; [intros tweet; apply Hmute|]. vm_compute. reflexivity.
Defined.

End Leaving.

(** ** Which item a tick keeps when several are new *)

Section TieBreak.

Lemma pollNew_NoDup (E : Env) (us : list string) (seen : gmap string (option string)) :
  NoDup us -> pollNew E us seen = omap (candidate E seen) us.
Proof.
  revert seen; induction us as [|u0 us IH]; intros seen Hnd; [reflexivity|].
  apply NoDup_cons in Hnd as [Hnin Hnd]. cbn [pollNew]. simpl omap.
  destruct (candidate E seen u0) as [l0|] eqn:Hc; [|now apply IH].
  rewrite (IH _ Hnd). f_equal. apply list_omap_ext.
  apply Forall2_same_length_lookup_2; [reflexivity|].
  intros k x y Hx Hy. rewrite Hx in Hy. injection Hy as <-.
  apply candidate_record_ne. intros ->. apply Hnin.
  apply list_elem_of_lookup. eauto.
Qed.

(** Among the identities of a duplicate-free list whose latest items pass
    the gates, [pollOnce] keeps the first in list order whose identifier is
    greatest: every such identity before it has a strictly smaller
    identifier, none after it a greater one. Two identities with the same
    identifier are decided by their order in the list. *)
Theorem pollOnce_first_greatest (E : Env) (us : list string) (w : World) (tw : Tweet.t) :
  NoDup us ->
  fst (pollOnce E us w) = Returned (Some tw) ->
  let seen := g_lastSeenTweetIdByUser w in
  exists pre post,
    us = pre ++ Tweet.username tw :: post /\
    (forall u l, u ∈ pre -> candidate E seen u = Some l ->
       Js.BigInt (Latest.id l) < Js.BigInt (Tweet.id tw)) /\
    (forall u l, u ∈ post -> candidate E seen u = Some l ->
       Js.BigInt (Latest.id l) <= Js.BigInt (Tweet.id tw)).
Proof.
  intros Hnd. rewrite pollOnce_run. cbv zeta. rewrite (pollNew_NoDup _ _ _ Hnd).
  pose proof (fold_keep_spec (fun l => Js.BigInt (Latest.id l))
                (omap (candidate E (g_lastSeenTweetIdByUser w)) us)) as H.
  change (keep (fun l => Js.BigInt (Latest.id l))) with better in H.
  destruct (fold_left better _ None) as [b|]; [|discriminate].
  cbn [fst]. intros [= <-]. cbn [toTweet Tweet.username Tweet.id].
  destruct H as (pre' & post' & Hsplit & Hpre & Hpost).
  destruct (omap_split _ _ _ _ _ Hsplit) as (pre & ub & post & -> & Hc & <- & <-).
  rewrite (candidate_username _ _ _ _ Hc). exists pre, post.
  split; [reflexivity|]. split.
  - intros u l Hu Hl. apply (Hpre l). apply list_elem_of_omap. eauto.
  - intros u l Hu Hl. apply (Hpost l). apply list_elem_of_omap. eauto.
Qed.

Lemma pollOnce_first_greatest_witness :
  NoDup ["A"; "B"] /\
  let tw := Tweet.mk "B" "10" "https://x.com/B/status/10" "ten" "ten" None in
  fst (pollOnce Scenario.crossEnv ["A"; "B"] (Scenario.started Scenario.crossSeen))
    = Returned (Some tw) /\
  exists pre post, ["A"; "B"] = pre ++ Tweet.username tw :: post.
Proof.
  assert (Hnd : NoDup ["A"; "B"]).
  { apply NoDup_cons. split; [|apply NoDup_singleton].
    intros H%list_elem_of_singleton. discriminate H. }
  assert (H : fst (pollOnce Scenario.crossEnv ["A"; "B"] (Scenario.started Scenario.crossSeen))
    = Returned (Some (Tweet.mk "B" "10" "https://x.com/B/status/10" "ten" "ten" None)))
    by reflexivity.
  split; [exact Hnd|]. cbv zeta. split; [exact H|].
  destruct (pollOnce_first_greatest Scenario.crossEnv ["A"; "B"]
              (Scenario.started Scenario.crossSeen) _ Hnd H) as (pre & post & Heq & _).
  now exists pre, post.
Defined.

End TieBreak.

(** ** Commands used in a guild that was never set up *)

Section BeforeSetup.

(** [/setpingrole] in a guild without configuration creates its row with
    the empty channel: from then on accounts can be added for the guild
    (the first addition of a name succeeds), yet [notifyGuild] sends
    nothing for it, whatever the client and the item, until a channel is
    set. *)
Theorem handleSetPingRole_alone_is_mute (i : Commands.Interaction) (db : Db.t) (u : string) :
  Commands.inGuild i = true ->
  Db.consistent db ->
  Db.getGuildConfig (Commands.guildId i) db = None ->
  let g := Commands.guildId i in
  let h := Commands.handleSetPingRole i db in
  Db.getGuildNewsChannel g (Commands.store h) = Some "" /\
  Db.getGuildPingRole g (Commands.store h)
    = Some (Commands.roleToPingRole g (Commands.roleId i)) /\
  (exists db', Db.addTrackedAccount g u (Commands.store h) = Returned (true, db')) /\
  forall client tweet,
    Index.notifyGuild client (Commands.store h) g tweet = (Returned (), []).
Proof.
  intros Hin Hcons Hnone g h. subst h g.
  unfold Commands.handleSetPingRole. rewrite Hin. cbn [negb Commands.replyWith Commands.store].
  unfold Db.getGuildConfig in Hnone.
  assert (Hrow : Db.guild_config
            (Db.setGuildPingRole (Commands.guildId i)
               (Commands.roleToPingRole (Commands.guildId i) (Commands.roleId i)) db)
            !! Commands.guildId i
          = Some {| Db.post_channel_id := "";
                    Db.ping_role :=
                      Commands.roleToPingRole (Commands.guildId i) (Commands.roleId i) |}).
  { unfold Db.setGuildPingRole. cbn [Db.guild_config].
    rewrite Hnone. apply lookup_insert_eq. }
  assert (Hch : Db.getGuildNewsChannel (Commands.guildId i)
            (Db.setGuildPingRole (Commands.guildId i)
               (Commands.roleToPingRole (Commands.guildId i) (Commands.roleId i)) db)
          = Some "").
  { unfold Db.getGuildNewsChannel, Db.getGuildConfig. now rewrite Hrow. }
  split; [exact Hch|]. split.
  { unfold Db.getGuildPingRole, Db.getGuildConfig. now rewrite Hrow. }
  split.
  - unfold Db.addTrackedAccount. rewrite Hrow.
    rewrite bool_decide_eq_false_2; [eauto|].
    unfold Db.setGuildPingRole; cbn [Db.tracked_account].
    intros Hin'. apply Hcons in Hin'. rewrite Hnone in Hin'. now destruct Hin'.
  - intros client tweet. unfold Index.notifyGuild. rewrite Hch. reflexivity.
Qed.

Lemma handleSetPingRole_alone_is_mute_witness :
  let h := Commands.handleSetPingRole Wiring.setup Db.empty in
  Db.getGuildNewsChannel "g1" (Commands.store h) = Some "" /\
  forall tweet, Index.notifyGuild Wiring.client (Commands.store h) "g1" tweet
                = (Returned (), []).
Proof.
  assert (Hnone : Db.getGuildConfig (Commands.guildId Wiring.setup) Db.empty = None)
    by reflexivity.
  destruct (handleSetPingRole_alone_is_mute Wiring.setup Db.empty "A"
              eq_refl consistent_empty Hnone) as (Hch & _ & _ & Hmute).
  cbv zeta. split; [exact Hch|]. intros tweet. apply Hmute.
Defined.

(** [/setchannel] in a guild without configuration creates its row with
    the default ping role: notifications to the channel then mention
    [@everyone], though no ping target was ever chosen. *)
Theorem handleSetChannel_alone_pings_everyone (i : Commands.Interaction) (db : Db.t) :
  Commands.inGuild i = true ->
  Commands.channelIsTextBased i = true ->
  Db.getGuildConfig (Commands.guildId i) db = None ->
  let g := Commands.guildId i in
  let h := Commands.handleSetChannel i db in
  Db.getGuildNewsChannel g (Commands.store h) = Some (Commands.channelId i) /\
  Index.formatPing (Db.getGuildPingRole g (Commands.store h)) = "@everyone" /\
  Db.tracked_account (Commands.store h) = Db.tracked_account db.
Proof.
  intros Hin Htext Hnone g h. subst h g.
  unfold Commands.handleSetChannel. rewrite Hin, Htext.
  cbn [negb Commands.replyWith Commands.store].
  unfold Db.getGuildConfig in Hnone.
  unfold Db.getGuildNewsChannel, Db.getGuildPingRole, Db.getGuildConfig,
    Db.setGuildNewsChannel. cbn [Db.guild_config Db.tracked_account].
  rewrite Hnone, lookup_insert_eq. cbn [Db.post_channel_id Db.ping_role].
  repeat split; reflexivity.
Qed.

Lemma handleSetChannel_alone_pings_everyone_witness :
  let h := Commands.handleSetChannel Wiring.setup Db.empty in
  Db.getGuildNewsChannel "g1" (Commands.store h) = Some "c1" /\
  Index.formatPing (Db.getGuildPingRole "g1" (Commands.store h)) = "@everyone".
Proof.
  assert (Hnone : Db.getGuildConfig (Commands.guildId Wiring.setup) Db.empty = None)
    by reflexivity.
  destruct (handleSetChannel_alone_pings_everyone Wiring.setup Db.empty
              eq_refl eq_refl Hnone) as (Hch & Hping & _).
  cbv zeta. split; [exact Hch | exact Hping].
Defined.

End BeforeSetup.
